(** * photocull: duplicate detection, preview extraction, sharpness and trash

    A shallow embedding of the engine of the photo culling tool, written
    function by function after the TypeScript and JavaScript sources, and
    the properties of its design document proved (or refuted) on it.

    Conventions of the embedding:
    - JavaScript strings are [string] (code units below 256);
    - array lengths, indices, counters and Hamming distances are [nat] or
      [Z] (exact in a double far beyond every size met here);
    - the similarity percentage is a rational [Q]: every value
      [(64 - d) / 64 * 100] is a dyadic rational that a double holds
      exactly, so the two floating-point operations round nothing;
    - luminance is computed in IEEE 754 binary64, on [spec_float];
    - a [Map] is its list of entries in insertion order;
    - the file system and the clock are explicit state. *)

From Stdlib Require Import ZArith QArith Qround List String Ascii Lia Bool.
From Stdlib Require Import Strings.Byte.
From Stdlib Require Import Floats.SpecFloat.
From stdpp Require Import gmap strings list fin_maps pretty.

Local Open Scope string_scope.
Local Open Scope list_scope.

(* ===================================================================== *)
(** * Part I: the code                                                    *)
(* ===================================================================== *)

(** ** The JavaScript built-ins the sources call *)

Module Js.

Definition code (c : ascii) : N := N_of_ascii c.

(** StrWhiteSpaceChar, as far as one-byte code units go. *)
Definition isStrWhiteSpaceChar (c : ascii) : bool :=
  let n := code c in
  (n =? 9)%N || (n =? 10)%N || (n =? 11)%N || (n =? 12)%N
  || (n =? 13)%N || (n =? 32)%N || (n =? 160)%N.

(** The value of a character as a digit of some radix up to 36. *)
Definition digitValue (c : ascii) : option N :=
  let n := code c in
  if (48 <=? n)%N && (n <=? 57)%N then Some (n - 48)%N
  else if (97 <=? n)%N && (n <=? 122)%N then Some (n - 87)%N
  else if (65 <=? n)%N && (n <=? 90)%N then Some (n - 55)%N
  else None.

Fixpoint trimStart (s : string) : string :=
  match s with
  | String c r => if isStrWhiteSpaceChar c then trimStart r else s
  | EmptyString => s
  end.

(** The longest prefix of radix-[R] digits, read as a number; [None] when
    that prefix is empty. *)
Fixpoint parseDigits (R : N) (s : string) (acc : option N) : option N :=
  match s with
  | String c r =>
      match digitValue c with
      | Some d =>
          if (d <? R)%N
          then parseDigits R r
                 (Some (match acc with Some a => a * R + d | None => d end)%N)
          else acc
      | None => acc
      end
  | EmptyString => acc
  end.

(** [parseInt(string, radix)]; [None] is NaN. *)
Definition parseInt (s : string) (radix : N) : option Z :=
  let S0 := trimStart s in
  let '(sign, S1) :=
    match S0 with
    | String "-" r => ((-1)%Z, r)
    | String "+" r => (1%Z, r)
    | _ => (1%Z, S0)
    end in
  if negb (radix =? 0)%N && ((radix <? 2)%N || (36 <? radix)%N) then None
  else
    let stripPrefix := (radix =? 0)%N || (radix =? 16)%N in
    let R0 := if (radix =? 0)%N then 10%N else radix in
    let '(R, S2) :=
      if stripPrefix then
        match S1 with
        | String "0" (String "x" r) => (16%N, r)
        | String "0" (String "X" r) => (16%N, r)
        | _ => (R0, S1)
        end
      else (R0, S1) in
    match parseDigits R S2 None with
    | None => None
    | Some n => Some (sign * Z.of_N n)%Z
    end.

(** The digit characters of [Number.prototype.toString(radix)]. *)
Definition digitChar (d : N) : ascii :=
  if (d <? 10)%N then ascii_of_N (48 + d) else ascii_of_N (87 + d).

Fixpoint digitsOf (fuel : nat) (R n : N) (acc : string) : string :=
  match fuel with
  | O => acc
  | S fuel' =>
      let acc' := String (digitChar (n mod R)) acc in
      if (n / R =? 0)%N then acc' else digitsOf fuel' R (n / R)%N acc'
  end.

(** [n.toString(radix)] for an integral number or NaN ([None]). *)
Definition toString (n : option Z) (radix : N) : string :=
  match n with
  | None => "NaN"
  | Some z =>
      let m := Z.abs_N z in
      let ds := digitsOf (S (N.to_nat (N.log2 m))) radix m "" in
      if (z <? 0)%Z then String "-" ds else ds
  end.

(** The first [n] characters of [pad] repeated for ever. *)
Fixpoint cycle (n : nat) (pad rest : string) : string :=
  match n with
  | O => ""
  | S n' =>
      match rest with
      | String c r => String c (cycle n' pad r)
      | EmptyString =>
          match pad with
          | String c r => String c (cycle n' pad r)
          | EmptyString => ""
          end
      end
  end.

(** [s.padStart(targetLength, padString)]. *)
Definition padStart (s : string) (targetLength : nat) (padString : string) : string :=
  if (targetLength <=? String.length s)%nat then s
  else cycle (targetLength - String.length s) padString padString +:+ s.

(** [s.substr(start, length)] for non-negative arguments. *)
Definition substr (s : string) (start len : nat) : string :=
  String.substring start len s.

(** [s[i]]; [None] is undefined. *)
Definition charAt (s : string) (i : nat) : option ascii := String.get i s.

(** [toLowerCase] of one code unit below 256: the letters A to Z, and the
    capitals of Latin-1, U+00C0 to U+00DE without the sign U+00D7. *)
Definition lowerCaseChar (c : ascii) : ascii :=
  let n := code c in
  if ((65 <=? n)%N && (n <=? 90)%N)
     || ((192 <=? n)%N && (n <=? 222)%N && negb (n =? 215)%N)
  then ascii_of_N (n + 32) else c.

(** [s.toLowerCase()]. *)
Fixpoint toLowerCase (s : string) : string :=
  match s with
  | EmptyString => ""
  | String c r => String (lowerCaseChar c) (toLowerCase r)
  end.

(** [s.startsWith(t)] and [s.endsWith(t)]. *)
Definition startsWith (s t : string) : bool := String.prefix t s.

Definition endsWith (s t : string) : bool :=
  (String.length t <=? String.length s)%nat
  && String.eqb
       (String.substring (String.length s - String.length t) (String.length t) s) t.

End Js.

(** ** JavaScript numbers where rounding matters: IEEE 754 binary64 *)

Module Number.

Definition number := spec_float.

Definition prec : Z := 53.
Definition emax : Z := 1024.

Definition NaN : number := S754_nan.
Definition zero : number := S754_zero false.

(** The double nearest to an integer (exact below 2^53). *)
Definition ofZ (z : Z) : number := binary_normalize prec emax z 0 false.

Definition one : number := ofZ 1.

Definition add : number -> number -> number := SFadd prec emax.
Definition sub : number -> number -> number := SFsub prec emax.
Definition mul : number -> number -> number := SFmul prec emax.
Definition div : number -> number -> number := SFdiv prec emax.
Definition sqrt : number -> number := SFsqrt prec emax.
Definition ltb : number -> number -> bool := SFltb.

(** A decimal literal [n / d], such as 0.299 = 299 / 1000: the double
    nearest to the quotient, which the correctly rounded division of the
    two exactly represented integers yields. *)
Definition literal (n d : Z) : number := div (ofZ n) (ofZ d).

(** A typed-array element as a number; [undefined] becomes NaN. *)
Definition ofByte (b : option byte) : number :=
  match b with
  | Some b => ofZ (Z.of_N (Byte.to_N b))
  | None => NaN
  end.

(** [Math.round]: the nearest integer, ties towards plus infinity; a zero
    result keeps the sign of the argument. *)
Definition round (x : number) : number :=
  match x with
  | S754_finite s m e =>
      if (0 <=? e)%Z then x
      else
        let n := ((2 * cond_Zopp s (Zpos m) + 2 ^ (- e)) / 2 ^ (1 - e))%Z in
        if (n =? 0)%Z then S754_zero s else ofZ n
  | _ => x
  end.

Definition isFinite (x : number) : bool :=
  match x with
  | S754_zero _ | S754_finite _ _ _ => true
  | _ => false
  end.

(** [Math.min(a, b)]: NaN when either is, and -0 below +0. *)
Definition min (a b : number) : number :=
  match SFcompare a b with
  | None => NaN
  | Some Lt => a
  | Some Gt => b
  | Some Eq => match a with S754_zero true => a | _ => b end
  end.

End Number.

(** ** frontend/src/utils/duplicateDetection.ts *)

Module DuplicateDetection.

Record ImageHash := { hash : string; width : nat; height : nat }.

Record DuplicateGroup := { id : string; photos : list string; similarity : Q }.

(** A [Map<string, ImageHash>]: its entries, in insertion order. *)
Definition Map := list (string * ImageHash).

Definition keys (m : Map) : list string := map fst m.

Fixpoint get (m : Map) (k : string) : option ImageHash :=
  match m with
  | [] => None
  | (k', v) :: m' => if String.eqb k' k then Some v else get m' k
  end.

(** The result of [calculateHammingDistance]: a count or [Infinity]. *)
Inductive distance := Finite (n : nat) | Infinity.

(** [binaryToHex]: the loop over [i = 0, 4, 8, ...] below [binary.length],
    [n] turns of it left. *)
Fixpoint binaryToHex_loop (n i : nat) (binary hex : string) : string :=
  match n with
  | O => hex
  | S n' =>
      let chunk := Js.substr binary i 4 in
      let decimal := Js.parseInt chunk 2 in
      binaryToHex_loop n' (i + 4) binary (hex +:+ Js.toString decimal 16)
  end.

Definition binaryToHex (binary : string) : string :=
  binaryToHex_loop (Nat.div (String.length binary + 3) 4) 0 binary "".

(** [hexToBinary]: the loop over the characters of [hex]. *)
Fixpoint hexToBinary_loop (hex binary : string) : string :=
  match hex with
  | EmptyString => binary
  | String c hex' =>
      let decimal := Js.parseInt (String c EmptyString) 16 in
      hexToBinary_loop hex' (binary +:+ Js.padStart (Js.toString decimal 2) 4 "0")
  end.

Definition hexToBinary (hex : string) : string := hexToBinary_loop hex "".

(** The counting loop of [calculateHammingDistance], over the characters of
    [binary1] from index [i] on. *)
Fixpoint countDifferences (rest1 : string) (i : nat) (binary2 : string)
    (distance : nat) : nat :=
  match rest1 with
  | EmptyString => distance
  | String c rest1' =>
      if decide (Some c = Js.charAt binary2 i)
      then countDifferences rest1' (S i) binary2 distance
      else countDifferences rest1' (S i) binary2 (S distance)
  end.

Definition calculateHammingDistance (hash1 hash2 : string) : distance :=
  if negb (String.length hash1 =? String.length hash2)%nat then Infinity
  else
    let binary1 := hexToBinary hash1 in
    let binary2 := hexToBinary hash2 in
    Finite (countDifferences binary1 0 binary2 0).

(** [Math.max(0, q)]. *)
Definition max0 (q : Q) : Q := if Qle_bool q 0 then 0%Q else q.

Definition maxDistance : Q := 64%Q.

Definition calculateSimilarity (hash1 hash2 : string) : Q :=
  match calculateHammingDistance hash1 hash2 with
  | Infinity => 0%Q
  | Finite distance =>
      max0 ((maxDistance - inject_Z (Z.of_nat distance)) / maxDistance * 100)%Q
  end.

(** The inner loop of [findDuplicateGroups] over [j = i + 1 ...]: [later]
    is [photoIds] from index [i + 1] on. *)
Fixpoint findSimilar (imageHashes : Map) (similarityThreshold : Q)
    (hash1 : ImageHash) (later : list string)
    (similarPhotos : list string) (processed : gset string)
    : list string * gset string :=
  match later with
  | [] => (similarPhotos, processed)
  | photoId2 :: later' =>
      if decide (photoId2 ∈ processed)
      then findSimilar imageHashes similarityThreshold hash1 later'
             similarPhotos processed
      else
        match get imageHashes photoId2 with
        | None => findSimilar imageHashes similarityThreshold hash1 later'
                    similarPhotos processed
        | Some hash2 =>
            if Qle_bool similarityThreshold
                 (calculateSimilarity (hash hash1) (hash hash2))
            then findSimilar imageHashes similarityThreshold hash1 later'
                   (similarPhotos ++ [photoId2]) ({[photoId2]} ∪ processed)
            else findSimilar imageHashes similarityThreshold hash1 later'
                   similarPhotos processed
        end
  end.

Definition groupId (n : nat) : string := "dup_group_" +:+ pretty n.

(** The outer loop of [findDuplicateGroups] over [i]: [photoIds] is the
    array from index [i] on. *)
Fixpoint findGroups (imageHashes : Map) (similarityThreshold : Q)
    (photoIds : list string)
    (groups : list DuplicateGroup) (processed : gset string)
    : list DuplicateGroup :=
  match photoIds with
  | [] => groups
  | photoId1 :: later =>
      if decide (photoId1 ∈ processed)
      then findGroups imageHashes similarityThreshold later groups processed
      else
        match get imageHashes photoId1 with
        | None => findGroups imageHashes similarityThreshold later groups processed
        | Some hash1 =>
            let '(similarPhotos, processed') :=
              findSimilar imageHashes similarityThreshold hash1 later
                [photoId1] processed in
            if (1 <? length similarPhotos)%nat
            then findGroups imageHashes similarityThreshold later
                   (groups ++ [ {| id := groupId (length groups + 1);
                                   photos := similarPhotos;
                                   similarity := similarityThreshold |} ])
                   (list_to_set similarPhotos ∪ processed')
            else findGroups imageHashes similarityThreshold later groups
                   ({[photoId1]} ∪ processed')
        end
  end.

Definition findDuplicateGroups (imageHashes : Map) (similarityThreshold : Q)
    : list DuplicateGroup :=
  findGroups imageHashes similarityThreshold (keys imageHashes) [] ∅.

(** *** calculateImageHash, from the pixel data on

    [pixels] is the [Uint8ClampedArray] that [getImageData] returns for
    the 9 by 8 canvas: four bytes (R, G, B, A) per sample, row by row. *)

Definition hashSize : nat := 8.

(** [Math.round(0.299 * pixels[i] + 0.587 * pixels[i + 1] + 0.114 * pixels[i + 2])]. *)
Definition grayAt (pixels : list byte) (i : nat) : Number.number :=
  Number.round
    (Number.add
       (Number.add
          (Number.mul (Number.literal 299 1000) (Number.ofByte (pixels !! i)))
          (Number.mul (Number.literal 587 1000) (Number.ofByte (pixels !! (i + 1)%nat))))
       (Number.mul (Number.literal 114 1000) (Number.ofByte (pixels !! (i + 2)%nat)))).

(** The loop over [i = 0, 4, 8, ...] below [pixels.length], [n] turns left. *)
Fixpoint grayPixels_loop (n i : nat) (pixels : list byte)
    (grayPixels : list Number.number) : list Number.number :=
  match n with
  | O => grayPixels
  | S n' => grayPixels_loop n' (i + 4) pixels (grayPixels ++ [grayAt pixels i])
  end.

Definition toGrayPixels (pixels : list byte) : list Number.number :=
  grayPixels_loop (Nat.div (length pixels + 3) 4) 0 pixels [].

(** [grayPixels[k]], [undefined] read as NaN by the comparison. *)
Definition grayPixel (grayPixels : list Number.number) (k : nat) : Number.number :=
  default Number.NaN (grayPixels !! k).

Definition dHashStep (grayPixels : list Number.number) (row : nat)
    (hash : string) (col : nat) : string :=
  let pixelIndex := (row * (hashSize + 1) + col)%nat in
  let rightPixelIndex := (pixelIndex + 1)%nat in
  if Number.ltb (grayPixel grayPixels pixelIndex) (grayPixel grayPixels rightPixelIndex)
  then hash +:+ "1"
  else hash +:+ "0".

(** The two nested loops over [row] and [col]. *)
Definition dHashBits (grayPixels : list Number.number) : string :=
  fold_left
    (fun hash row => fold_left (dHashStep grayPixels row) (seq 0 hashSize) hash)
    (seq 0 hashSize) "".

Definition calculateImageHash (pixels : list byte) (naturalWidth naturalHeight : nat)
    : ImageHash :=
  let grayPixels := toGrayPixels pixels in
  let hash := dHashBits grayPixels in
  let hexHash := binaryToHex hash in
  {| hash := hexHash; width := naturalWidth; height := naturalHeight |}.

End DuplicateDetection.


(** ** frontend/src/utils/rawThumbnailExtractor.ts *)

Module RawThumbnailExtractor.

(** [data[i]] of a [Uint8Array]; [None] is undefined. *)
Definition at_ (data : list byte) (i : Z) : option byte :=
  if (i <? 0)%Z then None else data !! Z.to_nat i.

Definition len (data : list byte) : Z := Z.of_nat (length data).

(** [data[k] === b], false when [data[k]] is undefined. *)
Definition sameByte (o : option byte) (b : byte) : bool :=
  match o with
  | Some a => Byte.eqb a b
  | None => false
  end.

(** The loop over [j] of [findJpegMarker]: [marker] from index [j] on. *)
Fixpoint markerFound (data : list byte) (i : Z) (marker : list byte) (j : Z) : bool :=
  match marker with
  | [] => true
  | mj :: marker' =>
      if sameByte (at_ data (i + j)) mj
      then markerFound data i marker' (j + 1)
      else false
  end.

(** The loop over [i] of [findJpegMarker], [n] turns left. *)
Fixpoint findJpegMarker_loop (n : nat) (data marker : list byte) (i : Z) : Z :=
  match n with
  | O => (-1)%Z
  | S n' =>
      if markerFound data i marker 0 then i
      else findJpegMarker_loop n' data marker (i + 1)
  end.

(** [i] runs from [startOffset] while [i <= data.length - marker.length]. *)
Definition findJpegMarker (data marker : list byte) (startOffset : Z) : Z :=
  findJpegMarker_loop
    (Z.to_nat (len data - len marker - startOffset + 1))
    data marker startOffset.

(** [data.slice(start, end)] for indices within the array. *)
Definition slice (data : list byte) (start stop : Z) : list byte :=
  take (Z.to_nat (stop - start)) (drop (Z.to_nat start) data).

Definition SOI : list byte := [xff; xd8].
Definition EOI : list byte := [xff; xd9].

(** The [while] loop of [findBestJpegPreview]; [None] when [fuel] turns
    did not reach its end. *)
Fixpoint collectPreviews (fuel : nat) (data : list byte) (searchStart : Z)
    (jpegPreviews : list (list byte)) : option (list (list byte)) :=
  match fuel with
  | O => None
  | S fuel' =>
      if (searchStart <? len data)%Z then
        let jpegStart := findJpegMarker data SOI searchStart in
        if (jpegStart <? 0)%Z then Some jpegPreviews
        else
          let jpegEnd := findJpegMarker data EOI (jpegStart + 2) in
          let jpegPreviews' :=
            if (0 <=? jpegEnd)%Z && (jpegStart <? jpegEnd)%Z then
              let jpegData := slice data jpegStart (jpegEnd + 2) in
              if (1024 <? len jpegData)%Z
              then jpegPreviews ++ [jpegData]
              else jpegPreviews
            else jpegPreviews in
          collectPreviews fuel' data (jpegStart + 2) jpegPreviews'
      else Some jpegPreviews
  end.

(** [jpegPreviews.reduce((largest, current) =>
      current.length > largest.length ? current : largest)]. *)
Definition reduceLargest (first : list byte) (others : list (list byte)) : list byte :=
  fold_left
    (fun largest current =>
       if (len largest <? len current)%Z then current else largest)
    others first.

(** The outer [option] tells whether the loop ended; the inner one is the
    result, [None] for [null]. *)
Definition findBestJpegPreview (data : list byte) : option (option (list byte)) :=
  match collectPreviews (S (length data)) data 0 [] with
  | None => None
  | Some [] => Some None
  | Some (first :: others) => Some (Some (reduceLargest first others))
  end.

(** *** The extractors by format *)

Definition extractDngThumbnail (data : list byte) : option (option (list byte)) :=
  if (len data <? 8)%Z then Some None
  else
    let isLittleEndian := sameByte (at_ data 0) x49 && sameByte (at_ data 1) x49 in
    let isBigEndian := sameByte (at_ data 0) x4d && sameByte (at_ data 1) x4d in
    if negb isLittleEndian && negb isBigEndian then Some None
    else findBestJpegPreview data.

Definition extractCanonThumbnail (data : list byte) : option (option (list byte)) :=
  findBestJpegPreview data.

Definition extractNikonThumbnail (data : list byte) : option (option (list byte)) :=
  findBestJpegPreview data.

Definition extractSonyThumbnail (data : list byte) : option (option (list byte)) :=
  findBestJpegPreview data.

Definition extractGenericJpegThumbnail (data : list byte) : option (option (list byte)) :=
  findBestJpegPreview data.

(** The value of [extractedJpeg] in [extractEmbeddedJpeg], after the
    choice of the extractor by [fileInfo.format]. *)
Definition extractedJpeg (format : string) (data : list byte)
    : option (option (list byte)) :=
  if String.eqb format "DNG" then extractDngThumbnail data
  else if String.eqb format "CR2" || String.eqb format "CR3"
  then extractCanonThumbnail data
  else if String.eqb format "NEF" then extractNikonThumbnail data
  else if String.eqb format "ARW" then extractSonyThumbnail data
  else extractGenericJpegThumbnail data.

End RawThumbnailExtractor.

(** ** frontend/src/utils/qualityAnalysis.ts *)

Module QualityAnalysis.

Import Number.

(** [for (let v = start; v < stop; v += step)]: the values [v] takes. *)
Fixpoint range_loop (n : nat) (v stop step : Z) : list Z :=
  match n with
  | O => []
  | S n' => if (v <? stop)%Z then v :: range_loop n' (v + step) stop step else []
  end.

Definition range (start stop step : Z) : list Z :=
  range_loop (Z.to_nat (stop - start)) start stop step.

Definition sampleSize : Q := 25 # 100.
Definition stepX : Z := Z.max 1 (Qfloor (1 / sampleSize)).
Definition stepY : Z := Z.max 1 (Qfloor (1 / sampleSize)).

(** [data[i]] of the [Uint8ClampedArray], as a number. *)
Definition at_ (data : list byte) (i : Z) : number :=
  ofByte (if (i <? 0)%Z then None else data !! Z.to_nat i).

(** [0.299 * data[idx] + 0.587 * data[idx + 1] + 0.114 * data[idx + 2]]. *)
Definition grayOf (data : list byte) (idx : Z) : number :=
  add (add (mul (literal 299 1000) (at_ data idx))
           (mul (literal 587 1000) (at_ data (idx + 1))))
      (mul (literal 114 1000) (at_ data (idx + 2))).

(** The body of the inner loop, on the pair of [sum] and [count]. *)
Definition sample (data : list byte) (width y : Z)
    (acc : number * number) (x : Z) : number * number :=
  let '(sum, count) := acc in
  let idx := ((y * width + x) * 4)%Z in
  let gray := grayOf data idx in
  let rightIdx := ((y * width + (x + stepX)) * 4)%Z in
  let rightGray := grayOf data rightIdx in
  let bottomIdx := (((y + stepY) * width + x) * 4)%Z in
  let bottomGray := grayOf data bottomIdx in
  let dx := sub rightGray gray in
  let dy := sub bottomGray gray in
  let magnitude := sqrt (add (mul dx dx) (mul dy dy)) in
  (add sum (mul magnitude magnitude), add count one).

Definition sampleRow (data : list byte) (width : Z)
    (acc : number * number) (y : Z) : number * number :=
  fold_left (sample data width y) (range stepX (width - stepX) stepX) acc.

(** How a call ends, and how a promise settles: with a value, or with an
    error thrown (a rejection). *)
Inductive Completion (A : Type) :=
  | Returned (a : A)
  | Thrown (error : string).
Arguments Returned {A} a.
Arguments Thrown {A} error.

(** [ctx.getImageData(0, 0, width, height)] on a canvas whose pixel data
    is [data]: it throws when the width or the height asked for is 0. *)
Definition getImageData (data : list byte) (width height : Z)
    : Completion (list byte) :=
  if (width =? 0)%Z || (height =? 0)%Z then Thrown "IndexSizeError"
  else Returned data.

(** [calculateBlurScore], on a canvas whose pixel data is [data]. *)
Definition calculateBlurScore (data : list byte) (width height : Z)
    : Completion number :=
  match getImageData data width height with
  | Thrown error => Thrown error
  | Returned data =>
      let '(sum, count) :=
        fold_left (sampleRow data width) (range stepY (height - stepY) stepY)
          (zero, zero) in
      Returned (if ltb zero count then sqrt (div sum count) else zero)
  end.

Record QualitySettings := {
  enableBlurDetection : bool;
  enableClosedEyeDetection : bool;
  blurThreshold : number;
  autoSelectBlurry : bool;
  autoSelectClosedEyes : bool
}.

Record QualityAnalysisResult := {
  blurScore : number;
  isBlurry : bool;
  hasClosedEyes : bool;
  faceCount : nat;
  qualityScore : number
}.

Definition DEFAULT_QUALITY_SETTINGS : QualitySettings :=
  {| enableBlurDetection := true; enableClosedEyeDetection := false;
     blurThreshold := ofZ 100; autoSelectBlurry := false;
     autoSelectClosedEyes := false |}.

Definition calculateOverallQuality (blurScore : number) (hasClosedEyes : bool) : number :=
  let quality := min (ofZ 100) blurScore in
  let quality := if hasClosedEyes then mul quality (literal 5 10) else quality in
  round quality.

(** [analyzeImageQuality], from the scaled canvas on: [data] is its pixel
    data, [width] and [height] its size, and [faceAnalysis] what
    [analyzeFaces] resolves to (it never rejects). An error thrown on the
    way rejects the promise. *)
Definition analyzeImageQuality (settings : QualitySettings)
    (data : list byte) (width height : Z) (faceAnalysis : bool * nat)
    : Completion QualityAnalysisResult :=
  match
    (if enableBlurDetection settings then calculateBlurScore data width height
     else Returned zero)
  with
  | Thrown error => Thrown error
  | Returned blurScore =>
      let isBlurry :=
        if enableBlurDetection settings then ltb blurScore (blurThreshold settings)
        else false in
      let hasClosedEyes :=
        if enableClosedEyeDetection settings then faceAnalysis.1 else false in
      let faceCount :=
        if enableClosedEyeDetection settings then faceAnalysis.2 else 0%nat in
      let qualityScore := calculateOverallQuality blurScore hasClosedEyes in
      Returned
        {| blurScore := blurScore; isBlurry := isBlurry;
           hasClosedEyes := hasClosedEyes; faceCount := faceCount;
           qualityScore := qualityScore |}
  end.

Definition shouldAutoSelect (analysis : QualityAnalysisResult)
    (settings : QualitySettings) : bool :=
  if autoSelectBlurry settings && isBlurry analysis then true
  else if autoSelectClosedEyes settings && hasClosedEyes analysis then true
  else false.

End QualityAnalysis.

(** ** Paths, as far as the back end uses Node's [path] module

    [join] and [basename] are modelled for segments that are already
    normalised (no [.], [..] or doubled separators). *)

Module Path.

Definition join (a b : string) : string := a +:+ "/" +:+ b.

(** The part after the last separator: [p.split("/").pop()], which is also
    [basename p] for a normalised path. *)
Fixpoint lastSegment (p acc : string) : string :=
  match p with
  | EmptyString => acc
  | String c r =>
      if Ascii.eqb c "/" then lastSegment r ""
      else lastSegment r (acc +:+ String c EmptyString)
  end.

Definition basename (p : string) : string := lastSegment p "".

Definition startsWith (s pre : string) : bool := String.prefix pre s.

Definition endsWith (s suf : string) : bool :=
  (String.length suf <=? String.length s)%nat
  && String.eqb
       (String.substring (String.length s - String.length suf) (String.length suf) s)
       suf.

(** The index of the last dot of [s], the characters numbered from [i]. *)
Fixpoint lastDot (s : string) (i : nat) (found : option nat) : option nat :=
  match s with
  | EmptyString => found
  | String c r => lastDot r (S i) (if Ascii.eqb c "." then Some i else found)
  end.

(** [extname] of a name without separators: from the last dot on; empty
    when there is no dot, when the only dot comes first, and for [..]. *)
Definition extnameOf (name : string) : string :=
  match lastDot name 0 None with
  | None => ""
  | Some O => ""
  | Some i =>
      if String.eqb name ".." then ""
      else String.substring i (String.length name - i) name
  end.

(** [p] without the separators at its end. *)
Fixpoint stripSeparators (p : string) : string :=
  match p with
  | EmptyString => ""
  | String c r =>
      let r' := stripSeparators r in
      if Ascii.eqb c "/" && String.eqb r' "" then "" else String c r'
  end.

(** [extname(p)]: the extension of the last portion of the path. *)
Definition extname (p : string) : string :=
  extnameOf (lastSegment (stripSeparators p) "").

End Path.

(** ** backend/src/scanner.js

    An [async] method runs until its next [await] and is resumed when the
    awaited promise settles; between two such points nothing else runs.
    An activation of [scanDirectory] is therefore a [Frame] (where it
    waits, with its local variables), and the method is the pair of
    [scanDirectory], its run up to the first [await], and [resume]. *)

Module Scanner.

Record Progress := {
  totalFiles : nat;
  processedFiles : nat;
  currentFile : string;
  phase : string
}.

Record Photo := { id : string; path : string }.

Record DirectoryScanner := {
  isScanning : bool;
  progress : Progress;
  thumbnailsDir : option string
}.

Definition freshProgress : Progress :=
  {| totalFiles := 0; processedFiles := 0; currentFile := ""; phase := "scanning" |}.

(** [new DirectoryScanner()]. *)
Definition constructor : DirectoryScanner :=
  {| isScanning := false; progress := freshProgress; thumbnailsDir := None |}.

Inductive Frame :=
  | AwaitAccess (directoryPath : string)
      (* getThumbnailsDirectory: await fs.access(this.thumbnailsDir) *)
  | AwaitMkdir (directoryPath : string)
      (* getThumbnailsDirectory: await fs.mkdir(this.thumbnailsDir, ...) *)
  | AwaitFindImageFiles (directoryPath : string)
      (* await this.findImageFiles(directoryPath) *)
  | AwaitProcessFile (directoryPath filePath : string)
      (later : list string) (photos : list Photo).
      (* await this.processFile(filePath, directoryPath) *)

(** How an awaited promise settles. *)
Inductive Reply :=
  | Done
  | FoundFiles (files : list string)
  | Processed (photo : option Photo)
  | Failed (message : string).

(** How the promise of [scanDirectory] settles. *)
Inductive Settled :=
  | Resolved (photos : list Photo)
  | Rejected (message : string).

Definition setScanning (this : DirectoryScanner) (b : bool) : DirectoryScanner :=
  {| isScanning := b; progress := progress this; thumbnailsDir := thumbnailsDir this |}.

Definition setProgress (this : DirectoryScanner) (p : Progress) : DirectoryScanner :=
  {| isScanning := isScanning this; progress := p; thumbnailsDir := thumbnailsDir this |}.

Definition setThumbnailsDir (this : DirectoryScanner) (d : option string)
    : DirectoryScanner :=
  {| isScanning := isScanning this; progress := progress this; thumbnailsDir := d |}.

(** The [finally] block, then the settlement [s]. *)
Definition finally (this : DirectoryScanner) (s : Settled)
    : DirectoryScanner * (Frame + Settled) :=
  (setScanning this false, inr s).

(** The [for ... of files] loop, from the file that comes next. *)
Definition nextFile (this : DirectoryScanner) (directoryPath : string)
    (files : list string) (photos : list Photo)
    : DirectoryScanner * (Frame + Settled) :=
  match files with
  | filePath :: later =>
      let p := progress this in
      (setProgress this
         {| totalFiles := totalFiles p; processedFiles := processedFiles p;
            currentFile := Path.basename filePath; phase := phase p |},
       inl (AwaitProcessFile directoryPath filePath later photos))
  | [] =>
      let p := progress this in
      finally
        (setProgress this
           {| totalFiles := totalFiles p; processedFiles := processedFiles p;
              currentFile := currentFile p; phase := "complete" |})
        (Resolved photos)
  end.

(** A call of [scanDirectory], up to its first [await]. *)
Definition scanDirectory (this : DirectoryScanner) (directoryPath : string)
    : DirectoryScanner * (Frame + Settled) :=
  if isScanning this then (this, inr (Rejected "Scan already in progress"))
  else
    let this1 := setScanning this true in
    let this2 := setThumbnailsDir this1 None in
    let this3 := setProgress this2 freshProgress in
    (* getThumbnailsDirectory: this.thumbnailsDir is null here *)
    let this4 :=
      setThumbnailsDir this3 (Some (Path.join directoryPath "_thumbnails")) in
    (this4, inl (AwaitAccess directoryPath)).

(** The activation [frame] goes on with the [reply] to what it awaited. *)
Definition resume (this : DirectoryScanner) (frame : Frame) (reply : Reply)
    : DirectoryScanner * (Frame + Settled) :=
  match frame with
  | AwaitAccess directoryPath =>
      match reply with
      | Failed _ => (this, inl (AwaitMkdir directoryPath))
      | _ => (this, inl (AwaitFindImageFiles directoryPath))
      end
  | AwaitMkdir directoryPath =>
      match reply with
      | Failed message => finally this (Rejected message)
      | _ => (this, inl (AwaitFindImageFiles directoryPath))
      end
  | AwaitFindImageFiles directoryPath =>
      match reply with
      | FoundFiles files =>
          let p := progress this in
          nextFile
            (setProgress this
               {| totalFiles := length files; processedFiles := processedFiles p;
                  currentFile := currentFile p; phase := "analyzing" |})
            directoryPath files []
      | Failed message => finally this (Rejected message)
      | _ => finally this (Rejected "TypeError")
      end
  | AwaitProcessFile directoryPath filePath later photos =>
      let photos' :=
        match reply with
        | Processed (Some photo) => photos ++ [photo]
        | _ => photos
        end in
      let p := progress this in
      nextFile
        (setProgress this
           {| totalFiles := totalFiles p; processedFiles := S (processedFiles p);
              currentFile := currentFile p; phase := phase p |})
        directoryPath later photos'
  end.

(** *** The event loop around one scanner object

    Calls of [scanDirectory] arrive and awaited promises settle in any
    order; [inflight] holds the activations that have not settled. *)

Record World := {
  scanner : DirectoryScanner;
  inflight : list (nat * Frame);
  settled : list (nat * Settled);
  calls : nat
}.

Inductive Event :=
  | Call (directoryPath : string)
  | Settle (call : nat) (reply : Reply).

Definition start : World :=
  {| scanner := constructor; inflight := []; settled := []; calls := 0 |}.

Fixpoint frameOf (call : nat) (l : list (nat * Frame)) : option Frame :=
  match l with
  | [] => None
  | (c, f) :: l' => if (c =? call)%nat then Some f else frameOf call l'
  end.

Definition without (call : nat) (l : list (nat * Frame)) : list (nat * Frame) :=
  filter (fun cf => cf.1 ≠ call) l.

Definition step (w : World) (e : Event) : World :=
  match e with
  | Call directoryPath =>
      match scanDirectory (scanner w) directoryPath with
      | (this, inl frame) =>
          {| scanner := this; inflight := inflight w ++ [(calls w, frame)];
             settled := settled w; calls := S (calls w) |}
      | (this, inr s) =>
          {| scanner := this; inflight := inflight w;
             settled := settled w ++ [(calls w, s)]; calls := S (calls w) |}
      end
  | Settle call reply =>
      match frameOf call (inflight w) with
      | None => w
      | Some frame =>
          match resume (scanner w) frame reply with
          | (this, inl frame') =>
              {| scanner := this;
                 inflight := without call (inflight w) ++ [(call, frame')];
                 settled := settled w; calls := calls w |}
          | (this, inr s) =>
              {| scanner := this; inflight := without call (inflight w);
                 settled := settled w ++ [(call, s)]; calls := calls w |}
          end
      end
  end.

Definition run (events : list Event) : World := fold_left step events start.

(** *** findImageFiles

    What [readdir(dir, { withFileTypes: true })] finds: the entries with
    their kinds and, for a directory, what its own listing gives in turn,
    entries or an error. *)

Definition SUPPORTED_FORMATS : list string :=
  [ ".jpg"; ".jpeg"; ".png"; ".gif"; ".bmp"; ".webp"; ".tiff"; ".tif";
    ".cr2"; ".nef"; ".arw"; ".dng"; ".raf"; ".orf"; ".rw2"; ".pef";
    ".heic"; ".heif"; ".avif" ].

Definition RAW_FORMATS : list string :=
  [ ".cr2"; ".nef"; ".arw"; ".dng"; ".raf"; ".orf"; ".rw2"; ".pef" ].

Inductive Dirent :=
  | IsFile (name : string)
  | IsDirectory (name : string) (entries : list Dirent)
  | Unreadable (name : string) (message : string)
      (* a directory whose readdir fails *)
  | Other (name : string).
      (* neither a file nor a directory *)

(** One turn of the loop over [entries] in [scanRecursive(dir)], on the
    array [files] and the console. *)
Fixpoint scanEntry (dir : string) (acc : list string * list string) (entry : Dirent)
    : list string * list string :=
  match entry with
  | IsFile name =>
      let fullPath := Path.join dir name in
      let ext := Js.toLowerCase (Path.extname name) in
      if bool_decide (ext ∈ SUPPORTED_FORMATS)
      then (acc.1 ++ [fullPath], acc.2) else acc
  | IsDirectory name entries =>
      let fullPath := Path.join dir name in
      if negb (Js.startsWith name ".")
         && negb (bool_decide
                    (Js.toLowerCase name ∈ ["node_modules"; "thumbs"; "_thumbnails"]))
      then fold_left (scanEntry fullPath) entries acc
      else acc
  | Unreadable name message =>
      let fullPath := Path.join dir name in
      if negb (Js.startsWith name ".")
         && negb (bool_decide
                    (Js.toLowerCase name ∈ ["node_modules"; "thumbs"; "_thumbnails"]))
      then (acc.1,
            acc.2 ++ ["Error scanning directory " +:+ fullPath +:+ ": " +:+ message])
      else acc
  | Other name => acc
  end.

(** [scanRecursive(dir)], [listing] being what [readdir(dir)] gives. *)
Definition scanRecursive (dir : string) (listing : list Dirent + string)
    (acc : list string * list string) : list string * list string :=
  match listing with
  | inl entries => fold_left (scanEntry dir) entries acc
  | inr message =>
      (acc.1, acc.2 ++ ["Error scanning directory " +:+ dir +:+ ": " +:+ message])
  end.

(** [findImageFiles(directoryPath)]: the files, and the console. *)
Definition findImageFiles (directoryPath : string) (listing : list Dirent + string)
    : list string * list string :=
  scanRecursive directoryPath listing ([], []).

End Scanner.

(** ** backend/src/index.js: the trash handlers

    The handlers run in a monad of state and exceptions. The state holds
    the file system, the module variable [currentScanDirectory], the
    clock, the console, and the variables that a [try] block assigns and
    the code after its [catch] still reads. *)

Module Backend.

Record Metadata := {
  id : string;
  originalPath : string;
  filename : string;
  size : Z;
  deletedAt : Z;
  tempPath : option string;
  trashDir : option string
}.

(** A request record of [move-to-trash]; [None] is a missing property,
    and [photoJson] is the text [JSON.stringify(photo, null, 2)] gives
    for the record. *)
Record Photo := {
  photoId : string;
  photoPath : option string;
  photoFilename : option string;
  photoSize : Z;
  photoJson : string
}.

(** What a file holds: a metadata sidecar, or anything else. *)
Inductive Content := Json (metadata : Metadata) | Data.

(** The files by absolute path, the directories, and the paths on which
    the system refuses to write, rename or unlink, for a reason the
    calls below do not follow themselves: permissions, a volume that is
    read-only, something of the wrong kind in the way. *)
Record Fs := {
  files : gmap string Content;
  dirs : gset string;
  locked : gset string
}.

Record State := {
  fs : Fs;
  currentScanDirectory : option string;
  cwd : string;
  clock : nat -> Z;
  ticks : nat;
  console : list string;
  allFiles : list Metadata;
  deletedFiles : list Metadata;
  deletedCount : nat
}.

Inductive Completion (A : Type) :=
  | Normal (a : A)
  | Throw (error : string).
Arguments Normal {A} a.
Arguments Throw {A} error.

Definition M (A : Type) : Type := State -> State * Completion A.

#[global] Instance M_ret : MRet M := fun A a st => (st, Normal a).

#[global] Instance M_bind : MBind M := fun A B f m st =>
  match m st with
  | (st', Normal a) => f a st'
  | (st', Throw e) => (st', Throw e)
  end.

Definition throw {A} (e : string) : M A := fun st => (st, Throw e).

(** [try { body } catch (error) { handler error }]. *)
Definition tryCatch {A} (body : M A) (handler : string -> M A) : M A := fun st =>
  match body st with
  | (st', Normal a) => (st', Normal a)
  | (st', Throw e) => handler e st'
  end.

(** [for (const x of l) { body x }]. *)
Fixpoint forOf {A} (l : list A) (body : A -> M unit) : M unit :=
  match l with
  | [] => mret tt
  | x :: l' => body x ;; forOf l' body
  end.

Definition getState : M State := fun st => (st, Normal st).

Definition setFs (f : Fs) : M unit := fun st =>
  ({| fs := f; currentScanDirectory := currentScanDirectory st; cwd := cwd st;
      clock := clock st; ticks := ticks st; console := console st;
      allFiles := allFiles st; deletedFiles := deletedFiles st;
      deletedCount := deletedCount st |}, Normal tt).

(** [console.log], [console.warn] and [console.error]. *)
Definition consoleLine (line : string) : M unit := fun st =>
  ({| fs := fs st; currentScanDirectory := currentScanDirectory st; cwd := cwd st;
      clock := clock st; ticks := ticks st; console := console st ++ [line];
      allFiles := allFiles st; deletedFiles := deletedFiles st;
      deletedCount := deletedCount st |}, Normal tt).

(** [Date.now()]: the next reading of the clock. *)
Definition dateNow : M Z := fun st =>
  ({| fs := fs st; currentScanDirectory := currentScanDirectory st; cwd := cwd st;
      clock := clock st; ticks := S (ticks st); console := console st;
      allFiles := allFiles st; deletedFiles := deletedFiles st;
      deletedCount := deletedCount st |}, Normal (clock st (ticks st))).

Definition setAllFiles (l : list Metadata) : M unit := fun st =>
  ({| fs := fs st; currentScanDirectory := currentScanDirectory st; cwd := cwd st;
      clock := clock st; ticks := ticks st; console := console st;
      allFiles := l; deletedFiles := deletedFiles st;
      deletedCount := deletedCount st |}, Normal tt).

Definition setDeletedFiles (l : list Metadata) : M unit := fun st =>
  ({| fs := fs st; currentScanDirectory := currentScanDirectory st; cwd := cwd st;
      clock := clock st; ticks := ticks st; console := console st;
      allFiles := allFiles st; deletedFiles := l;
      deletedCount := deletedCount st |}, Normal tt).

Definition setDeletedCount (n : nat) : M unit := fun st =>
  ({| fs := fs st; currentScanDirectory := currentScanDirectory st; cwd := cwd st;
      clock := clock st; ticks := ticks st; console := console st;
      allFiles := allFiles st; deletedFiles := deletedFiles st;
      deletedCount := n |}, Normal tt).

(** *** The calls of [fs/promises] *)

Definition exists_ (f : Fs) (p : string) : bool :=
  bool_decide (is_Some (files f !! p)) || bool_decide (p ∈ dirs f).

Definition access (p : string) : M unit :=
  st ← getState;
  if exists_ (fs st) p then mret tt else throw ("ENOENT: " +:+ p).

Definition mkdir (p : string) : M unit :=
  st ← getState;
  let f := fs st in
  if bool_decide (p ∈ locked f) then throw ("EACCES: " +:+ p)
  else setFs {| files := files f; dirs := {[p]} ∪ dirs f; locked := locked f |}.

(** The name of [p] when [p] lies directly in [dir]. *)
Definition entryName (dir p : string) : option string :=
  let pre := dir +:+ "/" in
  if String.prefix pre p then
    let name := String.substring (String.length pre)
                  (String.length p - String.length pre) p in
    if String.eqb (Path.basename name) name && negb (String.eqb name "")
    then Some name else None
  else None.

Definition readdir (dir : string) : M (list string) :=
  st ← getState;
  let f := fs st in
  if bool_decide (dir ∈ dirs f)
  then mret (omap (entryName dir) (map fst (map_to_list (files f))))
  else throw ("ENOENT: " +:+ dir).

Definition readFile (p : string) : M Content :=
  st ← getState;
  match files (fs st) !! p with
  | Some c => mret c
  | None => throw ("ENOENT: " +:+ p)
  end.

Definition writeFile (p : string) (c : Content) : M unit :=
  st ← getState;
  let f := fs st in
  if bool_decide (p ∈ locked f) then throw ("EACCES: " +:+ p)
  else setFs {| files := <[p := c]> (files f); dirs := dirs f; locked := locked f |}.

(** The directory in which the system looks up the last portion of [p]:
    what stands before the last separator of [p]. *)
Definition parentOf (p : string) : string :=
  String.substring 0 (String.length p - String.length (Path.basename p) - 1) p.

(** [p] lies below the directory [d]. *)
Definition liesBelow (d p : string) : bool := String.prefix (d +:+ "/") p.

(** [p] after the directory [src] has become [dst]: a path at or below
    [src] starts with [dst] instead. *)
Definition rebase (src dst p : string) : string :=
  if String.eqb p src || liesBelow src p
  then dst +:+ String.substring (String.length src)
                 (String.length p - String.length src) p
  else p.

(** Something lies below the directory [d]. *)
Definition occupied (f : Fs) (d : string) : bool :=
  existsb (liesBelow d) (map fst (map_to_list (files f)) ++ elements (dirs f)).

(** [fs.rename(src, dst)]. The source must be there, and the directory
    of the destination. A file takes the place of the file at the
    destination, if there is one; a directory moves with all that lies
    below it, to a path that is free or an empty directory and not below
    itself. The directory that held the source stays. *)
Definition rename (src dst : string) : M unit :=
  st ← getState;
  let f := fs st in
  if negb (exists_ f src) then throw ("ENOENT: " +:+ src)
  else if bool_decide (src ∈ locked f) || bool_decide (dst ∈ locked f)
  then throw ("EACCES: " +:+ src)
  else if negb (bool_decide (parentOf dst ∈ dirs f)) then throw ("ENOENT: " +:+ dst)
  else
    match files f !! src with
    | Some c =>
        setFs {| files := <[dst := c]> (delete src (files f));
                 dirs := {[parentOf src]} ∪ dirs f; locked := locked f |}
    | None =>
        if String.eqb src dst then mret tt
        else if bool_decide (is_Some (files f !! dst))
        then throw ("ENOTDIR: " +:+ dst)
        else if liesBelow src dst then throw ("EINVAL: " +:+ dst)
        else if occupied f dst then throw ("ENOTEMPTY: " +:+ dst)
        else
          setFs {| files :=
                     list_to_map
                       (map (fun pc => (rebase src dst pc.1, pc.2))
                          (map_to_list (files f)));
                   dirs := {[parentOf src]} ∪ set_map (rebase src dst) (dirs f);
                   locked := locked f |}
    end.

Definition unlink (p : string) : M unit :=
  st ← getState;
  let f := fs st in
  match files f !! p with
  | None => throw ("ENOENT: " +:+ p)
  | Some _ =>
      if bool_decide (p ∈ locked f) then throw ("EPERM: " +:+ p)
      else setFs {| files := delete p (files f); dirs := dirs f; locked := locked f |}
  end.

(** [JSON.parse] of what a file holds. *)
Definition JSON_parse (c : Content) : M Metadata :=
  match c with
  | Json metadata => mret metadata
  | Data => throw "SyntaxError"
  end.

(** [join(a, b)] of Node, which throws when [a] is not a string. *)
Definition join (a : option string) (b : string) : M string :=
  match a with
  | Some a => mret (Path.join a b)
  | None => throw "TypeError [ERR_INVALID_ARG_TYPE]"
  end.

(** A string in a condition: [undefined] and the empty string are false. *)
Definition truthy (o : option string) : option string :=
  match o with
  | Some s => if String.eqb s "" then None else Some s
  | None => None
  end.

(** *** [filename.replace(/\s*\([^)]*\)/g, "")] *)

(** The length of what [[^)]*\)] matches at the start of [s]. *)
Fixpoint closingLength (s : string) : option nat :=
  match s with
  | EmptyString => None
  | String c r =>
      if Ascii.eqb c ")" then Some 1%nat else S <$> closingLength r
  end.

(** The length of what the whole pattern matches at the start of [s]. *)
Fixpoint matchLength (s : string) : option nat :=
  match s with
  | EmptyString => None
  | String c r =>
      if Ascii.eqb c "(" then S <$> closingLength r
      else if Js.isStrWhiteSpaceChar c then S <$> matchLength r
      else None
  end.

(** The replacement, [skip] characters of a match still to drop. *)
Fixpoint replaceParenthesized (s : string) (skip : nat) : string :=
  match s with
  | EmptyString => ""
  | String c r =>
      match skip with
      | S k => replaceParenthesized r k
      | O =>
          match matchLength s with
          | Some (S n) => replaceParenthesized r n
          | _ => String c (replaceParenthesized r 0)
          end
      end
  end.

(** *** The helpers and the handlers *)

Definition getTrashDirectory : M string :=
  st ← getState;
  trashDir ← join (currentScanDirectory st) ".trash";
  tryCatch (access trashDir) (fun _ => mkdir trashDir) ;;
  mret trashDir.

Definition withTrashDir (m : Metadata) (d : string) : Metadata :=
  {| id := id m; originalPath := originalPath m; filename := filename m;
     size := size m; deletedAt := deletedAt m; tempPath := tempPath m;
     trashDir := Some d |}.

Definition getAllTrashFiles : M (list Metadata) :=
  setAllFiles [] ;;
  tryCatch
    (trashDir ← getTrashDirectory;
     names ← readdir trashDir;
     forOf names (fun file =>
       if Path.endsWith file ".metadata.json" then
         let metadataPath := Path.join trashDir file in
         text ← readFile metadataPath;
         metadata ← JSON_parse text;
         st ← getState;
         setAllFiles (allFiles st ++ [withTrashDir metadata trashDir])
       else mret tt))
    (fun error => consoleLine ("Could not read trash directory: " +:+ error)) ;;
  st ← getState;
  mret (allFiles st).

Inductive Response :=
  | MovedToTrash (deletedFiles : list Metadata) (message : string)
  | TrashEmptied (deletedCount : nat) (message : string)
  | Status (code : nat) (error : string).

(** The body of the loop of [move-to-trash], with its [try] and [catch]. *)
Definition moveOne (photo : Photo) : M unit :=
  tryCatch
    (match truthy (photoPath photo) with
     | None => consoleLine ("No path provided for photo " +:+ photoId photo)
     | Some path =>
         st ← getState;
         let absolutePath :=
           if Path.startsWith path "/" then path else Path.join (cwd st) path in
         found ← tryCatch (access absolutePath ;; mret true)
                   (fun _ => consoleLine ("File not found: " +:+ absolutePath) ;;
                             mret false);
         if negb found then mret tt
         else
           trashDir ← getTrashDirectory;
           timestamp ← dateNow;
           originalFilename ←
             match photoFilename photo with
             | Some name => mret (replaceParenthesized name 0)
             | None => throw "TypeError"
             end;
           let trashFilename := pretty timestamp +:+ "_" +:+ originalFilename in
           let trashPath := Path.join trashDir trashFilename in
           consoleLine ("Moving " +:+ absolutePath +:+ " to " +:+ trashPath) ;;
           rename absolutePath trashPath ;;
           now ← dateNow;
           let metadata :=
             {| id := photoId photo; originalPath := absolutePath;
                filename := originalFilename; size := photoSize photo;
                deletedAt := now; tempPath := Some trashPath;
                trashDir := None |} in
           st ← getState;
           setDeletedFiles (deletedFiles st ++ [metadata]) ;;
           let metadataPath :=
             Path.join trashDir (trashFilename +:+ ".metadata.json") in
           writeFile metadataPath (Json metadata)
     end)
    (fun error =>
       consoleLine ("Failed to move "
                    +:+ default "undefined" (photoFilename photo)
                    +:+ " to trash: " +:+ error) ;;
       consoleLine ("Photo data: " +:+ photoJson photo)).

(** [app.post("/api/photos/move-to-trash")], on the array [photos]. *)
Definition moveToTrash (photos : list Photo) : M Response :=
  tryCatch
    (setDeletedFiles [] ;;
     forOf photos moveOne ;;
     st ← getState;
     mret (MovedToTrash (deletedFiles st)
             ("Moved " +:+ pretty (length (deletedFiles st)) +:+ " files to trash")))
    (fun error =>
       consoleLine ("Error moving files to trash: " +:+ error) ;;
       mret (Status 500 error)).

(** The body of the loop of [empty-trash], with its [try] and [catch]. *)
Definition emptyOne (metadata : Metadata) : M unit :=
  tryCatch
    (match truthy (tempPath metadata) with
     | Some p =>
         unlink p ;;
         st ← getState;
         setDeletedCount (S (deletedCount st))
     | None => mret tt
     end ;;
     let metadataFilename :=
       match truthy (tempPath metadata) with
       | Some p => Path.basename p +:+ ".metadata.json"
       | None => id metadata +:+ ".metadata.json"
       end in
     metadataPath ← join (trashDir metadata) metadataFilename;
     unlink metadataPath)
    (fun error =>
       consoleLine ("Failed to delete " +:+ filename metadata +:+ ": " +:+ error)).

(** [app.delete("/api/photos/empty-trash")]. *)
Definition emptyTrash : M Response :=
  tryCatch
    (trashFiles ← getAllTrashFiles;
     setDeletedCount 0 ;;
     forOf trashFiles emptyOne ;;
     st ← getState;
     mret (TrashEmptied (deletedCount st)
             ("Permanently deleted " +:+ pretty (deletedCount st) +:+ " files")))
    (fun error =>
       consoleLine ("Error emptying trash: " +:+ error) ;;
       mret (Status 500 error)).

(** *** Restoring, and the status of the trash *)

(** [for (const x of l) { ... }] around a local array that the body may
    push to as its last step. *)
Fixpoint forOfPush {A B} (l : list A) (body : list B -> A -> M (list B))
    (array : list B) : M (list B) :=
  match l with
  | [] => mret array
  | x :: l' => array' ← body array x; forOfPush l' body array'
  end.

Inductive Answer :=
  | RestoredFromTrash (restoredFiles : list Metadata) (message : string)
  | TrashStatus (fileCount : nat) (totalSize : Z) (deletedFiles : list Metadata)
  | Failure (code : nat) (error : string).

(** The body of the loop of [restore-from-trash]. *)
Definition restoreOne (trashFiles : list Metadata) (restoredFiles : list Metadata)
    (fileId : string) : M (list Metadata) :=
  match List.find (fun m => String.eqb (id m) fileId) trashFiles with
  | Some metadata =>
      tryCatch
        (source ←
           match tempPath metadata with
           | Some p => mret p
           | None => throw "TypeError [ERR_INVALID_ARG_TYPE]"
           end;
         rename source (originalPath metadata) ;;
         let metadataFilename :=
           match truthy (tempPath metadata) with
           | Some p => Path.basename p +:+ ".metadata.json"
           | None => id metadata +:+ ".metadata.json"
           end in
         metadataPath ← join (trashDir metadata) metadataFilename;
         unlink metadataPath ;;
         mret (restoredFiles ++ [metadata]))
        (fun error =>
           consoleLine ("Failed to restore file " +:+ fileId +:+ ": " +:+ error) ;;
           mret restoredFiles)
  | None => mret restoredFiles
  end.

(** [app.post("/api/photos/restore-from-trash")], on the array [fileIds]. *)
Definition restoreFromTrash (fileIds : list string) : M Answer :=
  tryCatch
    (trashFiles ← getAllTrashFiles;
     restoredFiles ← forOfPush fileIds (restoreOne trashFiles) [];
     mret (RestoredFromTrash restoredFiles
             ("Restored " +:+ pretty (length restoredFiles) +:+ " files")))
    (fun error =>
       consoleLine ("Error restoring files: " +:+ error) ;;
       mret (Failure 500 error)).

(** [app.get("/api/photos/trash-status")]. *)
Definition trashStatus : M Answer :=
  tryCatch
    (deletedFiles ← getAllTrashFiles;
     let totalSize := fold_left (fun sum file => (sum + size file)%Z) deletedFiles 0%Z in
     mret (TrashStatus (length deletedFiles) totalSize deletedFiles))
    (fun error =>
       consoleLine ("Error getting trash status: " +:+ error) ;;
       mret (Failure 500 error)).

End Backend.

(* ===================================================================== *)
(** * Part II: the notions of the design document                         *)
(* ===================================================================== *)

Module Spec.

(** ** Fingerprints as 64-bit values *)

Definition chars (s : string) : list ascii := list_ascii_of_string s.

(** The value of a hexadecimal digit, in either case. *)
Definition hexDigit (c : ascii) : option N :=
  match Js.digitValue c with
  | Some d => if (d <? 16)%N then Some d else None
  | None => None
  end.

Definition isHexDigit (c : ascii) : bool :=
  match hexDigit c with Some _ => true | None => false end.

(** The digits [binaryToHex] writes: [0-9] and [a-f]. *)
Definition isLowerHexDigit (c : ascii) : bool :=
  let n := Js.code c in
  ((48 <=? n)%N && (n <=? 57)%N) || ((97 <=? n)%N && (n <=? 102)%N).

(** Sixteen hexadecimal characters. *)
Definition isFingerprint (h : string) : bool :=
  (String.length h =? 16)%nat && forallb isHexDigit (chars h).

Definition isCanonical (h : string) : bool := forallb isLowerHexDigit (chars h).

(** The number a hexadecimal string denotes. *)
Definition fingerprintValue (h : string) : N :=
  fold_left (fun v c => (v * 16 + default 0 (hexDigit c))%N) (chars h) 0%N.

(** Bit [k] of a fingerprint, bit 0 being the first one emitted (the most
    significant of the 64). *)
Definition fingerprintBit (h : string) (k : nat) : bool :=
  N.testbit (fingerprintValue h) (N.of_nat (63 - k)).

Fixpoint popcountPos (p : positive) : nat :=
  match p with
  | xH => 1
  | xO p' => popcountPos p'
  | xI p' => S (popcountPos p')
  end.

Definition popcount (n : N) : nat :=
  match n with N0 => 0 | Npos p => popcountPos p end.

(** The Hamming distance of two values: the number of bits that differ. *)
Definition hamming (a b : N) : nat := popcount (N.lxor a b).

(** Bit strings, as [hexToBinary] writes them and as [binaryToHex] reads
    them. *)
Definition bitChar (b : bool) : ascii := if b then "1"%char else "0"%char.

Fixpoint bitString (bs : list bool) : string :=
  match bs with
  | [] => ""
  | b :: r => String (bitChar b) (bitString r)
  end.

(** The four bits of a hexadecimal digit, the most significant first. *)
Definition bitsOfDigit (d : N) : list bool :=
  [N.testbit d 3; N.testbit d 2; N.testbit d 1; N.testbit d 0].

Definition hexBits (h : string) : list bool :=
  flat_map (fun c => bitsOfDigit (default 0%N (hexDigit c))) (chars h).

(** The number a list of bits denotes, the most significant first, after
    the bits of [a]. *)
Definition bitsValueFrom (a : N) (bs : list bool) : N :=
  fold_left (fun v b => (2 * v + N.b2n b)%N) bs a.

(** The positions at which two lists of bits differ. *)
Fixpoint mismatches (bs1 bs2 : list bool) : nat :=
  match bs1, bs2 with
  | b1 :: r1, b2 :: r2 => ((if xorb b1 b2 then 1 else 0) + mismatches r1 r2)%nat
  | _, _ => 0%nat
  end.

(** One hexadecimal digit for every four bits. *)
Fixpoint hexOfBits (bs : list bool) : string :=
  match bs with
  | b3 :: b2 :: b1 :: b0 :: r =>
      String (Js.digitChar (bitsValueFrom 0 [b3; b2; b1; b0])) (hexOfBits r)
  | _ => ""
  end.

(** The percentage the design document gives for a distance [d]. *)
Definition similarityOf (d : nat) : Q := 100 * (64 - inject_Z (Z.of_nat d)) / 64.

(** ** Doubles as exact numbers *)

(** A double that is +0 or positive, below 2^[k], with an exponent
    between the least one and [cap]. *)
Definition below (k cap : Z) (x : Number.number) : Prop :=
  match x with
  | S754_zero false => True
  | S754_finite false m e =>
      (-1074 <= e <= cap)%Z /\ (Zpos (digits2_pos m) + e <= k)%Z
  | _ => False
  end.

(** The value of a double, as a multiple of 2^-1074. *)
Definition scaled (x : Number.number) : Z :=
  match x with
  | S754_finite s m e => cond_Zopp s (Zpos m * 2 ^ (e + 1074))%Z
  | _ => 0%Z
  end.

(** A thousand times the luminance of a sample: an integer. *)
Definition luminance1000 (rgb : byte * byte * byte) : Z :=
  let '(r, g, b) := rgb in
  (299 * Z.of_N (Byte.to_N r) + 587 * Z.of_N (Byte.to_N g)
   + 114 * Z.of_N (Byte.to_N b))%Z.

(** The luminance of the sample lies exactly halfway between two
    integers. *)
Definition halfway (rgb : byte * byte * byte) : bool :=
  (luminance1000 rgb mod 1000 =? 500)%Z.

(** ** The dHash of a 9 by 8 grid *)

(** The sample at [row] and [col] of the grid held in [pixels]. *)
Definition sampleAt (pixels : list byte) (row col : nat) : option (byte * byte * byte) :=
  let i := (4 * (9 * row + col))%nat in
  match pixels !! i, pixels !! (i + 1)%nat, pixels !! (i + 2)%nat with
  | Some r, Some g, Some b => Some (r, g, b)
  | _, _, _ => None
  end.

(** Y = 0.299 R + 0.587 G + 0.114 B, as the design document writes it: a
    rational number. *)
Definition luminance (rgb : byte * byte * byte) : Q :=
  let '(r, g, b) := rgb in
  (299 # 1000) * inject_Z (Z.of_N (Byte.to_N r))
  + (587 # 1000) * inject_Z (Z.of_N (Byte.to_N g))
  + (114 # 1000) * inject_Z (Z.of_N (Byte.to_N b)).

(** The luminance rounded to the nearest integer, a half upwards. *)
Definition roundedLuminance (rgb : byte * byte * byte) : Z :=
  Qfloor (luminance rgb + (1 # 2)).

(** A gray sample: the three channels are equal. *)
Definition isGray (rgb : byte * byte * byte) : bool :=
  let '(r, g, b) := rgb in Byte.eqb r g && Byte.eqb g b.

(** Whether the sample to the right is the brighter one, on the list of
    luminances row by row, nine to a row. *)
Definition rightIsBrighter (grayPixels : list Number.number) (row col : nat) : bool :=
  Number.ltb (DuplicateDetection.grayPixel grayPixels (row * 9 + col))
             (DuplicateDetection.grayPixel grayPixels (row * 9 + col + 1)).

(** The 64 comparisons, row by row. *)
Definition dHashBools (grayPixels : list Number.number) : list bool :=
  flat_map (fun row => map (rightIsBrighter grayPixels row) (seq 0 8)) (seq 0 8).

(** ** Greedy clustering around a seed

    The entries are visited in order. An entry that is not yet assigned is
    a seed: the later entries that are not yet assigned and whose
    similarity to the seed reaches the threshold join it. A seed with
    company is a group, numbered in sequence; a lone seed is none. *)

Definition meets (threshold : Q) (seed candidate : DuplicateDetection.ImageHash) : bool :=
  Qle_bool threshold
    (DuplicateDetection.calculateSimilarity
       (DuplicateDetection.hash seed) (DuplicateDetection.hash candidate)).

Definition joins (threshold : Q) (seed : DuplicateDetection.ImageHash)
    (assigned : list string) (e : string * DuplicateDetection.ImageHash) : bool :=
  bool_decide (e.1 ∉ assigned) && meets threshold seed e.2.

Fixpoint cluster (threshold : Q) (entries : DuplicateDetection.Map)
    (assigned : list string) (emitted : nat) : list DuplicateDetection.DuplicateGroup :=
  match entries with
  | [] => []
  | (seed, h) :: later =>
      if bool_decide (seed ∈ assigned) then cluster threshold later assigned emitted
      else
        match filter (fun e => joins threshold h assigned e = true) later with
        | [] => cluster threshold later assigned emitted
        | joiners =>
            {| DuplicateDetection.id := "dup_group_" +:+ pretty (S emitted);
               DuplicateDetection.photos := seed :: map fst joiners;
               DuplicateDetection.similarity := threshold |}
            :: cluster threshold later (assigned ++ map fst joiners) (S emitted)
        end
  end.

(** A group as the seed policy forms it: a seed first, then at least one
    member, each member reaching the threshold against the seed. *)
Definition seeded (imageHashes : DuplicateDetection.Map) (threshold : Q)
    (g : DuplicateDetection.DuplicateGroup) : Prop :=
  exists seed hs members,
    DuplicateDetection.photos g = seed :: members
    /\ members <> []
    /\ DuplicateDetection.get imageHashes seed = Some hs
    /\ Forall (fun y => exists hy, DuplicateDetection.get imageHashes y = Some hy
                                   /\ meets threshold hs hy = true) members.

(** ** The trash *)

(** The absolute path [move-to-trash] resolves for a record. *)
Definition absolutePathOf (st : Backend.State) (photo : Backend.Photo) : option string :=
  match Backend.truthy (Backend.photoPath photo) with
  | Some path =>
      Some (if Path.startsWith path "/" then path
            else Path.join (Backend.cwd st) path)
  | None => None
  end.

(** The trash directory of [base], and the name a file of [name] gets
    there when it is moved in the state [st]. *)
Definition trashOf (base : string) : string := Path.join base ".trash".

Definition trashFilenameOf (st : Backend.State) (name : string) : string :=
  pretty (Backend.clock st (Backend.ticks st))
  +:+ "_" +:+ Backend.replaceParenthesized name 0.

(** The record cannot be moved. It names no path, or nothing is at its
    path; or there is no scanned directory to hold a trash, or the record
    has no file name to make the name in the trash from; or the rename
    fails: the system refuses it for the source or for the destination,
    or the file name makes a destination in a directory that is not
    there. *)
Definition cannotMove (st : Backend.State) (photo : Backend.Photo) : Prop :=
  match absolutePathOf st photo with
  | None => True
  | Some p =>
      Backend.exists_ (Backend.fs st) p = false
      \/ Backend.currentScanDirectory st = None
      \/ Backend.photoFilename photo = None
      \/ p ∈ Backend.locked (Backend.fs st)
      \/ exists base name,
           Backend.currentScanDirectory st = Some base
           /\ Backend.photoFilename photo = Some name
           /\ let trashPath := Path.join (trashOf base) (trashFilenameOf st name) in
              trashPath ∈ Backend.locked (Backend.fs st)
              \/ (Backend.parentOf trashPath <> trashOf base
                  /\ Backend.parentOf trashPath ∉ Backend.dirs (Backend.fs st))
  end.

(** The backing file of a trash entry is there and can be deleted. *)
Definition backed (f : Backend.Fs) (m : Backend.Metadata) : bool :=
  match Backend.truthy (Backend.tempPath m) with
  | Some p =>
      bool_decide (is_Some (Backend.files f !! p))
      && negb (bool_decide (p ∈ Backend.locked f))
  | None => false
  end.

(** The path of the sidecar [empty-trash] deletes for an entry. *)
Definition sidecarOf (m : Backend.Metadata) : option string :=
  match Backend.trashDir m with
  | Some d =>
      Some (Path.join d
              (match Backend.truthy (Backend.tempPath m) with
               | Some p => Path.basename p +:+ ".metadata.json"
               | None => Backend.id m +:+ ".metadata.json"
               end))
  | None => None
  end.

(** The paths an entry can make [empty-trash] delete. *)
Definition entryPaths (m : Backend.Metadata) : list string :=
  option_list (Backend.truthy (Backend.tempPath m)) ++ option_list (sidecarOf m).

(** ** Exclusive scans *)

(** No scan in flight and the flag down, or one scan in flight and the
    flag up. *)
Definition idleOrScanning (w : Scanner.World) : Prop :=
  (Scanner.inflight w = [] /\ Scanner.isScanning (Scanner.scanner w) = false)
  \/ (exists call frame,
        Scanner.inflight w = [(call, frame)]
        /\ Scanner.isScanning (Scanner.scanner w) = true).

(** ** Flat images *)

(** The colour of the pixel at [x] and [y] of an image [width] wide. *)
Definition pixelAt (data : list byte) (width x y : Z) : option (byte * byte * byte) :=
  let i := Z.to_nat ((y * width + x) * 4) in
  match data !! i, data !! (i + 1)%nat, data !! (i + 2)%nat with
  | Some r, Some g, Some b => Some (r, g, b)
  | _, _, _ => None
  end.

(** A flat image: every pixel of the [width] by [height] image has the
    same luminance [l]. *)
Definition flat (data : list byte) (width height : Z) (l : Q) : Prop :=
  forall x y : Z,
    (0 <= x < width)%Z -> (0 <= y < height)%Z ->
    exists rgb, pixelAt data width x y = Some rgb /\ (luminance rgb == l)%Q.

(** The same, as a check that runs over the pixels. *)
Definition isFlat (data : list byte) (width height : nat) (l : Q) : bool :=
  forallb
    (fun y =>
       forallb
         (fun x =>
            match pixelAt data (Z.of_nat width) (Z.of_nat x) (Z.of_nat y) with
            | Some rgb => Qeq_bool (luminance rgb) l
            | None => false
            end)
         (seq 0 width))
    (seq 0 height).

(** An image of one colour: every pixel has the colour [rgb]. *)
Definition uniform (data : list byte) (width height : Z) (rgb : byte * byte * byte)
    : Prop :=
  forall x y : Z,
    (0 <= x < width)%Z -> (0 <= y < height)%Z -> pixelAt data width x y = Some rgb.

Definition isUniform (data : list byte) (width height : nat) (rgb : byte * byte * byte)
    : bool :=
  forallb
    (fun y =>
       forallb
         (fun x =>
            match pixelAt data (Z.of_nat width) (Z.of_nat x) (Z.of_nat y) with
            | Some (r, g, b) =>
                Byte.eqb r rgb.1.1 && Byte.eqb g rgb.1.2 && Byte.eqb b rgb.2
            | None => false
            end)
         (seq 0 width))
    (seq 0 height).

(** Every pixel has the gray value [g] in binary64, the number the scorer
    computes for it. *)
Definition sameGray (data : list byte) (width height : Z) (g : Number.number) : Prop :=
  forall x y : Z,
    (0 <= x < width)%Z -> (0 <= y < height)%Z ->
    QualityAnalysis.grayOf data ((y * width + x) * 4) = g.

Definition sameNumber (a b : Number.number) : bool :=
  match a, b with
  | S754_zero s, S754_zero s' => Bool.eqb s s'
  | S754_infinity s, S754_infinity s' => Bool.eqb s s'
  | S754_nan, S754_nan => true
  | S754_finite s m e, S754_finite s' m' e' =>
      Bool.eqb s s' && (m =? m')%positive && (e =? e')%Z
  | _, _ => false
  end.

Definition isSameGray (data : list byte) (width height : nat) (g : Number.number)
    : bool :=
  forallb
    (fun y =>
       forallb
         (fun x =>
            sameNumber
              (QualityAnalysis.grayOf data
                 ((Z.of_nat y * Z.of_nat width + Z.of_nat x) * 4))
              g)
         (seq 0 width))
    (seq 0 height).

(** ** Marker-delimited spans of a byte buffer *)

(** Whether [l] begins with the bytes of [marker]. *)
Fixpoint startsWith (marker l : list byte) : bool :=
  match marker, l with
  | [], _ => true
  | m :: marker', x :: l' => Byte.eqb x m && startsWith marker' l'
  | _ :: _, [] => false
  end.

(** The suffixes of a list, the longest first: one for every offset. *)
Fixpoint tails {A} (l : list A) : list (list A) :=
  l :: match l with
       | [] => []
       | _ :: l' => tails l'
       end.

(** From the start of [l] to the nearest end marker, that marker
    included; [None] when no end marker follows. *)
Fixpoint upToEnd (l : list byte) : option (list byte) :=
  if startsWith RawThumbnailExtractor.EOI l then Some RawThumbnailExtractor.EOI
  else
    match l with
    | [] => None
    | x :: l' => cons x <$> upToEnd l'
    end.

(** The span that starts where the suffix [t] starts: there must be a
    start marker there and an end marker after it. *)
Definition spanAt (t : list byte) : option (list byte) :=
  if startsWith RawThumbnailExtractor.SOI t
  then app RawThumbnailExtractor.SOI <$> upToEnd (drop 2 t)
  else None.

(** All spans of the buffer, by the offset of their start marker. *)
Definition markerSpans (data : list byte) : list (list byte) :=
  omap spanAt (tails data).

(** The preview candidates: the spans longer than 1 KiB. *)
Definition candidates (data : list byte) : list (list byte) :=
  filter (fun s => (1024 < length s)%nat) (markerSpans data).

(** ** Strings compared position by position *)

(** The number of positions at which two strings hold different
    characters, up to the end of the shorter one. *)
Fixpoint differing (s1 s2 : string) : nat :=
  match s1, s2 with
  | String c1 r1, String c2 r2 =>
      ((if Ascii.eqb c1 c2 then 0 else 1) + differing r1 r2)%nat
  | _, _ => 0%nat
  end.

(** ** Files in a directory tree *)

(** A directory the scan does not enter: hidden, or one of the three
    names, in any letter case. *)
Definition skipped (name : string) : bool :=
  Js.startsWith name "."
  || bool_decide (Js.toLowerCase name ∈ ["node_modules"; "thumbs"; "_thumbnails"]).

(** A file name with the extension of an image, in any letter case. *)
Definition supported (name : string) : bool :=
  bool_decide (Js.toLowerCase (Path.extname name) ∈ Scanner.SUPPORTED_FORMATS).

(** The file [name] lies in [entries] below the readable directories
    [chain], the outermost first. *)
Fixpoint liesIn (chain : list string) (name : string) (entries : list Scanner.Dirent)
    : Prop :=
  match chain with
  | [] => Scanner.IsFile name ∈ entries
  | d :: chain' =>
      exists sub, Scanner.IsDirectory d sub ∈ entries /\ liesIn chain' name sub
  end.

(** The images found at and below one entry of [dir]. *)
Fixpoint imagesOf (dir : string) (entry : Scanner.Dirent) : list string :=
  match entry with
  | Scanner.IsFile name => if supported name then [Path.join dir name] else []
  | Scanner.IsDirectory name entries =>
      if skipped name then []
      else flat_map (imagesOf (Path.join dir name)) entries
  | _ => []
  end.

(** ** One scan from its call to its end *)

(** The activation [frame] fed the [replies] one after the other, up to
    its settlement. *)
Fixpoint feed (this : Scanner.DirectoryScanner) (frame : Scanner.Frame)
    (replies : list Scanner.Reply)
    : Scanner.DirectoryScanner * (Scanner.Frame + Scanner.Settled) :=
  match replies with
  | [] => (this, inl frame)
  | reply :: rest =>
      match Scanner.resume this frame reply with
      | (this', inl frame') => feed this' frame' rest
      | (this', inr s) => (this', inr s)
      end
  end.

(** A call of [scanDirectory] and the replies to what it awaits. *)
Definition runScan (this : Scanner.DirectoryScanner) (directoryPath : string)
    (replies : list Scanner.Reply)
    : Scanner.DirectoryScanner * (Scanner.Frame + Scanner.Settled) :=
  match Scanner.scanDirectory this directoryPath with
  | (this', inl frame) => feed this' frame replies
  | (this', inr s) => (this', inr s)
  end.

(** The replies to the calls that set up the thumbnails directory, when
    it is there ([access] succeeds) or can be made ([access] fails and
    [mkdir] succeeds). *)
Definition directoryReady (setup : list Scanner.Reply) : Prop :=
  setup = [Scanner.Done]
  \/ exists message, setup = [Scanner.Failed message; Scanner.Done].

(** The events of one scan: the call, numbered [call], and the
    settlements of what it awaits, one after the other. *)
Definition scanOf (call : nat) (directoryPath : string) (replies : list Scanner.Reply)
    : list Scanner.Event :=
  Scanner.Call directoryPath :: map (Scanner.Settle call) replies.

(** The photo a reply of [processFile] brings. *)
Definition photoOf (reply : Scanner.Reply) : option Scanner.Photo :=
  match reply with
  | Scanner.Processed (Some photo) => Some photo
  | _ => None
  end.

(** ** Names in the trash *)

(** A name without a separator. *)
Definition plain (name : string) : bool :=
  forallb (fun c => negb (Ascii.eqb c "/")) (chars name).

(** No file is at the path of the trash directory of [base], nor at a
    path that goes on from it. *)
Definition trashIsEmpty (f : Backend.Fs) (base : string) : Prop :=
  forall q, String.prefix (Path.join base ".trash") q = true ->
            Backend.files f !! q = None.

(** The entry written for a file of [name] moved in the state [st]. *)
Definition movedEntry (st : Backend.State) (photo : Backend.Photo)
    (base a name : string) : Backend.Metadata :=
  {| Backend.id := Backend.photoId photo;
     Backend.originalPath := a;
     Backend.filename := Backend.replaceParenthesized name 0;
     Backend.size := Backend.photoSize photo;
     Backend.deletedAt := Backend.clock st (S (Backend.ticks st));
     Backend.tempPath := Some (Path.join (trashOf base) (trashFilenameOf st name));
     Backend.trashDir := None |}.

(** ** Sample inputs *)

(** The sidecar of a file moved to the trash of [/photos]. *)
Definition sidecar (name : string) : Backend.Metadata :=
  {| Backend.id := name; Backend.originalPath := "/photos/" +:+ name;
     Backend.filename := name; Backend.size := 1000; Backend.deletedAt := 1700000000000;
     Backend.tempPath := Some ("/photos/.trash/1700000000000_" +:+ name);
     Backend.trashDir := None |}.

(** A trash with three entries, file and sidecar, and a fourth sidecar
    whose file is gone; one photo outside the trash. *)
Definition trashOfFour : Backend.Fs :=
  {| Backend.files :=
       list_to_map
         [ ("/photos/.trash/1700000000000_a.jpg", Backend.Data);
           ("/photos/.trash/1700000000000_a.jpg.metadata.json", Backend.Json (sidecar "a.jpg"));
           ("/photos/.trash/1700000000000_b.jpg", Backend.Data);
           ("/photos/.trash/1700000000000_b.jpg.metadata.json", Backend.Json (sidecar "b.jpg"));
           ("/photos/.trash/1700000000000_c.jpg", Backend.Data);
           ("/photos/.trash/1700000000000_c.jpg.metadata.json", Backend.Json (sidecar "c.jpg"));
           ("/photos/.trash/1700000000000_d.jpg.metadata.json", Backend.Json (sidecar "d.jpg"));
           ("/photos/x.jpg", Backend.Data) ];
     Backend.dirs := {[ "/photos"; "/photos/.trash" ]};
     Backend.locked := ∅ |}.

Definition serverState (f : Backend.Fs) : Backend.State :=
  {| Backend.fs := f; Backend.currentScanDirectory := Some "/photos";
     Backend.cwd := "/srv/app";
     Backend.clock := fun n => (1700000000000 + Z.of_nat n)%Z; Backend.ticks := 0;
     Backend.console := []; Backend.allFiles := []; Backend.deletedFiles := [];
     Backend.deletedCount := 0 |}.

(** What listing that trash gives: the four entries, each with the
    directory it was read from. *)
Definition listedOfFour : list Backend.Metadata :=
  map (fun name => Backend.withTrashDir (sidecar name) "/photos/.trash")
    ["c.jpg"; "a.jpg"; "b.jpg"; "d.jpg"].

(** Two photos and no trash yet. *)
Definition twoPhotos : Backend.Fs :=
  {| Backend.files :=
       list_to_map [ ("/photos/x.jpg", Backend.Data); ("/photos/z.png", Backend.Data) ];
     Backend.dirs := {[ "/photos" ]};
     Backend.locked := ∅ |}.

(** Two photos and an empty trash, in which the system refuses to write
    the sidecar of the first photo. *)
Definition refusedSidecar : Backend.Fs :=
  {| Backend.files :=
       list_to_map [ ("/photos/x.jpg", Backend.Data); ("/photos/z.png", Backend.Data) ];
     Backend.dirs := {[ "/photos"; "/photos/.trash" ]};
     Backend.locked := {[ "/photos/.trash/1700000000000_x.jpg.metadata.json" ]} |}.

(** The request record with the properties [id], [filename], [path] and
    [size], in this order, the strings free of characters that JSON
    escapes, and its text indented by two spaces. *)
Definition photoRecord (id filename path : string) (size : Z) : Backend.Photo :=
  let quote := String (Ascii.ascii_of_nat 34) "" in
  let newline := String (Ascii.ascii_of_nat 10) "" in
  let property key value last :=
    "  " +:+ quote +:+ key +:+ quote +:+ ": " +:+ value
    +:+ (if last : bool then "" else ",") +:+ newline in
  {| Backend.photoId := id; Backend.photoPath := Some path;
     Backend.photoFilename := Some filename; Backend.photoSize := size;
     Backend.photoJson :=
       "{" +:+ newline
       +:+ property "id" (quote +:+ id +:+ quote) false
       +:+ property "filename" (quote +:+ filename +:+ quote) false
       +:+ property "path" (quote +:+ path +:+ quote) false
       +:+ property "size" (pretty size) true
       +:+ "}" |}.

(** A record of a photo that exists and one of a photo that does not. *)
Definition existingPhoto : Backend.Photo :=
  photoRecord "1" "x.jpg (RAW+JPEG)" "/photos/x.jpg" 1000.

Definition missingPhoto : Backend.Photo :=
  photoRecord "2" "y.jpg" "/photos/y.jpg" 1000.

(** A 12 by 12 image of one colour. *)
Definition oneColour : list byte := concat (repeat [x10; x20; x30; xff] 144).

(** A 12 by 12 image of two colours of one luminance, 18.539: the pixel
    at column 8 of row 4 has the second colour. *)
Definition twoColours : list byte :=
  concat (repeat [x00; x1f; x03; xff] 56)
  ++ [x01; x00; xa0; xff]
  ++ concat (repeat [x00; x1f; x03; xff] 87).

(** A 9 by 8 grid in which the colours (0, 80, 110), of luminance 59.5,
    and (60, 60, 60) alternate, every second row starting with the
    second colour. *)
Definition halfwayGrid : list byte :=
  let a := [x00; x50; x6e; xff] in
  let b := [x3c; x3c; x3c; xff] in
  let even := a ++ b ++ a ++ b ++ a ++ b ++ a ++ b ++ a in
  let odd := b ++ a ++ b ++ a ++ b ++ a ++ b ++ a ++ b in
  even ++ odd ++ even ++ odd ++ even ++ odd ++ even ++ odd.

(** A span of [n] bytes in all: the two markers around zero bytes. *)
Definition spanOf (n : nat) : list byte :=
  RawThumbnailExtractor.SOI ++ repeat x00 (n - 4) ++ RawThumbnailExtractor.EOI.

(** A container with a 4 KiB and a 40 KiB preview between other bytes. *)
Definition twoPreviews : list byte :=
  repeat x49 8 ++ spanOf 4096 ++ repeat x00 100 ++ spanOf 40960 ++ repeat x01 50.


Definition sampleHash (h : string) : DuplicateDetection.ImageHash :=
  {| DuplicateDetection.hash := h;
     DuplicateDetection.width := 640; DuplicateDetection.height := 480 |}.

(** Two pairs of identical photos, the pairs 16 bits (75 percent) apart. *)
Definition fourPhotos : DuplicateDetection.Map :=
  [ ("a", sampleHash "0000000000000000"); ("b", sampleHash "0000000000000000");
    ("c", sampleHash "ffff000000000000"); ("d", sampleHash "ffff000000000000") ].

(** A dHash next to a checksum of another length. *)
Definition mixedLengths : DuplicateDetection.Map :=
  [ ("a", sampleHash "0000000000000000"); ("b", sampleHash "12345678") ].

End Spec.

(** * Tactics *)

(** Running the handlers of the backend: [run_m] unfolds the calls and the
    monad, [proj] reads the fields of the states built on the way, and
    [cases] follows every branch. *)
Ltac run_m :=
  unfold Backend.moveOne, Backend.emptyOne, Backend.getTrashDirectory, Backend.tryCatch,
    Backend.access, Backend.mkdir, Backend.rename, Backend.unlink, Backend.writeFile,
    Backend.readFile, Backend.join, Backend.JSON_parse, Backend.dateNow,
    Backend.consoleLine, Backend.setDeletedFiles, Backend.setDeletedCount,
    Backend.setAllFiles, Backend.setFs, Backend.getState, Backend.throw, mbind,
    Backend.M_bind, mret, Backend.M_ret in *.

Ltac proj :=
  cbn [Backend.fs Backend.currentScanDirectory Backend.cwd Backend.clock Backend.ticks
       Backend.console Backend.allFiles Backend.deletedFiles Backend.deletedCount
       Backend.files Backend.dirs Backend.locked fst snd negb orb andb] in *.

Ltac cases := repeat (case_match; simplify_eq; proj).

(* ===================================================================== *)
(** * Part III: the properties                                            *)
(* ===================================================================== *)

(** ** Doubles: sums that do not overflow, and how far rounding goes *)

Section Doubles.

Import Number.
Local Open Scope Z_scope.

Lemma digits2_pos_size (p : positive) : digits2_pos p = Pos.size p.
Proof. induction p as [p IH|p IH|]; cbn; by rewrite ?IH. Qed.

Lemma digits2_pos_bounds (p : positive) :
  2 ^ (Zpos (digits2_pos p) - 1) <= Zpos p < 2 ^ Zpos (digits2_pos p).
Proof.
  rewrite digits2_pos_size.
  pose proof (Z.log2_spec (Zpos p) eq_refl) as H.
  assert (E : Zpos (Pos.size p) = Z.log2 (Zpos p) + 1).
  { destruct p; cbn; lia. }
  rewrite E. replace (Z.log2 (Zpos p) + 1 - 1) with (Z.log2 (Zpos p)) by lia.
  replace (Z.log2 (Zpos p) + 1) with (Z.succ (Z.log2 (Zpos p))) by lia. exact H.
Qed.

Lemma digits2_pos_le (p : positive) (k : Z) :
  Zpos p < 2 ^ k -> Zpos (digits2_pos p) <= k.
Proof.
  intros H. destruct (Z.le_gt_cases (Zpos (digits2_pos p)) k) as [|Hk]; [done|].
  exfalso. pose proof (digits2_pos_bounds p) as [Hlo _].
  assert (2 ^ k <= 2 ^ (Zpos (digits2_pos p) - 1)).
  { destruct (Z.le_gt_cases 0 k).
    - apply Z.pow_le_mono_r; lia.
    - rewrite (Z.pow_neg_r 2 k) by lia. apply Z.pow_nonneg. lia. }
  lia.
Qed.

Lemma Zdigits2_bounds (m : Z) :
  0 <= m -> m < 2 ^ Zdigits2 m /\ 0 <= Zdigits2 m.
Proof.
  destruct m as [|p|p]; [done| |lia]. intros _. cbn [Zdigits2].
  pose proof (digits2_pos_bounds p). lia.
Qed.

Lemma Zdigits2_le (m k : Z) : 0 <= m -> 0 <= k -> m < 2 ^ k -> Zdigits2 m <= k.
Proof.
  destruct m as [|p|p]; [done| |lia]. intros _ _ H. by apply digits2_pos_le.
Qed.

Lemma shr_1_m (mrs : shr_record) :
  0 <= shr_m mrs -> shr_m (shr_1 mrs) = shr_m mrs / 2.
Proof.
  destruct mrs as [m r s]. cbn [shr_m]. intros Hm.
  destruct m as [|[p|p|]|p]; cbn [shr_1 shr_m]; try done.
  - rewrite Pos2Z.inj_xI. apply (Z.div_unique _ _ _ 1); lia.
  - rewrite Pos2Z.inj_xO. apply (Z.div_unique _ _ _ 0); lia.
Qed.

Lemma iter_shr_1_m (p : positive) (mrs : shr_record) :
  0 <= shr_m mrs ->
  shr_m (SpecFloat.iter_pos shr_1 p mrs) = shr_m mrs / 2 ^ Zpos p.
Proof.
  revert mrs; induction p as [p IH|p IH|]; intros mrs Hm; cbn [SpecFloat.iter_pos].
  - assert (H1 : 0 <= shr_m (shr_1 mrs)).
    { rewrite shr_1_m by done. apply Z.div_pos; lia. }
    assert (H2 : 0 <= shr_m (SpecFloat.iter_pos shr_1 p (shr_1 mrs))).
    { rewrite IH by done. apply Z.div_pos; [done|]. apply Z.pow_pos_nonneg; lia. }
    rewrite IH, IH, shr_1_m by done.
    rewrite !Z.div_div by (try apply Z.pow_pos_nonneg; lia).
    f_equal. rewrite <- Z.pow_add_r by lia. change 2 with (2 ^ 1) at 1.
    rewrite <- Z.pow_add_r by lia. f_equal. lia.
  - assert (H2 : 0 <= shr_m (SpecFloat.iter_pos shr_1 p mrs)).
    { rewrite IH by done. apply Z.div_pos; [done|]. apply Z.pow_pos_nonneg; lia. }
    rewrite IH, IH by done.
    rewrite !Z.div_div by (try apply Z.pow_pos_nonneg; lia).
    f_equal. rewrite <- Z.pow_add_r by lia. f_equal. lia.
  - rewrite shr_1_m by done. done.
Qed.

(** [m] at the exponent [e], as a multiple of 2^-1074. *)
Lemma pow_split (a b : Z) : 0 <= a -> 0 <= b -> 2 ^ (a + b) = 2 ^ a * 2 ^ b.
Proof. intros. by rewrite Z.pow_add_r. Qed.

(** Cutting [n] digits off a mantissa lowers the value by less than one
    unit of the new last place. *)
Lemma cut_error (m e n : Z) :
  0 <= m -> -1074 <= e -> 0 < n ->
  0 <= m * 2 ^ (e + 1074) - (m / 2 ^ n) * 2 ^ (e + n + 1074) < 2 ^ (e + n + 1074).
Proof.
  intros Hm He Hn.
  assert (Hpos : 0 < 2 ^ n) by (apply Z.pow_pos_nonneg; lia).
  assert (Hpos' : 0 < 2 ^ (e + 1074)) by (apply Z.pow_pos_nonneg; lia).
  replace (e + n + 1074) with (n + (e + 1074)) by lia.
  rewrite (pow_split n (e + 1074)) by lia.
  assert (Hne : 2 ^ n <> 0) by lia.
  pose proof (Z.div_mod m (2 ^ n) Hne) as Hdm.
  pose proof (Z.mod_pos_bound m (2 ^ n) Hpos) as Hmod.
  set (P := 2 ^ n) in *. set (A := 2 ^ (e + 1074)) in *.
  set (q := m / P) in *. set (r := m mod P) in *.
  clearbody q r P A.
  replace (m * A - q * (P * A)) with (r * A) by (subst m; ring). nia.
Qed.

Lemma div_pow_lt (a x y : Z) :
  0 <= a < 2 ^ x -> 0 <= y <= x -> 0 <= a / 2 ^ y < 2 ^ (x - y).
Proof.
  intros Ha Hy. assert (0 < 2 ^ y) by (apply Z.pow_pos_nonneg; lia).
  split; [apply Z.div_pos; lia|].
  apply Z.div_lt_upper_bound; [done|].
  rewrite <- Z.pow_add_r by lia. replace (y + (x - y)) with x by lia. lia.
Qed.

(** What [shr_fexp] does to a mantissa that is not negative, at an
    exponent no less than the least one: nothing, or it cuts the mantissa
    down to 53 digits, which lowers the value by less than one unit of
    the last place. *)
Lemma shr_fexp_cases (m e : Z) (l : location) :
  0 <= m -> -1074 <= e ->
  shr_fexp prec emax m e l = (shr_record_of_loc m l, e)
  \/ (53 < Zdigits2 m
      /\ exists mrs,
           shr_fexp prec emax m e l = (mrs, Zdigits2 m + e - 53)
           /\ 0 <= shr_m mrs < 2 ^ 53
           /\ 0 <= m * 2 ^ (e + 1074)
                   - shr_m mrs * 2 ^ (Zdigits2 m + e - 53 + 1074)
              < 2 ^ (Zdigits2 m + e - 53 + 1074)).
Proof.
  intros Hm He. unfold shr_fexp, shr, fexp, emin, prec, emax.
  destruct (Z.max (Zdigits2 m + e - 53) (3 - 1024 - 53) - e) as [|p|p] eqn:E;
    [by left| |by left].
  right. assert (Hp : Zpos p = Zdigits2 m - 53) by lia.
  split; [lia|]. eexists. split; [f_equal; lia|].
  rewrite iter_shr_1_m by (by destruct l as [|[]]).
  replace (shr_m (shr_record_of_loc m l)) with m by (by destruct l as [|[]]).
  rewrite Hp. split.
  - pose proof (div_pow_lt m (Zdigits2 m) (Zdigits2 m - 53)) as H.
    replace (Zdigits2 m - (Zdigits2 m - 53)) with 53 in H by lia.
    apply H; [|lia]. pose proof (Zdigits2_bounds m Hm). lia.
  - pose proof (cut_error m e (Zdigits2 m - 53) Hm He ltac:(lia)) as H.
    by replace (e + (Zdigits2 m - 53) + 1074) with (Zdigits2 m + e - 53 + 1074) in H
      by lia.
Qed.

Lemma round_nearest_even_bounds (m : Z) (l : location) :
  m <= round_nearest_even m l <= m + 1.
Proof. destruct l as [|[]]; cbn; try lia. destruct (Z.even m); lia. Qed.

Lemma pow_le (a b : Z) : a <= b -> 2 ^ a <= 2 ^ b.
Proof.
  intros H. destruct (Z.le_gt_cases 0 a).
  - apply Z.pow_le_mono_r; lia.
  - rewrite (Z.pow_neg_r 2 a) by lia. apply Z.pow_nonneg. lia.
Qed.

(** Rounding a positive mantissa below 2^[k]: the double it gives is
    below 2^([k] + 1), so there is no overflow, and off the exact value
    by at most 2^([k] - 51). *)
Lemma binary_round_aux_near (m : positive) (e k cap : Z) :
  -1074 <= e <= cap -> Zpos (digits2_pos m) + e <= k -> -1000 <= k <= 970 ->
  Spec.below (k + 1) (Z.max cap (k - 52))
    (binary_round_aux prec emax false (Zpos m) e loc_Exact)
  /\ Z.abs (Spec.scaled (binary_round_aux prec emax false (Zpos m) e loc_Exact)
            - Zpos m * 2 ^ (e + 1074))
     <= 2 ^ (k + 1023).
Proof.
  intros He Hk Hmax. unfold binary_round_aux.
  assert (Hpow : 0 < 2 ^ (k + 1023)) by (apply Z.pow_pos_nonneg; lia).
  destruct (shr_fexp_cases (Zpos m) e loc_Exact) as [->|(Hd & mrs & -> & Hmrs & Hcut)];
    [done|lia| |].
  - cbn [shr_record_of_loc shr_m loc_of_shr_record round_nearest_even].
    destruct (shr_fexp_cases (Zpos m) e loc_Exact) as [->|(Hd & mrs & -> & Hmrs & Hcut)];
      [done|lia| |].
    + cbn [shr_record_of_loc shr_m]. unfold prec, emax.
      rewrite (proj2 (Z.leb_le e (1024 - 53))) by (cbn [Zdigits2] in *; lia).
      cbn [Spec.below Spec.scaled cond_Zopp]. split; [lia|].
      rewrite Z.sub_diag. cbn [Z.abs]. lia.
    + cbn [Zdigits2] in *.
      assert (He2 : 2 ^ (Zpos (digits2_pos m) + e - 53 + 1074) <= 2 ^ (k + 1023))
        by (apply pow_le; lia).
      destruct (shr_m mrs) as [|q|q] eqn:Eq; [| |lia].
      * cbn [Spec.below Spec.scaled]. split; [done|]. lia.
      * unfold prec, emax. rewrite (proj2 (Z.leb_le _ (1024 - 53))) by lia.
        cbn [Spec.below Spec.scaled cond_Zopp]. split.
        -- split; [lia|].
           assert (Zpos (digits2_pos q) <= 53) by (apply digits2_pos_le; lia). lia.
        -- lia.
  - cbn [Zdigits2] in *.
    set (e1 := Zpos (digits2_pos m) + e - 53) in *.
    set (mr := round_nearest_even (shr_m mrs) (loc_of_shr_record mrs)).
    pose proof (round_nearest_even_bounds (shr_m mrs) (loc_of_shr_record mrs)) as Hr.
    fold mr in Hr.
    assert (Hd2 : Zdigits2 mr <= 54).
    { apply Zdigits2_le; [lia|lia|]. change (2 ^ 54) with (2 * 2 ^ 53). lia. }
    assert (Hd0 : 0 <= Zdigits2 mr) by (apply Zdigits2_bounds; lia).
    assert (He1 : 2 ^ (e1 + 1074) <= 2 ^ (k - 53 + 1074)) by (apply pow_le; lia).
    assert (Hsplit : 2 ^ (k + 1023) = 4 * 2 ^ (k - 53 + 1074)).
    { replace (k + 1023) with (2 + (k - 53 + 1074)) by lia.
      by rewrite pow_split by lia. }
    assert (Hp1 : 0 < 2 ^ (e1 + 1074)) by (apply Z.pow_pos_nonneg; lia).
    assert (Hround : Z.abs (mr * 2 ^ (e1 + 1074) - Zpos m * 2 ^ (e + 1074))
                     <= 2 ^ (e1 + 1074)) by nia.
    destruct (shr_fexp_cases mr e1 loc_Exact)
      as [->|(Hd' & mrs' & -> & Hmrs' & Hcut')]; [lia|lia| |].
    + cbn [shr_record_of_loc shr_m].
      destruct mr as [|q|q] eqn:Eq; [| |lia].
      * cbn [Spec.below Spec.scaled]. split; [done|]. lia.
      * unfold prec, emax. rewrite (proj2 (Z.leb_le _ (1024 - 53))) by lia.
        cbn [Spec.below Spec.scaled cond_Zopp Zdigits2] in *. split; [lia|]. lia.
    + assert (He2 : 2 ^ (Zdigits2 mr + e1 - 53 + 1074) <= 2 * 2 ^ (e1 + 1074)).
      { replace (2 * 2 ^ (e1 + 1074)) with (2 ^ (1 + (e1 + 1074)))
          by (by rewrite (pow_split 1 (e1 + 1074)) by lia).
        apply pow_le. lia. }
      destruct (shr_m mrs') as [|q|q] eqn:Eq; [| |lia].
      * cbn [Spec.below Spec.scaled]. split; [done|]. lia.
      * unfold prec, emax. rewrite (proj2 (Z.leb_le _ (1024 - 53))) by lia.
        cbn [Spec.below Spec.scaled cond_Zopp]. split.
        -- split; [lia|].
           assert (Zpos (digits2_pos q) <= 53) by (apply digits2_pos_le; lia). lia.
        -- lia.
Qed.

Lemma digits2_pos_iter_xO (m d : positive) :
  digits2_pos (Pos.iter xO m d) = (digits2_pos m + d)%positive
  /\ Zpos (Pos.iter xO m d) = Zpos m * 2 ^ Zpos d.
Proof.
  induction d as [|d [IH1 IH2]] using Pos.peano_ind.
  - cbn. lia.
  - rewrite Pos.iter_succ. cbn [digits2_pos]. rewrite IH1. split; [lia|].
    rewrite Pos2Z.inj_xO, IH2, Pos2Z.inj_succ, Z.pow_succ_r by lia. ring.
Qed.

(** Aligning a mantissa to a lower exponent changes neither the value nor
    the magnitude. *)
Lemma shl_align_same (mx : positive) (ex ex' : Z) :
  -1074 <= ex -> -1074 <= ex' ->
  Zpos (digits2_pos (shl_align mx ex ex').1) + (shl_align mx ex ex').2
  = Zpos (digits2_pos mx) + ex
  /\ (shl_align mx ex ex').2 = Z.min ex ex'
  /\ Zpos (shl_align mx ex ex').1 * 2 ^ ((shl_align mx ex ex').2 + 1074)
     = Zpos mx * 2 ^ (ex + 1074).
Proof.
  intros He He'. unfold shl_align.
  destruct (ex' - ex) as [|d|d] eqn:E; cbn [fst snd]; [split; [|split]; lia..|].
  destruct (digits2_pos_iter_xO mx d) as [-> ->]. split; [lia|]. split; [lia|].
  replace (ex + 1074) with (Zpos d + (ex' + 1074)) by lia.
  rewrite (pow_split (Zpos d) (ex' + 1074)) by lia. ring.
Qed.

Lemma binary_round_near (m : positive) (e k cap : Z) :
  -1074 <= e <= cap -> Zpos (digits2_pos m) + e <= k -> -1000 <= k <= 970 ->
  Spec.below (k + 1) (Z.max cap (k - 52)) (binary_round prec emax false m e)
  /\ Z.abs (Spec.scaled (binary_round prec emax false m e) - Zpos m * 2 ^ (e + 1074))
     <= 2 ^ (k + 1023).
Proof.
  intros He Hk Hmax. unfold binary_round.
  assert (Hf : -1074 <= fexp prec emax (Zpos (digits2_pos m) + e))
    by (unfold fexp, emin, prec, emax; lia).
  pose proof (shl_align_same m e (fexp prec emax (Zpos (digits2_pos m) + e))
                ltac:(lia) Hf) as (Hd & Hmin & Hval).
  destruct (shl_align m e (fexp prec emax (Zpos (digits2_pos m) + e))) as [mz ez].
  cbn [fst snd] in Hd, Hmin, Hval. rewrite <- Hval.
  apply binary_round_aux_near; lia.
Qed.

Lemma below_le (k k' cap cap' : Z) (x : number) :
  k <= k' -> cap <= cap' -> Spec.below k cap x -> Spec.below k' cap' x.
Proof. intros Hk Hc. destruct x as [[]| | |[] m e]; cbn; try done. lia. Qed.

Lemma below_isFinite (k cap : Z) (x : number) : Spec.below k cap x -> isFinite x = true.
Proof. by destruct x as [[]| | |[] m e]. Qed.

(** The sum of two doubles below 2^[k] is a double below 2^([k] + 2),
    off the exact sum by at most 2^([k] - 50). *)
Lemma add_near (x y : number) (k cap : Z) :
  Spec.below k cap x -> Spec.below k cap y -> -1000 <= k <= 968 ->
  Spec.below (k + 2) (Z.max cap (k - 51)) (add x y)
  /\ Z.abs (Spec.scaled (add x y) - (Spec.scaled x + Spec.scaled y)) <= 2 ^ (k + 1024).
Proof.
  intros Hx Hy Hk.
  assert (Hpow : 0 < 2 ^ (k + 1024)) by (apply Z.pow_pos_nonneg; lia).
  destruct x as [[]| | |[] mx ex], y as [[]| | |[] my ey]; try done.
  - cbn. lia.
  - split; [apply (below_le k _ cap); [lia|lia|done]|].
    cbn [add SFadd Spec.scaled cond_Zopp]. rewrite Z.add_0_l, Z.sub_diag. cbn. lia.
  - split; [apply (below_le k _ cap); [lia|lia|done]|].
    cbn [add SFadd Spec.scaled cond_Zopp]. rewrite Z.add_0_r, Z.sub_diag. cbn. lia.
  - cbn [Spec.below] in Hx, Hy. unfold add, SFadd. cbv zeta. cbn [cond_Zopp].
    pose proof (shl_align_same mx ex (Z.min ex ey) ltac:(lia) ltac:(lia))
      as (H1 & H1' & V1).
    pose proof (shl_align_same my ey (Z.min ex ey) ltac:(lia) ltac:(lia))
      as (H2 & H2' & V2).
    set (m1 := (shl_align mx ex (Z.min ex ey)).1) in *.
    set (m2 := (shl_align my ey (Z.min ex ey)).1) in *.
    change (Zpos m1 + Zpos m2) with (Zpos (m1 + m2)). cbn [binary_normalize].
    cbn [Spec.scaled cond_Zopp]. rewrite <- V1, <- V2.
    replace ((shl_align mx ex (Z.min ex ey)).2) with (Z.min ex ey) by lia.
    replace ((shl_align my ey (Z.min ex ey)).2) with (Z.min ex ey) by lia.
    replace (Zpos m1 * 2 ^ (Z.min ex ey + 1074) + Zpos m2 * 2 ^ (Z.min ex ey + 1074))
      with (Zpos (m1 + m2) * 2 ^ (Z.min ex ey + 1074)) by (rewrite Pos2Z.inj_add; ring).
    replace (k + 2) with (k + 1 + 1) by lia.
    replace (k - 51) with (k + 1 - 52) by lia.
    replace (k + 1024) with (k + 1 + 1023) by lia.
    apply binary_round_near; [lia| |lia].
    assert (Zpos (digits2_pos (m1 + m2)) <= k + 1 - Z.min ex ey); [|lia].
    apply digits2_pos_le.
    pose proof (digits2_pos_bounds m1) as [_ B1].
    pose proof (digits2_pos_bounds m2) as [_ B2].
    assert (2 ^ Zpos (digits2_pos m1) <= 2 ^ (k - Z.min ex ey)) by (apply pow_le; lia).
    assert (2 ^ Zpos (digits2_pos m2) <= 2 ^ (k - Z.min ex ey)) by (apply pow_le; lia).
    replace (k + 1 - Z.min ex ey) with (Z.succ (k - Z.min ex ey)) by lia.
    rewrite Z.pow_succ_r by lia. lia.
Qed.

(** The three products of a channel with its weight: below 2^8, and off
    the exact product by less than 2^-34 thousandths. *)
Lemma weighted_near (b : byte) :
  (Spec.below 8 (-45) (mul (literal 299 1000) (ofByte (Some b)))
   /\ Z.abs (1000 * Spec.scaled (mul (literal 299 1000) (ofByte (Some b)))
             - 299 * Z.of_N (Byte.to_N b) * 2 ^ 1074) <= 2 ^ 1040)
  /\ (Spec.below 8 (-45) (mul (literal 587 1000) (ofByte (Some b)))
      /\ Z.abs (1000 * Spec.scaled (mul (literal 587 1000) (ofByte (Some b)))
                - 587 * Z.of_N (Byte.to_N b) * 2 ^ 1074) <= 2 ^ 1040)
  /\ (Spec.below 8 (-45) (mul (literal 114 1000) (ofByte (Some b)))
      /\ Z.abs (1000 * Spec.scaled (mul (literal 114 1000) (ofByte (Some b)))
                - 114 * Z.of_N (Byte.to_N b) * 2 ^ 1074) <= 2 ^ 1040).
Proof. destruct b; vm_compute; repeat split; discriminate. Qed.

(** 0.299 R + 0.587 G + 0.114 B in binary64: below 2^12, and off the exact
    luminance by less than 2^-28 thousandths. *)
Lemma gray_near (r g b : byte) :
  let gray :=
    add (add (mul (literal 299 1000) (ofByte (Some r)))
             (mul (literal 587 1000) (ofByte (Some g))))
        (mul (literal 114 1000) (ofByte (Some b))) in
  Spec.below 12 (-41) gray
  /\ Z.abs (1000 * Spec.scaled gray - Spec.luminance1000 (r, g, b) * 2 ^ 1074) <= 2 ^ 1046.
Proof.
  intros gray. subst gray.
  destruct (weighted_near r) as ((Br & Er) & _).
  destruct (weighted_near g) as (_ & (Bg & Eg) & _).
  destruct (weighted_near b) as (_ & _ & (Bb & Eb)).
  set (pr := mul (literal 299 1000) (ofByte (Some r))) in *.
  set (pg := mul (literal 587 1000) (ofByte (Some g))) in *.
  set (pb := mul (literal 114 1000) (ofByte (Some b))) in *.
  destruct (add_near pr pg 8 (-45) Br Bg ltac:(lia)) as [B1 E1].
  apply (below_le _ 10 _ (-43)) in B1; [|lia..].
  apply (below_le _ 10 _ (-43)) in Bb; [|lia..].
  destruct (add_near (add pr pg) pb 10 (-43) B1 Bb ltac:(lia)) as [B2 E2].
  split; [apply (below_le (10 + 2) _ (Z.max (-43) (10 - 51))); [lia|lia|done]|].
  unfold Spec.luminance1000.
  set (T := 2 ^ 1074) in *.
  change (2 ^ (8 + 1024)) with (2 ^ 1032) in E1.
  change (2 ^ (10 + 1024)) with (4 * 2 ^ 1032) in E2.
  change (2 ^ 1040) with (256 * 2 ^ 1032) in Er, Eg, Eb.
  change (2 ^ 1046) with (16384 * 2 ^ 1032).
  assert (HP : 0 < 2 ^ 1032) by (apply Z.pow_pos_nonneg; lia).
  set (P := 2 ^ 1032) in *. clearbody P T.
  set (sr := Spec.scaled pr) in *. set (sg := Spec.scaled pg) in *.
  set (sb := Spec.scaled pb) in *.
  set (s1 := Spec.scaled (add pr pg)) in *.
  set (s2 := Spec.scaled (add (add pr pg) pb)) in *.
  clearbody sr sg sb s1 s2. clear B1 B2 Br Bg Bb.
  set (vr := Z.of_N (Byte.to_N r)) in *. set (vg := Z.of_N (Byte.to_N g)) in *.
  set (vb := Z.of_N (Byte.to_N b)) in *. clearbody vr vg vb.
  set (xr := 299 * vr * T) in *. set (xg := 587 * vg * T) in *.
  set (xb := 114 * vb * T) in *.
  replace ((299 * vr + 587 * vg + 114 * vb) * T) with (xr + xg + xb)
    by (subst xr xg xb; ring).
  clearbody xr xg xb. lia.
Qed.

(** [Math.round] of a double that lies within 2^-28 thousandths of
    [n] / 1000, where [n] is not halfway between two thousands: the
    double of [n] / 1000 rounded to the nearest integer. *)
Lemma round_near (x : number) (n : Z) :
  Spec.below 12 (-41) x -> 0 <= n -> n mod 1000 <> 500 ->
  Z.abs (1000 * Spec.scaled x - n * 2 ^ 1074) <= 2 ^ 1046 ->
  round x = ofZ ((n + 500) / 1000).
Proof.
  intros Hx Hn Hhalf Herr.
  destruct x as [[]| | |[] m e]; try done.
  - cbn [Spec.scaled round] in *.
    assert (n = 0); [|by subst].
    assert (0 < 2 ^ 1046) by (apply Z.pow_pos_nonneg; lia).
    change (2 ^ 1074) with (2 ^ 28 * 2 ^ 1046) in Herr.
    set (P := 2 ^ 1046) in *. clearbody P. nia.
  - cbn [Spec.below] in Hx. destruct Hx as [He _].
    cbn [Spec.scaled cond_Zopp] in Herr. unfold round. cbn [cond_Zopp].
    destruct (Z.leb_spec 0 e) as [|_]; [lia|].
    assert (Hq : (2 * Zpos m + 2 ^ (- e)) / 2 ^ (1 - e) = (n + 500) / 1000).
    { pose proof (Z.div_mod (n + 500) 1000 ltac:(lia)) as Hdiv.
      pose proof (Z.mod_pos_bound (n + 500) 1000 ltac:(lia)) as Hmod.
      assert (Hr : (n + 500) mod 1000 <> 0).
      { intros H0. apply Hhalf.
        rewrite <- (Z.mod_unique n 1000 ((n + 500) / 1000 - 1) 500); [done|lia|lia]. }
      set (q := (n + 500) / 1000) in *. set (r := (n + 500) mod 1000) in *.
      clearbody q r.
      assert (HP : 0 < 2 ^ (- e - 28)) by (apply Z.pow_pos_nonneg; lia).
      assert (HT : 0 < 2 ^ (e + 1074)) by (apply Z.pow_pos_nonneg; lia).
      assert (H1 : 2 ^ (- e) = 2 ^ 28 * 2 ^ (- e - 28))
        by (rewrite <- Z.pow_add_r by lia; f_equal; lia).
      assert (H2 : 2 ^ (1 - e) = 2 ^ 29 * 2 ^ (- e - 28))
        by (rewrite <- Z.pow_add_r by lia; f_equal; lia).
      assert (H3 : 2 ^ 1074 = 2 ^ (e + 1074) * (2 ^ 28 * 2 ^ (- e - 28)))
        by (rewrite <- H1, <- Z.pow_add_r by lia; f_equal; lia).
      assert (H4 : 2 ^ 1046 = 2 ^ (e + 1074) * 2 ^ (- e - 28))
        by (rewrite <- Z.pow_add_r by lia; f_equal; lia).
      rewrite H1, H2. rewrite H3, H4 in Herr.
      set (P := 2 ^ (- e - 28)) in *. set (T := 2 ^ (e + 1074)) in *.
      clearbody P T. change (2 ^ 28) with 268435456 in *.
      change (2 ^ 29) with 536870912.
      assert (Hd : Z.abs (1000 * Zpos m - n * (268435456 * P)) <= P).
      { apply (Z.mul_le_mono_pos_l _ _ T HT).
        replace (T * Z.abs (1000 * Zpos m - n * (268435456 * P)))
          with (Z.abs (1000 * (Zpos m * T) - n * (T * (268435456 * P)))); [done|].
        replace (1000 * (Zpos m * T) - n * (T * (268435456 * P)))
          with (T * (1000 * Zpos m - n * (268435456 * P))) by ring.
        rewrite Z.abs_mul, (Z.abs_eq T) by lia. done. }
      clear Herr H1 H2 H3 H4.
      assert (Hn' : n = 1000 * q + r - 500) by lia. subst n.
      replace ((1000 * q + r - 500) * (268435456 * P))
        with (268435456000 * (q * P) + 268435456 * (r * P) - 134217728000 * P) in Hd
        by ring.
      assert (Hb : P <= r * P <= 999 * P) by nia.
      set (a := q * P) in *. set (b := r * P) in *.
      symmetry. apply (Z.div_unique _ _ q (2 * Zpos m + 268435456 * P - 536870912 * a)).
      - left. clearbody a b. lia.
      - subst a. ring. }
    rewrite Hq. destruct (Z.eqb_spec ((n + 500) / 1000) 0) as [->|]; done.
Qed.

(** The rounded luminance of the design document, in thousandths. *)
Lemma roundedLuminance_thousandths (rgb : byte * byte * byte) :
  Spec.roundedLuminance rgb = (Spec.luminance1000 rgb + 500) / 1000.
Proof.
  destruct rgb as [[r g] b]. unfold Spec.roundedLuminance.
  rewrite (Qfloor_comp _ ((Spec.luminance1000 (r, g, b) + 500) # 1000)); [done|].
  unfold Spec.luminance, Spec.luminance1000, Qeq, Qplus, Qmult, inject_Z. cbn. lia.
Qed.

Lemma luminance1000_bounds (rgb : byte * byte * byte) :
  0 <= Spec.luminance1000 rgb <= 255000.
Proof.
  destruct rgb as [[r g] b]. unfold Spec.luminance1000.
  pose proof (Byte.to_N_bounded r). pose proof (Byte.to_N_bounded g).
  pose proof (Byte.to_N_bounded b). lia.
Qed.

(** The rounded gray value the code computes for a sample whose luminance
    is not halfway between two integers is the rounded luminance. *)
Lemma round_gray (r g b : byte) :
  Spec.halfway (r, g, b) = false ->
  round (add (add (mul (literal 299 1000) (ofByte (Some r)))
                  (mul (literal 587 1000) (ofByte (Some g))))
             (mul (literal 114 1000) (ofByte (Some b))))
  = ofZ (Spec.roundedLuminance (r, g, b))
  /\ 0 <= Spec.roundedLuminance (r, g, b) < 256.
Proof.
  intros Hhalf. destruct (gray_near r g b) as [Hb He].
  pose proof (luminance1000_bounds (r, g, b)) as Hn.
  rewrite roundedLuminance_thousandths. split.
  - apply round_near; [done|lia| |done].
    unfold Spec.halfway in Hhalf. by apply Z.eqb_neq in Hhalf.
  - split; [apply Z.div_pos; lia|]. apply Z.div_lt_upper_bound; lia.
Qed.

End Doubles.

(** ** Strings *)

Section Strings.

Lemma append_cons (c : ascii) (s t : string) : String c s +:+ t = String c (s +:+ t).
Proof. reflexivity. Qed.

Lemma append_nil_l (t : string) : "" +:+ t = t.
Proof. reflexivity. Qed.

Lemma append_nil_r (s : string) : s +:+ "" = s.
Proof. induction s as [|c s IH]; [done|]. by rewrite append_cons, IH. Qed.

Lemma append_assoc (a b c : string) : (a +:+ b) +:+ c = a +:+ (b +:+ c).
Proof. induction a as [|x a IH]; [done|]. by rewrite !append_cons, IH. Qed.

Lemma length_append (a b : string) :
  String.length (a +:+ b) = (String.length a + String.length b)%nat.
Proof. induction a as [|x a IH]; [done|]. rewrite append_cons. simpl. by rewrite IH. Qed.

Lemma get_append_r (a b : string) (i : nat) :
  String.get (String.length a + i) (a +:+ b) = String.get i b.
Proof. induction a as [|x a IH]; [done|]. rewrite append_cons. exact IH. Qed.

Lemma substring_append_4 (a : string) (c1 c2 c3 c4 : ascii) (r : string) :
  String.substring (String.length a) 4 (a +:+ String c1 (String c2 (String c3 (String c4 r))))
  = String c1 (String c2 (String c3 (String c4 ""))).
Proof.
  induction a as [|x a IH].
  - rewrite append_nil_l. simpl. by destruct r.
  - rewrite append_cons. exact IH.
Qed.

Lemma bitString_app (a b : list bool) :
  Spec.bitString (a ++ b) = Spec.bitString a +:+ Spec.bitString b.
Proof. induction a as [|x a IH]; [done|]. simpl. by rewrite append_cons, IH. Qed.

Lemma length_bitString (bs : list bool) : String.length (Spec.bitString bs) = length bs.
Proof. induction bs as [|b bs IH]; simpl; [done | by rewrite IH]. Qed.

Lemma bitString_inj (a b : list bool) : Spec.bitString a = Spec.bitString b -> a = b.
Proof.
  revert b; induction a as [|x a IH]; intros [|y b]; simpl; try done.
  intros [= Hc Hr]. f_equal; [by destruct x, y | by apply IH].
Qed.

End Strings.

(** ** hexToBinary and the Hamming distance *)

Section Hamming.

Import DuplicateDetection.

Lemma hexChar_bits (c : ascii) :
  Spec.isHexDigit c = true ->
  Js.padStart (Js.toString (Js.parseInt (String c "") 16) 2) 4 "0"
  = Spec.bitString (Spec.bitsOfDigit (default 0%N (Spec.hexDigit c))).
Proof.
  destruct c as [[] [] [] [] [] [] [] []]; vm_compute; congruence.
Qed.

Lemma hexToBinary_loop_bits (h acc : string) :
  forallb Spec.isHexDigit (Spec.chars h) = true ->
  hexToBinary_loop h acc = acc +:+ Spec.bitString (Spec.hexBits h).
Proof.
  revert acc; induction h as [|c h IH]; intros acc Hh.
  - by rewrite append_nil_r.
  - cbn [Spec.chars list_ascii_of_string forallb] in Hh.
    apply andb_true_iff in Hh as [Hc Hh].
    cbn [hexToBinary_loop]. rewrite IH by exact Hh.
    rewrite hexChar_bits by exact Hc.
    unfold Spec.hexBits. cbn [Spec.chars list_ascii_of_string flat_map].
    by rewrite bitString_app, append_assoc.
Qed.

Lemma hexToBinary_bits (h : string) :
  forallb Spec.isHexDigit (Spec.chars h) = true ->
  hexToBinary h = Spec.bitString (Spec.hexBits h).
Proof. intros Hh. unfold hexToBinary. by rewrite hexToBinary_loop_bits. Qed.

Lemma length_hexBits (h : string) : length (Spec.hexBits h) = (4 * String.length h)%nat.
Proof.
  unfold Spec.hexBits, Spec.chars. induction h as [|c h IH]; [done|].
  simpl. rewrite IH. lia.
Qed.

Lemma countDifferences_mismatches (bs1 bs2 : list bool) (pre : string) (d : nat) :
  length bs1 = length bs2 ->
  countDifferences (Spec.bitString bs1) (String.length pre)
    (pre +:+ Spec.bitString bs2) d
  = (d + Spec.mismatches bs1 bs2)%nat.
Proof.
  revert bs2 pre d; induction bs1 as [|b1 bs1 IH]; intros [|b2 bs2] pre d Hl;
    simpl in Hl; try done.
  cbn [Spec.bitString countDifferences Spec.mismatches].
  assert (Hget : Js.charAt (pre +:+ String (Spec.bitChar b2) (Spec.bitString bs2))
                     (String.length pre) = Some (Spec.bitChar b2)).
    { unfold Js.charAt. rewrite <- (Nat.add_0_r (String.length pre)).
      by rewrite get_append_r. }
  rewrite Hget.
  assert (Hpre : pre +:+ String (Spec.bitChar b2) (Spec.bitString bs2)
                   = (pre +:+ String (Spec.bitChar b2) "") +:+ Spec.bitString bs2).
    { by rewrite append_assoc. }
  assert (Hlen : S (String.length pre)
                   = String.length (pre +:+ String (Spec.bitChar b2) "")).
    { rewrite length_append. simpl. lia. }
  rewrite Hpre, Hlen.
  destruct b1, b2; simpl; repeat case_decide; try done;
    rewrite IH by lia; lia.
Qed.

Lemma popcount_double (n : N) : Spec.popcount (N.double n) = Spec.popcount n.
Proof. by destruct n. Qed.

Lemma popcount_succ_double (n : N) : Spec.popcount (N.succ_double n) = S (Spec.popcount n).
Proof. by destruct n. Qed.

Lemma popcount_zero (n : N) : Spec.popcount n = 0%nat <-> n = 0%N.
Proof.
  destruct n as [|p]; [done|]. split; [|done]. simpl.
  induction p as [p IH|p IH|]; simpl; intros H; try done. by apply IH in H.
Qed.

Lemma hamming_step (a b : N) (x y : bool) :
  Spec.hamming (2 * a + N.b2n x) (2 * b + N.b2n y)
  = (Spec.hamming a b + (if xorb x y then 1 else 0))%nat.
Proof.
  unfold Spec.hamming.
  assert (Hx : forall (n : N) (z : bool),
             (2 * n + N.b2n z)%N = if z then N.succ_double n else N.double n).
  { intros [|n] []; cbn [N.b2n N.succ_double N.double]; lia. }
  rewrite !Hx.
  destruct a as [|p], b as [|q], x, y; simpl; unfold N.lxor;
    try change (Pos.lxor p~1 q~1) with (N.double (Pos.lxor p q));
    try change (Pos.lxor p~1 q~0) with (N.succ_double (Pos.lxor p q));
    try change (Pos.lxor p~0 q~1) with (N.succ_double (Pos.lxor p q));
    try change (Pos.lxor p~0 q~0) with (N.double (Pos.lxor p q));
    rewrite ?popcount_double, ?popcount_succ_double; lia.
Qed.

Lemma hamming_bits (bs1 bs2 : list bool) (a b : N) :
  length bs1 = length bs2 ->
  Spec.hamming (Spec.bitsValueFrom a bs1) (Spec.bitsValueFrom b bs2)
  = (Spec.hamming a b + Spec.mismatches bs1 bs2)%nat.
Proof.
  revert bs2 a b; induction bs1 as [|x bs1 IH]; intros [|y bs2] a b Hl;
    simpl in Hl; try discriminate Hl.
  - simpl. lia.
  - unfold Spec.bitsValueFrom in *. cbn [fold_left Spec.mismatches].
    rewrite IH by lia. rewrite hamming_step. lia.
Qed.

Lemma hamming_comm (a b : N) : Spec.hamming a b = Spec.hamming b a.
Proof. unfold Spec.hamming. by rewrite N.lxor_comm. Qed.

Lemma hamming_zero (a b : N) : Spec.hamming a b = 0%nat <-> a = b.
Proof. unfold Spec.hamming. rewrite popcount_zero. apply N.lxor_eq_0_iff. Qed.

Lemma mismatches_le (bs1 bs2 : list bool) : (Spec.mismatches bs1 bs2 <= length bs1)%nat.
Proof.
  revert bs2; induction bs1 as [|x bs1 IH]; intros [|y bs2]; simpl; try lia.
  specialize (IH bs2). destruct (xorb x y); lia.
Qed.

Lemma mismatches_zero (bs1 bs2 : list bool) :
  length bs1 = length bs2 -> Spec.mismatches bs1 bs2 = 0%nat -> bs1 = bs2.
Proof.
  revert bs2; induction bs1 as [|x bs1 IH]; intros [|y bs2] Hl; simpl in *; try done.
  destruct x, y; simpl; intros H; try lia; f_equal; apply IH; lia.
Qed.

Lemma hexDigit_bits (c : ascii) (a : N) :
  Spec.isHexDigit c = true ->
  Spec.bitsValueFrom a (Spec.bitsOfDigit (default 0%N (Spec.hexDigit c)))
  = (a * 16 + default 0%N (Spec.hexDigit c))%N.
Proof.
  destruct c as [[] [] [] [] [] [] [] []]; intros H; vm_compute in H; try discriminate H;
    unfold Spec.bitsValueFrom; simpl; lia.
Qed.

Lemma lowerHexDigit_char (c : ascii) :
  Spec.isLowerHexDigit c = true ->
  Spec.isHexDigit c = true
  /\ c = Js.digitChar (Spec.bitsValueFrom 0 (Spec.bitsOfDigit (default 0%N (Spec.hexDigit c)))).
Proof.
  destruct c as [[] [] [] [] [] [] [] []]; intros H; vm_compute in H; try discriminate H;
    by vm_compute.
Qed.

Lemma fold_value_bits (h : string) (a : N) :
  forallb Spec.isHexDigit (Spec.chars h) = true ->
  fold_left (fun v c => (v * 16 + default 0 (Spec.hexDigit c))%N) (Spec.chars h) a
  = Spec.bitsValueFrom a (Spec.hexBits h).
Proof.
  unfold Spec.hexBits, Spec.chars. revert a; induction h as [|c h IH]; intros a Hh; [done|].
  simpl in Hh. apply andb_true_iff in Hh as [Hc Hh].
  cbn [list_ascii_of_string fold_left flat_map].
  rewrite IH by exact Hh. unfold Spec.bitsValueFrom at 2.
  rewrite fold_left_app. fold (Spec.bitsValueFrom a (Spec.bitsOfDigit (default 0%N (Spec.hexDigit c)))).
  by rewrite hexDigit_bits.
Qed.

Lemma fingerprintValue_bits (h : string) :
  forallb Spec.isHexDigit (Spec.chars h) = true ->
  Spec.fingerprintValue h = Spec.bitsValueFrom 0 (Spec.hexBits h).
Proof. apply fold_value_bits. Qed.

Lemma canonical_hexBits_inj (h1 h2 : string) :
  Spec.isCanonical h1 = true -> Spec.isCanonical h2 = true ->
  Spec.hexBits h1 = Spec.hexBits h2 -> h1 = h2.
Proof.
  unfold Spec.isCanonical, Spec.hexBits, Spec.chars.
  revert h2; induction h1 as [|c1 h1 IH]; intros [|c2 h2] H1 H2; simpl in *; try done.
  apply andb_true_iff in H1 as [Hc1 H1]. apply andb_true_iff in H2 as [Hc2 H2].
  intros [= E3 E2 E1 E0 Er].
  apply lowerHexDigit_char in Hc1 as [_ ->], Hc2 as [_ Hc2].
  rewrite Hc2 at 1. unfold Spec.bitsOfDigit. rewrite E3, E2, E1, E0.
  f_equal. by apply IH.
Qed.

Lemma canonical_hex (h : string) :
  Spec.isCanonical h = true -> forallb Spec.isHexDigit (Spec.chars h) = true.
Proof.
  unfold Spec.isCanonical. induction (Spec.chars h) as [|c l IH]; [done|].
  simpl. intros [Hc Hl]%andb_true_iff. apply andb_true_iff. split; [|by apply IH].
  by apply lowerHexDigit_char in Hc as [Hc _].
Qed.

(** The distance of two strings of hexadecimal digits of one length. *)
Lemma calculateHammingDistance_hex (h1 h2 : string) :
  String.length h1 = String.length h2 ->
  forallb Spec.isHexDigit (Spec.chars h1) = true ->
  forallb Spec.isHexDigit (Spec.chars h2) = true ->
  calculateHammingDistance h1 h2
  = Finite (Spec.mismatches (Spec.hexBits h1) (Spec.hexBits h2)).
Proof.
  intros Hl H1 H2. unfold calculateHammingDistance.
  rewrite Hl, Nat.eqb_refl. cbn [negb].
  rewrite !hexToBinary_bits by done.
  pose proof (countDifferences_mismatches (Spec.hexBits h1) (Spec.hexBits h2) "" 0) as Hc.
  rewrite append_nil_l in Hc. simpl String.length in Hc. rewrite Hc; [done|].
  by rewrite !length_hexBits, Hl.
Qed.

Lemma mismatches_hamming (h1 h2 : string) :
  String.length h1 = String.length h2 ->
  forallb Spec.isHexDigit (Spec.chars h1) = true ->
  forallb Spec.isHexDigit (Spec.chars h2) = true ->
  Spec.mismatches (Spec.hexBits h1) (Spec.hexBits h2)
  = Spec.hamming (Spec.fingerprintValue h1) (Spec.fingerprintValue h2).
Proof.
  intros Hl H1 H2. rewrite !fingerprintValue_bits by done.
  rewrite hamming_bits by (by rewrite !length_hexBits, Hl).
  by unfold Spec.hamming at 1.
Qed.

(** Unequal lengths: [Infinity], and a similarity of 0. *)
Lemma calculateHammingDistance_lengths (h1 h2 : string) :
  String.length h1 <> String.length h2 ->
  calculateHammingDistance h1 h2 = Infinity.
Proof.
  intros Hl. unfold calculateHammingDistance.
  by apply Nat.eqb_neq in Hl as ->.
Qed.

Lemma calculateSimilarity_lengths (h1 h2 : string) :
  String.length h1 <> String.length h2 -> calculateSimilarity h1 h2 = 0%Q.
Proof.
  intros Hl. unfold calculateSimilarity.
  by rewrite calculateHammingDistance_lengths.
Qed.

(** The similarity is never negative, and positive only for one length. *)
Lemma calculateSimilarity_positive (h1 h2 : string) :
  (0 < calculateSimilarity h1 h2)%Q -> String.length h1 = String.length h2.
Proof.
  intros Hpos. destruct (decide (String.length h1 = String.length h2)) as [|Hne]; [done|].
  rewrite calculateSimilarity_lengths in Hpos by done. by apply Qlt_irrefl in Hpos.
Qed.

Lemma similarity_of_distance (d : nat) :
  (d <= 64)%nat ->
  (max0 ((maxDistance - inject_Z (Z.of_nat d)) / maxDistance * 100) == Spec.similarityOf d)%Q.
Proof.
  intros Hd. unfold max0, Spec.similarityOf, maxDistance.
  destruct (Qle_bool _ 0) eqn:E.
  - apply Qle_bool_iff in E.
    unfold Qle, Qeq, Qdiv, Qmult, Qminus, Qplus, Qopp, Qinv, inject_Z in *.
    simpl in *. lia.
  - unfold Qeq, Qdiv, Qmult, Qminus, Qplus, Qopp, Qinv, inject_Z. simpl. lia.
Qed.

Lemma similarityOf_decreasing (d1 d2 : nat) :
  (d1 < d2)%nat -> (Spec.similarityOf d2 < Spec.similarityOf d1)%Q.
Proof.
  intros Hd. unfold Spec.similarityOf, Qlt, Qdiv, Qmult, Qminus, Qplus, Qopp, Qinv, inject_Z.
  simpl. lia.
Qed.

End Hamming.

(** ** binaryToHex and the bits of the dHash *)

Section DHash.

Import DuplicateDetection.

Lemma grayPixels_loop_map (pixels : list byte) (n j : nat) (acc : list Number.number) :
  grayPixels_loop n (4 * j) pixels acc
  = acc ++ map (fun k => grayAt pixels (4 * k)) (seq j n).
Proof.
  revert j acc; induction n as [|n IH]; intros j acc.
  - simpl. by rewrite app_nil_r.
  - cbn [grayPixels_loop seq map].
    replace (4 * j + 4)%nat with (4 * S j)%nat by lia.
    rewrite IH. by rewrite <- app_assoc.
Qed.

Lemma grayPixel_toGrayPixels (pixels : list byte) (k : nat) :
  (4 * k < length pixels)%nat ->
  grayPixel (toGrayPixels pixels) k = grayAt pixels (4 * k).
Proof.
  intros Hk. unfold grayPixel, toGrayPixels.
  pose proof (grayPixels_loop_map pixels ((length pixels + 3) / 4) 0 []) as Hmap.
  simpl (4 * 0)%nat in Hmap. rewrite Hmap. simpl app.
  assert (Hlt : (k < (length pixels + 3) / 4)%nat).
  { apply (Nat.div_le_lower_bound _ 4 (S k)); lia. }
  rewrite list_lookup_fmap, lookup_seq_lt by exact Hlt. done.
Qed.

Lemma dHashStep_bit (grayPixels : list Number.number) (row col : nat) (hash : string) :
  dHashStep grayPixels row hash col
  = hash +:+ Spec.bitString [Spec.rightIsBrighter grayPixels row col].
Proof.
  unfold dHashStep, Spec.rightIsBrighter, hashSize. simpl (8 + 1)%nat.
  by destruct (Number.ltb _ _).
Qed.

Lemma dHash_row (grayPixels : list Number.number) (row : nat) (cols : list nat) (hash : string) :
  fold_left (dHashStep grayPixels row) cols hash
  = hash +:+ Spec.bitString (map (Spec.rightIsBrighter grayPixels row) cols).
Proof.
  revert hash; induction cols as [|col cols IH]; intros hash.
  - simpl. by rewrite append_nil_r.
  - cbn [fold_left map]. rewrite IH, dHashStep_bit, append_assoc.
    by rewrite <- bitString_app.
Qed.

Lemma dHash_rows (grayPixels : list Number.number) (rows cols : list nat) (hash : string) :
  fold_left (fun hash row => fold_left (dHashStep grayPixels row) cols hash) rows hash
  = hash +:+ Spec.bitString
               (flat_map (fun row => map (Spec.rightIsBrighter grayPixels row) cols) rows).
Proof.
  revert hash; induction rows as [|row rows IH]; intros hash.
  - simpl. by rewrite append_nil_r.
  - cbn [fold_left flat_map]. rewrite IH, dHash_row, append_assoc.
    by rewrite <- bitString_app.
Qed.

Lemma dHashBits_bools (grayPixels : list Number.number) :
  dHashBits grayPixels = Spec.bitString (Spec.dHashBools grayPixels).
Proof. unfold dHashBits. by rewrite dHash_rows. Qed.

Lemma dHashBools_nth (grayPixels : list Number.number) (row col : nat) :
  (row < 8)%nat -> (col < 8)%nat ->
  nth (8 * row + col) (Spec.dHashBools grayPixels) false = Spec.rightIsBrighter grayPixels row col.
Proof.
  intros Hr Hc.
  do 8 (destruct row as [|row]; [do 8 (destruct col as [|col]; [reflexivity|]); lia|]).
  lia.
Qed.

Lemma chunk_hex (b3 b2 b1 b0 : bool) :
  Js.toString (Js.parseInt (Spec.bitString [b3; b2; b1; b0]) 2) 16
  = String (Js.digitChar (Spec.bitsValueFrom 0 [b3; b2; b1; b0])) "".
Proof. by destruct b3, b2, b1, b0. Qed.

Lemma binaryToHex_loop_bits (n : nat) (bs : list bool) (pre hex : string) :
  length bs = (4 * n)%nat ->
  binaryToHex_loop n (String.length pre) (pre +:+ Spec.bitString bs) hex
  = hex +:+ Spec.hexOfBits bs.
Proof.
  revert bs pre hex; induction n as [|n IH]; intros bs pre hex Hl.
  - destruct bs; [|done]. simpl. by rewrite append_nil_r.
  - destruct bs as [|b3 [|b2 [|b1 [|b0 bs]]]]; simpl in Hl; try lia.
    cbn [binaryToHex_loop]. unfold Js.substr.
    cbn [Spec.bitString]. rewrite substring_append_4.
    change (String (Spec.bitChar b3) (String (Spec.bitChar b2)
              (String (Spec.bitChar b1) (String (Spec.bitChar b0) ""))))
      with (Spec.bitString [b3; b2; b1; b0]).
    rewrite chunk_hex.
    assert (Hpre : pre +:+ String (Spec.bitChar b3) (String (Spec.bitChar b2)
                     (String (Spec.bitChar b1) (String (Spec.bitChar b0) (Spec.bitString bs))))
                   = (pre +:+ Spec.bitString [b3; b2; b1; b0]) +:+ Spec.bitString bs).
    { by rewrite append_assoc. }
    assert (Hlen : (String.length pre + 4)%nat
                   = String.length (pre +:+ Spec.bitString [b3; b2; b1; b0])).
    { rewrite length_append. simpl. lia. }
    rewrite Hpre, Hlen, IH by lia.
    cbn [Spec.hexOfBits]. by rewrite append_assoc.
Qed.

Lemma binaryToHex_bits (bs : list bool) (n : nat) :
  length bs = (4 * n)%nat ->
  binaryToHex (Spec.bitString bs) = Spec.hexOfBits bs.
Proof.
  intros Hl. unfold binaryToHex. rewrite length_bitString, Hl.
  replace ((4 * n + 3) / 4)%nat with n.
  2:{ apply Nat.div_unique with 3%nat; lia. }
  pose proof (binaryToHex_loop_bits n bs "" "" Hl) as H.
  by rewrite !append_nil_l in H.
Qed.

Lemma nibble_char (b3 b2 b1 b0 : bool) :
  let c := Js.digitChar (Spec.bitsValueFrom 0 [b3; b2; b1; b0]) in
  Spec.isLowerHexDigit c = true
  /\ Spec.hexDigit c = Some (Spec.bitsValueFrom 0 [b3; b2; b1; b0]).
Proof. by destruct b3, b2, b1, b0. Qed.

Lemma hexOfBits_facts (n : nat) (bs : list bool) (a : N) :
  length bs = (4 * n)%nat ->
  String.length (Spec.hexOfBits bs) = n
  /\ Spec.isCanonical (Spec.hexOfBits bs) = true
  /\ fold_left (fun v c => (v * 16 + default 0 (Spec.hexDigit c))%N)
       (Spec.chars (Spec.hexOfBits bs)) a
     = Spec.bitsValueFrom a bs.
Proof.
  revert bs a; induction n as [|n IH]; intros bs a Hl.
  - by destruct bs.
  - destruct bs as [|b3 [|b2 [|b1 [|b0 bs]]]]; simpl in Hl; try lia.
    destruct (IH bs (Spec.bitsValueFrom a [b3; b2; b1; b0])) as (IH1 & IH2 & IH3); [lia|].
    destruct (nibble_char b3 b2 b1 b0) as [Hlow Hdig].
    unfold Spec.isCanonical, Spec.chars in *.
    cbn [Spec.hexOfBits]. split; [simpl; by rewrite IH1|]. split.
    + cbn [list_ascii_of_string forallb]. by rewrite Hlow, IH2.
    + cbn [list_ascii_of_string fold_left]. rewrite Hdig.
      cbn [from_option].
      replace (a * 16 + Datatypes.id (Spec.bitsValueFrom 0 [b3; b2; b1; b0]))%N
        with (Spec.bitsValueFrom a [b3; b2; b1; b0]).
      2:{ unfold Spec.bitsValueFrom, Datatypes.id. simpl.
          destruct b3, b2, b1, b0; simpl; lia. }
      rewrite IH3. unfold Spec.bitsValueFrom. done.
Qed.

Lemma bitsValueFrom_bound (bs : list bool) (a : N) :
  (Spec.bitsValueFrom a bs
   = a * 2 ^ N.of_nat (length bs) + Spec.bitsValueFrom 0 bs)%N
  /\ (Spec.bitsValueFrom 0 bs < 2 ^ N.of_nat (length bs))%N.
Proof.
  revert a; induction bs as [|b bs IH]; intros a.
  - unfold Spec.bitsValueFrom. simpl. lia.
  - unfold Spec.bitsValueFrom in *. cbn [fold_left length].
    destruct (IH (2 * a + N.b2n b)%N) as [E1 _].
    destruct (IH (2 * 0 + N.b2n b)%N) as [E2 H2].
    destruct (IH 0%N) as [_ H0].
    rewrite Nat2N.inj_succ, N.pow_succ_r'.
    rewrite E1, E2. split; [lia|].
    destruct b; simpl N.b2n in *; lia.
Qed.

Lemma testbit_bitsValueFrom (bs : list bool) (a : N) (k : nat) :
  (k < length bs)%nat ->
  N.testbit (Spec.bitsValueFrom a bs) (N.of_nat (length bs - 1 - k)) = nth k bs false.
Proof.
  revert a k; induction bs as [|b bs IH]; intros a k Hk; simpl in Hk; [lia|].
  destruct k as [|k].
  - cbn [nth length]. replace (S (length bs) - 1 - 0)%nat with (length bs) by lia.
    unfold Spec.bitsValueFrom. cbn [fold_left].
    fold (Spec.bitsValueFrom (2 * a + N.b2n b) bs).
    destruct (bitsValueFrom_bound bs (2 * a + N.b2n b)) as [E Hlt].
    rewrite E.
    rewrite <- (N.add_0_l (N.of_nat (length bs))) at 2.
    rewrite <- N.div_pow2_bits.
    rewrite N.div_add_l by (apply N.pow_nonzero; lia).
    rewrite N.div_small by exact Hlt. rewrite N.add_0_r.
    apply N.testbit_0_r.
  - cbn [nth length]. replace (S (length bs) - 1 - S k)%nat with (length bs - 1 - k)%nat by lia.
    unfold Spec.bitsValueFrom. cbn [fold_left].
    apply IH. lia.
Qed.

End DHash.

(** ** The claims on fingerprints *)

Section FingerprintClaims.

Import DuplicateDetection.

Lemma sampleAt_defined (pixels : list byte) (row col : nat) :
  length pixels = 288%nat -> (row < 8)%nat -> (col < 9)%nat ->
  exists rgb, Spec.sampleAt pixels row col = Some rgb.
Proof.
  intros Hl Hr Hc. unfold Spec.sampleAt.
  destruct (lookup_lt_is_Some_2 pixels (4 * (9 * row + col))) as [r ->]; [lia|].
  destruct (lookup_lt_is_Some_2 pixels (4 * (9 * row + col) + 1)) as [g ->]; [lia|].
  destruct (lookup_lt_is_Some_2 pixels (4 * (9 * row + col) + 2)) as [b ->]; [lia|].
  by eexists.
Qed.

(** For a sample whose luminance is not halfway between two integers the
    code's rounded gray value is the rounded luminance of the design
    document. *)
Lemma grayAt_rounded (pixels : list byte) (row col : nat) (rgb : byte * byte * byte) :
  Spec.sampleAt pixels row col = Some rgb ->
  Spec.halfway rgb = false ->
  grayAt pixels (4 * (9 * row + col)) = Number.ofZ (Spec.roundedLuminance rgb)
  /\ (0 <= Spec.roundedLuminance rgb < 256)%Z.
Proof.
  unfold Spec.sampleAt, grayAt.
  destruct (pixels !! _) as [r|]; [|done].
  destruct (pixels !! _) as [g|]; [|done].
  destruct (pixels !! _) as [b|]; [|done].
  intros [= <-] Hhalf. by apply round_gray.
Qed.

(** The luminance of a gray sample is its level, never halfway. *)
Lemma gray_not_halfway (rgb : byte * byte * byte) :
  Spec.isGray rgb = true -> Spec.halfway rgb = false.
Proof.
  destruct rgb as [[r g] b]. cbn [Spec.isGray].
  intros [<-%Byte.byte_dec_bl <-%Byte.byte_dec_bl]%andb_prop.
  unfold Spec.halfway, Spec.luminance1000. apply Z.eqb_neq.
  replace (299 * Z.of_N (Byte.to_N r) + 587 * Z.of_N (Byte.to_N r)
           + 114 * Z.of_N (Byte.to_N r))%Z
    with (Z.of_N (Byte.to_N r) * 1000)%Z by ring.
  by rewrite Z.mod_mul.
Qed.

(** Doubles of the levels 0 to 255 compare as the levels do. *)
Lemma ltb_levels :
  forallb
    (fun v => forallb
                (fun w => Bool.eqb (Number.ltb (Number.ofZ v) (Number.ofZ w)) (v <? w)%Z)
                (seqZ 0 256))
    (seqZ 0 256)
  = true.
Proof. vm_compute. reflexivity. Qed.

Lemma ltb_ofZ (v w : Z) :
  (0 <= v < 256)%Z -> (0 <= w < 256)%Z ->
  Number.ltb (Number.ofZ v) (Number.ofZ w) = (v <? w)%Z.
Proof.
  intros Hv Hw. pose proof ltb_levels as H. rewrite forallb_forall in H.
  assert (Hin : forall z, (0 <= z < 256)%Z -> In z (seqZ 0 256)).
  { intros z Hz. apply list_elem_of_In, elem_of_seqZ. lia. }
  specialize (H v (Hin v Hv)). rewrite forallb_forall in H.
  specialize (H w (Hin w Hw)). by apply eqb_prop in H.
Qed.

(** C3, as the code has it: the fingerprint of a 9 by 8 grid has 16
    hexadecimal characters, and its bit at [row] and [col], the bits
    taken row by row from the most significant one, is 1 exactly when
    the gray value of the sample at column [col] of that row, which is
    0.299 R + 0.587 G + 0.114 B computed and rounded in binary64, is
    strictly less than that of the sample at column [col + 1]. Between
    two samples whose luminance is not exactly halfway between two
    integers (gray samples, R = G = B, among them) that is the
    comparison of the rounded luminances of the design document. *)
Theorem calculateImageHash_dHash (pixels : list byte) (naturalWidth naturalHeight : nat) :
  length pixels = 288%nat ->
  let fingerprint := hash (calculateImageHash pixels naturalWidth naturalHeight) in
  String.length fingerprint = 16%nat
  /\ Spec.isFingerprint fingerprint = true
  /\ Spec.isCanonical fingerprint = true
  /\ (forall row col, (row < 8)%nat -> (col < 8)%nat ->
        Spec.fingerprintBit fingerprint (8 * row + col)
        = Number.ltb (grayAt pixels (4 * (9 * row + col)))
                     (grayAt pixels (4 * (9 * row + (col + 1)))))
  /\ (forall row col left right, (row < 8)%nat -> (col < 8)%nat ->
        Spec.sampleAt pixels row col = Some left ->
        Spec.sampleAt pixels row (col + 1) = Some right ->
        Spec.halfway left = false -> Spec.halfway right = false ->
        Spec.fingerprintBit fingerprint (8 * row + col)
        = (Spec.roundedLuminance left <? Spec.roundedLuminance right)%Z)
  /\ (forall rgb, Spec.isGray rgb = true -> Spec.halfway rgb = false).
Proof.
  intros Hl fingerprint.
  assert (Hf : fingerprint = Spec.hexOfBits (Spec.dHashBools (toGrayPixels pixels))).
  { unfold fingerprint, calculateImageHash. cbn [hash].
    rewrite dHashBits_bools. by apply (binaryToHex_bits _ 16). }
  assert (Hlen : length (Spec.dHashBools (toGrayPixels pixels)) = (4 * 16)%nat) by reflexivity.
  destruct (hexOfBits_facts 16 _ 0%N Hlen) as (H16 & Hcan & Hval).
  rewrite <- Hf in H16, Hcan, Hval.
  assert (Hbit : forall row col, (row < 8)%nat -> (col < 8)%nat ->
            Spec.fingerprintBit fingerprint (8 * row + col)
            = Number.ltb (grayAt pixels (4 * (9 * row + col)))
                         (grayAt pixels (4 * (9 * row + (col + 1))))).
  { intros row col Hr Hc.
    unfold Spec.fingerprintBit, Spec.fingerprintValue. rewrite Hval.
    replace (63 - (8 * row + col))%nat
      with (length (Spec.dHashBools (toGrayPixels pixels)) - 1 - (8 * row + col))%nat
      by (rewrite Hlen; lia).
    rewrite testbit_bitsValueFrom by (rewrite Hlen; lia).
    rewrite dHashBools_nth by done.
    unfold Spec.rightIsBrighter.
    rewrite !grayPixel_toGrayPixels by lia.
    replace (4 * (row * 9 + col))%nat with (4 * (9 * row + col))%nat by lia.
    by replace (4 * (row * 9 + col + 1))%nat with (4 * (9 * row + (col + 1)))%nat by lia. }
  split; [exact H16|]. split.
  { unfold Spec.isFingerprint. rewrite H16. simpl. by apply canonical_hex. }
  split; [exact Hcan|]. split; [exact Hbit|]. split; [|exact gray_not_halfway].
  intros row col left right Hr Hc Hleft Hright Hgl Hgr.
  rewrite Hbit by done.
  destruct (grayAt_rounded _ _ _ _ Hleft Hgl) as [-> ?].
  destruct (grayAt_rounded _ _ _ _ Hright Hgr) as [-> ?].
  by apply ltb_ofZ.
Qed.

Lemma calculateImageHash_dHash_witness :
  hash (calculateImageHash (concat (repeat [x00; x00; x00; xff; xff; xff; xff; xff] 36)) 640 480)
  = "aa55aa55aa55aa55"
  /\ String.length
       (hash (calculateImageHash
                (concat (repeat [x00; x00; x00; xff; xff; xff; xff; xff] 36)) 640 480))
     = 16%nat.
Proof.
  split; [reflexivity|].
  exact (proj1 (calculateImageHash_dHash
                  (concat (repeat [x00; x00; x00; xff; xff; xff; xff; xff] 36)) 640 480
                  eq_refl)).
Defined.

(** C3 fails as stated: the colour (0, 80, 110) has the luminance 59.5,
    which rounds to 60, the luminance of (60, 60, 60) to its right in
    [halfwayGrid]; the code computes 59.49999999999999 in binary64,
    rounds it to 59, and sets the bit. *)
Lemma calculateImageHash_halfway :
  Spec.sampleAt Spec.halfwayGrid 0 0 = Some (x00, x50, x6e)
  /\ Spec.sampleAt Spec.halfwayGrid 0 1 = Some (x3c, x3c, x3c)
  /\ (Spec.luminance (x00, x50, x6e) == 595 # 10)%Q
  /\ Spec.halfway (x00, x50, x6e) = true
  /\ Spec.roundedLuminance (x00, x50, x6e) = 60%Z
  /\ Spec.roundedLuminance (x3c, x3c, x3c) = 60%Z
  /\ grayAt Spec.halfwayGrid 0 = Number.ofZ 59
  /\ hash (calculateImageHash Spec.halfwayGrid 640 480) = "aa55aa55aa55aa55"
  /\ Spec.fingerprintBit
       (hash (calculateImageHash Spec.halfwayGrid 640 480)) 0 = true.
Proof. repeat split; vm_compute; reflexivity. Qed.

(** C4: for two fingerprints of 16 hexadecimal characters the distance is
    the number of bits in which the two 64-bit values differ; it lies
    between 0 and 64, is symmetric, and is 0 exactly when the two values
    are equal (for the lower-case strings the fingerprinter writes: when
    the two strings are equal); the similarity is 100 * (64 - d) / 64 and
    is strictly smaller for a strictly greater distance. *)
Theorem calculateSimilarity_of_fingerprints (h1 h2 : string) :
  Spec.isFingerprint h1 = true -> Spec.isFingerprint h2 = true ->
  let d := Spec.hamming (Spec.fingerprintValue h1) (Spec.fingerprintValue h2) in
  calculateHammingDistance h1 h2 = Finite d
  /\ (0 <= d <= 64)%nat
  /\ calculateHammingDistance h2 h1 = calculateHammingDistance h1 h2
  /\ (d = 0%nat <-> Spec.fingerprintValue h1 = Spec.fingerprintValue h2)
  /\ (Spec.isCanonical h1 = true -> Spec.isCanonical h2 = true ->
      (d = 0%nat <-> h1 = h2))
  /\ (calculateSimilarity h1 h2 == 100 * (64 - inject_Z (Z.of_nat d)) / 64)%Q
  /\ (forall h3 h4 d',
        Spec.isFingerprint h3 = true -> Spec.isFingerprint h4 = true ->
        calculateHammingDistance h3 h4 = Finite d' ->
        (d < d')%nat ->
        (calculateSimilarity h3 h4 < calculateSimilarity h1 h2)%Q).
Proof.
  intros [Hl1%Nat.eqb_eq Hx1]%andb_true_iff [Hl2%Nat.eqb_eq Hx2]%andb_true_iff d.
  assert (Hl : String.length h1 = String.length h2) by congruence.
  assert (Hd : calculateHammingDistance h1 h2 = Finite d).
  { rewrite calculateHammingDistance_hex by done. by rewrite mismatches_hamming. }
  assert (Hle : (d <= 64)%nat).
  { unfold d. rewrite <- mismatches_hamming by done.
    etransitivity; [apply mismatches_le|]. rewrite length_hexBits. lia. }
  assert (Hsim : (calculateSimilarity h1 h2 == Spec.similarityOf d)%Q).
  { unfold calculateSimilarity. rewrite Hd. by apply similarity_of_distance. }
  split; [exact Hd|]. split; [lia|]. split.
  { rewrite Hd, calculateHammingDistance_hex by done.
    rewrite mismatches_hamming by done. by rewrite hamming_comm. }
  split; [apply hamming_zero|]. split.
  { intros Hc1 Hc2. split; [|intros ->; by apply hamming_zero].
    intros Hz. apply canonical_hexBits_inj; [done..|].
    apply mismatches_zero; [by rewrite !length_hexBits, Hl|].
    by rewrite mismatches_hamming. }
  split; [exact Hsim|].
  intros h3 h4 d' [Hl3%Nat.eqb_eq Hx3]%andb_true_iff [Hl4%Nat.eqb_eq Hx4]%andb_true_iff Hd' Hlt.
  assert (Hle' : (d' <= 64)%nat).
  { rewrite calculateHammingDistance_hex in Hd' by (done || congruence).
    injection Hd' as <-. etransitivity; [apply mismatches_le|].
    rewrite length_hexBits. lia. }
  unfold calculateSimilarity at 1. rewrite Hd'.
  rewrite similarity_of_distance by done. rewrite Hsim.
  by apply similarityOf_decreasing.
Qed.

Lemma calculateSimilarity_of_fingerprints_witness :
  calculateHammingDistance "ffff000000000000" "0000000000000000" = Finite 16
  /\ (calculateSimilarity "ffff000000000000" "0000000000000000" == 75)%Q.
Proof.
  pose proof (calculateSimilarity_of_fingerprints
                "ffff000000000000" "0000000000000000" eq_refl eq_refl) as H.
  split; [exact (proj1 H)|].
  destruct H as (_ & _ & _ & _ & _ & Hs & _). rewrite Hs. reflexivity.
Defined.

End FingerprintClaims.

(** ** The clusterer *)

Section Clusterer.

Import DuplicateDetection.

Variable imageHashes : Map.

Lemma findSimilar_grows (t : Q) (h1 : ImageHash) (later sims : list string)
    (P : gset string) :
  exists added,
    (findSimilar imageHashes t h1 later sims P).1 = sims ++ added
    /\ Forall (fun y => exists hy, get imageHashes y = Some hy
                                   /\ Spec.meets t h1 hy = true) added
    /\ (added = [] -> (findSimilar imageHashes t h1 later sims P).2 = P).
Proof.
  revert sims P; induction later as [|y later IH]; intros sims P.
  - exists []. simpl. by rewrite app_nil_r.
  - cbn [findSimilar]. destruct (decide (y ∈ P)); [apply IH|].
    destruct (get imageHashes y) as [hy|] eqn:Hy; [|apply IH].
    destruct (Qle_bool t _) eqn:Hm; [|apply IH].
    destruct (IH (sims ++ [y]) ({[y]} ∪ P)) as (added & E & Hall & _).
    exists (y :: added). split; [by rewrite E, <- app_assoc|].
    split; [|done]. constructor; [|done]. by exists hy.
Qed.

Lemma findGroups_invariant (t : Q) (ids : list string) (groups : list DuplicateGroup)
    (P : gset string) :
  Forall (Spec.seeded imageHashes t) groups ->
  (forall i g, groups !! i = Some g -> id g = groupId (S i)) ->
  exists more,
    findGroups imageHashes t ids groups P = groups ++ more
    /\ Forall (Spec.seeded imageHashes t) (groups ++ more)
    /\ (forall i g, (groups ++ more) !! i = Some g -> id g = groupId (S i)).
Proof.
  revert groups P; induction ids as [|x later IH]; intros groups P Hs Hid.
  - exists []. by rewrite app_nil_r.
  - cbn [findGroups]. destruct (decide (x ∈ P)); [by apply IH|].
    destruct (get imageHashes x) as [hx|] eqn:Hx; [|by apply IH].
    destruct (findSimilar imageHashes t hx later [x] P) as [sims P'] eqn:Hf.
    destruct (findSimilar_grows t hx later [x] P) as (added & E & Hall & _).
    rewrite Hf in E. cbn [fst] in E.
    destruct (1 <? length sims)%nat eqn:Hlen; [|by apply IH].
    edestruct (IH (groups ++ [ {| id := groupId (length groups + 1); photos := sims;
                                  similarity := t |} ])) as (more & E' & Hs' & Hid').
    + apply Forall_app. split; [done|]. constructor; [|done].
      exists x, hx, added. cbn [photos]. split; [done|]. split; [|done].
      intros ->. subst sims. simpl in Hlen. discriminate.
    + intros i g Hi. apply lookup_app_Some in Hi as [Hi|[Hge Hi]]; [by apply Hid|].
      apply list_lookup_singleton_Some in Hi as [Hi <-]. cbn [id].
      f_equal. lia.
    + exists ({| id := groupId (length groups + 1); photos := sims; similarity := t |} :: more).
      rewrite E', <- !app_assoc in *. done.
Qed.

Lemma findDuplicateGroups_seeded (t : Q) :
  Forall (Spec.seeded imageHashes t) (findDuplicateGroups imageHashes t)
  /\ (forall i g, findDuplicateGroups imageHashes t !! i = Some g -> id g = groupId (S i)).
Proof.
  unfold findDuplicateGroups.
  destruct (findGroups_invariant t (keys imageHashes) [] ∅) as (more & E & Hs & Hid);
    [done | done |].
  rewrite E. done.
Qed.

(** *** The loops against the greedy clustering of the design document *)

Lemma get_entry (m : list (string * ImageHash)) (k : string) (v : ImageHash) :
  NoDup (keys m) -> (k, v) ∈ m -> get m k = Some v.
Proof.
  induction m as [|[k' v'] m IH]; intros Hnd Hin; [by apply elem_of_nil in Hin|].
  cbn [keys map fst] in Hnd. apply NoDup_cons in Hnd as [Hk' Hnd].
  cbn [get]. apply elem_of_cons in Hin as [[= -> ->]|Hin].
  - by rewrite String.eqb_refl.
  - destruct (String.eqb_spec k' k) as [->|_]; [|by apply IH].
    exfalso. apply Hk'. apply list_elem_of_fmap. by exists (k, v).
Qed.

Lemma filter_agree {A} (f g : A -> bool) (l : list A) :
  (forall x, x ∈ l -> f x = g x) ->
  filter (fun x => f x = true) l = filter (fun x => g x = true) l.
Proof.
  induction l as [|x l IH]; intros H; [done|].
  rewrite !filter_cons. rewrite IH by (intros y Hy; apply H; by right).
  rewrite (H x) by (by left). done.
Qed.

Lemma findSimilar_filter (t : Q) (h1 : ImageHash) (later : list (string * ImageHash))
    (sims : list string)
    (P : gset string) :
  NoDup (keys later) ->
  (forall e, e ∈ later -> get imageHashes e.1 = Some e.2) ->
  let joiners :=
    filter (fun e => bool_decide (e.1 ∉ P) && Spec.meets t h1 e.2 = true) later in
  findSimilar imageHashes t h1 (keys later) sims P
  = (sims ++ map fst joiners, list_to_set (map fst joiners) ∪ P).
Proof.
  revert sims P; induction later as [|[y hy] later IH]; intros sims P Hnd Hget joiners.
  - subst joiners. simpl. rewrite app_nil_r. f_equal. set_solver.
  - cbn [keys map fst] in Hnd. apply NoDup_cons in Hnd as [Hy Hnd].
    assert (Hget' : forall e, e ∈ later -> get imageHashes e.1 = Some e.2).
    { intros e He. apply Hget. by right. }
    subst joiners. rewrite filter_cons. cbn [keys map fst snd findSimilar].
    destruct (decide (y ∈ P)) as [Hin|Hnin].
    { rewrite bool_decide_eq_false_2 by (intros Hc; by apply Hc). cbn [andb].
      rewrite decide_False by done. by apply IH. }
    rewrite bool_decide_eq_true_2 by done. cbn [andb].
    assert (Hgy : get imageHashes y = Some hy) by (apply (Hget (y, hy)); by left).
    rewrite Hgy. fold (Spec.meets t h1 hy).
    destruct (decide (Spec.meets t h1 hy = true)) as [Hm|Hm].
    2:{ apply not_true_is_false in Hm. rewrite Hm. by apply IH. }
    rewrite Hm.
    rewrite (IH (sims ++ [y]) ({[y]} ∪ P)) by done.
    assert (Hsame :
      filter (fun e => bool_decide (e.1 ∉ {[y]} ∪ P) && Spec.meets t h1 e.2 = true) later
      = filter (fun e => bool_decide (e.1 ∉ P) && Spec.meets t h1 e.2 = true) later).
    { apply filter_agree. intros e He. f_equal. apply bool_decide_ext.
      assert (e.1 <> y).
      { intros Heq. apply Hy. rewrite <- Heq. apply list_elem_of_fmap. by exists e. }
      set_solver. }
    rewrite Hsame. cbn [map fst]. rewrite <- app_assoc. f_equal. set_solver.
Qed.

Lemma findGroups_cluster (t : Q) (later : list (string * ImageHash))
    (groups : list DuplicateGroup)
    (P : gset string) (assigned : list string) :
  NoDup (keys later) ->
  (forall e, e ∈ later -> get imageHashes e.1 = Some e.2) ->
  (forall k, k ∈ keys later -> k ∈ P <-> k ∈ assigned) ->
  findGroups imageHashes t (keys later) groups P
  = groups ++ Spec.cluster t later assigned (length groups).
Proof.
  revert groups P assigned; induction later as [|[x hx] later IH];
    intros groups P assigned Hnd Hget Hagree.
  - simpl. by rewrite app_nil_r.
  - cbn [keys map fst] in Hnd, Hagree. apply NoDup_cons in Hnd as [Hx Hnd].
    assert (Hget' : forall e, e ∈ later -> get imageHashes e.1 = Some e.2).
    { intros e He. apply Hget. by right. }
    assert (Hne : forall k, k ∈ keys later -> k <> x).
    { intros k Hk ->. by apply Hx. }
    cbn [keys map fst findGroups Spec.cluster].
    destruct (decide (x ∈ P)) as [Hin|Hnin].
    { rewrite bool_decide_eq_true_2 by (apply Hagree; [by left | done]).
      apply IH; [done | done |]. intros k Hk. apply Hagree. by right. }
    rewrite bool_decide_eq_false_2 by (intros Hc; apply Hnin, Hagree; [by left | done]).
    assert (Hgx : get imageHashes x = Some hx) by (apply (Hget (x, hx)); by left).
    rewrite Hgx. rewrite findSimilar_filter by done.
    assert (Hsame :
      filter (fun e => bool_decide (e.1 ∉ P) && Spec.meets t hx e.2 = true) later
      = filter (fun e => Spec.joins t hx assigned e = true) later).
    { apply filter_agree. intros e He. unfold Spec.joins. f_equal.
      apply bool_decide_ext.
      assert (e.1 ∈ keys later) by (apply list_elem_of_fmap; by exists e).
      split; intros Hn Hc; apply Hn; by apply (Hagree e.1); [right|]. }
    rewrite Hsame.
    destruct (filter (fun e => Spec.joins t hx assigned e = true) later)
      as [|j joiners] eqn:Hj.
    + cbn [map app length Nat.ltb Nat.leb].
      apply IH; [done | done |]. intros k Hk.
      assert (k <> x) by by apply Hne.
      rewrite <- (Hagree k) by (by right). set_solver.
    + cbn [map app length]. 
      replace (1 <? S (S (length (map fst joiners))))%nat with true by done.
      rewrite (IH _ _ (assigned ++ map fst (j :: joiners))); [| done | done |].
      * rewrite <- app_assoc. cbn [app]. rewrite length_app. cbn [length].
        unfold groupId. by rewrite !Nat.add_1_r.
      * intros k Hk. assert (k <> x) by by apply Hne.
        rewrite elem_of_app. rewrite <- (Hagree k) by (by right).
        cbn [map]. rewrite !elem_of_union, elem_of_list_to_set, !elem_of_cons.
        rewrite elem_of_list_to_set, elem_of_cons. tauto.
Qed.

(** *** Thresholds *)

Lemma meets_mono (t1 t2 : Q) (seed candidate : ImageHash) :
  (t1 <= t2)%Q ->
  Spec.meets t2 seed candidate = true -> Spec.meets t1 seed candidate = true.
Proof.
  unfold Spec.meets. intros Hle H2. apply Qle_bool_iff in H2. apply Qle_bool_iff.
  by apply Qle_trans with t2.
Qed.

Lemma findSimilar_none (t1 t2 : Q) (h1 : ImageHash) (later sims : list string)
    (P : gset string) :
  (t1 <= t2)%Q ->
  length (findSimilar imageHashes t1 h1 later sims P).1 = length sims ->
  findSimilar imageHashes t1 h1 later sims P = (sims, P)
  /\ findSimilar imageHashes t2 h1 later sims P = (sims, P).
Proof.
  intros Hle. revert sims P; induction later as [|y later IH]; intros sims P Hlen; [done|].
  cbn [findSimilar] in *. destruct (decide (y ∈ P)); [by apply IH|].
  destruct (get imageHashes y) as [hy|] eqn:Hy; [|by apply IH].
  fold (Spec.meets t1 h1 hy) in *. fold (Spec.meets t2 h1 hy).
  destruct (Spec.meets t1 h1 hy) eqn:H1.
  - exfalso.
    destruct (findSimilar_grows t1 h1 later (sims ++ [y]) ({[y]} ∪ P)) as (added & E & _).
    rewrite E, !length_app in Hlen. simpl in Hlen. lia.
  - destruct (Spec.meets t2 h1 hy) eqn:H2; [|by apply IH].
    apply (meets_mono t1 t2) in H2; [congruence | done].
Qed.

Lemma findGroups_none (t1 t2 : Q) (ids : list string) (P : gset string) :
  (t1 <= t2)%Q ->
  findGroups imageHashes t1 ids [] P = [] ->
  findGroups imageHashes t2 ids [] P = [].
Proof.
  intros Hle. revert P; induction ids as [|x later IH]; intros P H1; [done|].
  cbn [findGroups] in *. destruct (decide (x ∈ P)); [by apply IH|].
  destruct (get imageHashes x) as [hx|] eqn:Hx; [|by apply IH].
  destruct (findSimilar imageHashes t1 hx later [x] P) as [sims1 P1] eqn:Hf1.
  destruct (1 <? length sims1)%nat eqn:Hlen.
  - exfalso. cbn [app] in H1.
    destruct (findGroups_invariant t1 later
                [ {| id := groupId (0 + 1); photos := sims1; similarity := t1 |} ]
                (list_to_set sims1 ∪ P1)) as (more & E & _).
    + constructor; [|done].
      destruct (findSimilar_grows t1 hx later [x] P) as (added & Ea & Hall & _).
      rewrite Hf1 in Ea. cbn [fst] in Ea. exists x, hx, added. cbn [photos].
      split; [done|]. split; [|done]. intros ->. subst sims1. discriminate.
    + intros [|i] g Hi; [|done]. by injection Hi as <-.
    + cbn [length] in H1. rewrite E in H1. discriminate.
  - apply Nat.ltb_ge in Hlen.
    destruct (findSimilar_grows t1 hx later [x] P) as (added & Ea & _).
    rewrite Hf1 in Ea. cbn [fst] in Ea.
    destruct (findSimilar_none t1 t2 hx later [x] P Hle) as [E1 E2].
    { rewrite Hf1. cbn [fst]. subst sims1. rewrite length_app in *. simpl in *. lia. }
    rewrite E2. rewrite E1 in Hf1. injection Hf1 as <- <-. cbn [length Nat.ltb Nat.leb] in *.
    by apply IH.
Qed.

End Clusterer.

Section ClustererClaims.

Import DuplicateDetection.

(** C1: on a map (distinct ids, in insertion order) the clusterer is the
    greedy clustering of the design document: the ids are visited in
    order; an id not yet assigned is a seed, and the later ids not yet
    assigned whose similarity to the seed reaches the threshold join it
    and are assigned; the seed with its members is emitted, with the next
    group id, exactly when there is at least one member. So every group
    has a seed and one member or more, each member compared with the seed
    alone, and the groups are numbered 1, 2, 3, ... *)
Theorem findDuplicateGroups_greedy (imageHashes : Map) (similarityThreshold : Q) :
  NoDup (keys imageHashes) ->
  findDuplicateGroups imageHashes similarityThreshold
  = Spec.cluster similarityThreshold imageHashes [] 0
  /\ Forall (Spec.seeded imageHashes similarityThreshold)
       (findDuplicateGroups imageHashes similarityThreshold)
  /\ Forall (fun g => (1 < length (photos g))%nat
                      /\ similarity g = similarityThreshold)
       (findDuplicateGroups imageHashes similarityThreshold)
  /\ (forall i g,
        findDuplicateGroups imageHashes similarityThreshold !! i = Some g ->
        id g = "dup_group_" +:+ pretty (S i)).
Proof.
  intros Hnd.
  assert (Heq : findDuplicateGroups imageHashes similarityThreshold
                = Spec.cluster similarityThreshold imageHashes [] 0).
  { unfold findDuplicateGroups.
    rewrite (findGroups_cluster imageHashes similarityThreshold imageHashes [] ∅ []);
      [done | done | | ].
    - intros [k v] He. by apply get_entry.
    - intros k _. set_solver. }
  destruct (findDuplicateGroups_seeded imageHashes similarityThreshold) as [Hs Hid].
  split; [exact Heq|]. split; [exact Hs|]. split; [|exact Hid].
  rewrite Heq. clear.
  assert (Hall : forall assigned n,
             Forall (fun g => (1 < length (photos g))%nat
                              /\ similarity g = similarityThreshold)
               (Spec.cluster similarityThreshold imageHashes assigned n)).
  { induction imageHashes as [|[x hx] later IH]; intros assigned n; [constructor|].
    cbn [Spec.cluster]. case_bool_decide; [apply IH|].
    destruct (filter _ later) as [|j joiners]; [apply IH|].
    constructor; [|apply IH]. cbn [photos similarity length map]. split; [lia | done]. }
  apply Hall.
Qed.

Lemma findDuplicateGroups_greedy_witness :
  findDuplicateGroups Spec.fourPhotos 90
  = Spec.cluster 90 Spec.fourPhotos [] 0.
Proof.
  apply (findDuplicateGroups_greedy Spec.fourPhotos 90).
  apply (bool_decide_unpack (NoDup (keys Spec.fourPhotos))). vm_compute. exact I.
Defined.

(** C2, as the code has it: when the threshold is raised from t1 to t2,
    every pair that reaches t2 reaches t1, and a map without any group at
    t1 has none at t2. *)
Theorem findDuplicateGroups_threshold (imageHashes : Map) (t1 t2 : Q) :
  (t1 <= t2)%Q ->
  (forall seed candidate,
     Spec.meets t2 seed candidate = true -> Spec.meets t1 seed candidate = true)
  /\ (findDuplicateGroups imageHashes t1 = [] ->
      findDuplicateGroups imageHashes t2 = []).
Proof.
  intros Hle. split.
  - intros seed candidate. by apply meets_mono.
  - unfold findDuplicateGroups. by apply findGroups_none.
Qed.

Lemma findDuplicateGroups_threshold_witness :
  (70 <= 90)%Q /\ findDuplicateGroups Spec.mixedLengths 90 = [].
Proof.
  assert (Hle : (70 <= 90)%Q) by (vm_compute; discriminate).
  split; [exact Hle|].
  apply (proj2 (findDuplicateGroups_threshold Spec.mixedLengths 70 90 Hle)).
  reflexivity.
Defined.

(** C2 fails as stated: raising the threshold from 70 to 90 turns the one
    group of [fourPhotos] into two. *)
Lemma threshold_raises_group_count :
  (70 <= 90)%Q
  /\ length (findDuplicateGroups Spec.fourPhotos 70) = 1%nat
  /\ length (findDuplicateGroups Spec.fourPhotos 90) = 2%nat
  /\ ~ (length (findDuplicateGroups Spec.fourPhotos 90)
        <= length (findDuplicateGroups Spec.fourPhotos 70))%nat.
Proof.
  split; [vm_compute; discriminate|]. split; [reflexivity|]. split; [reflexivity|].
  vm_compute. lia.
Qed.

(** C10, as the code has it: for two hashes of unequal length the distance
    is [Infinity] and the similarity 0, and at a positive threshold no
    group holds two photos whose hashes have unequal lengths. *)
Theorem unequal_lengths_never_clustered (hash1 hash2 : string) :
  String.length hash1 <> String.length hash2 ->
  calculateHammingDistance hash1 hash2 = Infinity
  /\ calculateSimilarity hash1 hash2 = 0%Q
  /\ forall (imageHashes : Map) (similarityThreshold : Q) id1 id2 h1 h2 g,
       (0 < similarityThreshold)%Q ->
       get imageHashes id1 = Some h1 -> hash h1 = hash1 ->
       get imageHashes id2 = Some h2 -> hash h2 = hash2 ->
       g ∈ findDuplicateGroups imageHashes similarityThreshold ->
       ~ (id1 ∈ photos g /\ id2 ∈ photos g).
Proof.
  intros Hne. split; [by apply calculateHammingDistance_lengths|].
  split; [by apply calculateSimilarity_lengths|].
  intros imageHashes t id1 id2 h1 h2 g Ht H1 E1 H2 E2 Hg [Hin1 Hin2].
  destruct (findDuplicateGroups_seeded imageHashes t) as [Hs _].
  rewrite Forall_forall in Hs. destruct (Hs g Hg) as (seed & hs & members & Ep & _ & Hseed & Hall).
  assert (Hsame : forall y hy, y ∈ photos g -> get imageHashes y = Some hy ->
                    String.length (hash hs) = String.length (hash hy)).
  { intros y hy Hy Hgy. rewrite Ep in Hy. apply elem_of_cons in Hy as [->|Hy].
    - congruence.
    - rewrite Forall_forall in Hall. destruct (Hall y Hy) as (hy' & Hgy' & Hm).
      assert (hy' = hy) as -> by congruence.
      apply calculateSimilarity_positive. unfold Spec.meets in Hm.
      apply Qle_bool_iff in Hm. by apply Qlt_le_trans with t. }
  apply Hne. rewrite <- E1, <- E2.
  rewrite <- (Hsame id1 h1), <- (Hsame id2 h2); done.
Qed.

Lemma unequal_lengths_never_clustered_witness :
  calculateSimilarity "0000000000000000" "12345678" = 0%Q.
Proof.
  apply (unequal_lengths_never_clustered "0000000000000000" "12345678").
  vm_compute. discriminate.
Defined.

(** C10 fails as stated: at threshold 0 the similarity 0 of a dHash and a
    shorter checksum reaches the threshold, and the two are one group. *)
Lemma unequal_lengths_clustered_at_zero :
  String.length "0000000000000000" <> String.length "12345678"
  /\ calculateSimilarity "0000000000000000" "12345678" = 0%Q
  /\ map photos (findDuplicateGroups Spec.mixedLengths 0) = [["a"; "b"]].
Proof.
  split; [vm_compute; discriminate|]. split; reflexivity.
Qed.

End ClustererClaims.

(** ** The preview scanner *)

Section PreviewScanner.

Import RawThumbnailExtractor.

Implicit Types (data marker : list byte) (i j k n : nat).

Lemma at_nat data i : at_ data (Z.of_nat i) = data !! i.
Proof.
  unfold at_. destruct (Z.of_nat i <? 0)%Z eqn:E; [apply Z.ltb_lt in E; lia|].
  by rewrite Nat2Z.id.
Qed.

Lemma drop_lookup_cons data i x : data !! i = Some x -> drop i data = x :: drop (S i) data.
Proof.
  revert i; induction data as [|y data IH]; intros [|i] H; simpl in *; try done.
  - by injection H as ->.
  - by apply IH.
Qed.

Lemma drop_lookup_nil data i : data !! i = None -> drop i data = [].
Proof. intros H. apply drop_ge. by apply lookup_ge_None. Qed.

Lemma markerFound_startsWith marker data i j :
  markerFound data (Z.of_nat i) marker (Z.of_nat j)
  = Spec.startsWith marker (drop (i + j) data).
Proof.
  revert j; induction marker as [|m marker IH]; intros j; [done|].
  cbn [markerFound]. rewrite <- Nat2Z.inj_add, at_nat.
  destruct (data !! (i + j)%nat) as [x|] eqn:E.
  - rewrite (drop_lookup_cons _ _ _ E). cbn [sameByte Spec.startsWith].
    destruct (Byte.eqb x m); [|done].
    replace (Z.of_nat j + 1)%Z with (Z.of_nat (S j)) by lia.
    rewrite IH. by replace (i + S j)%nat with (S (i + j)) by lia.
  - by rewrite (drop_lookup_nil _ _ E).
Qed.

Lemma markerFound_at marker data i :
  markerFound data (Z.of_nat i) marker 0 = Spec.startsWith marker (drop i data).
Proof.
  pose proof (markerFound_startsWith marker data i 0) as H.
  by rewrite Nat.add_0_r in H.
Qed.

Lemma startsWith_short marker l :
  (length l < length marker)%nat -> Spec.startsWith marker l = false.
Proof.
  revert l; induction marker as [|m marker IH]; intros [|x l] H; simpl in *;
    try lia; try done.
  rewrite IH by lia. by destruct (Byte.eqb x m).
Qed.

(** The first offset from [i] on, among [n], at which the marker is. *)
Lemma findJpegMarker_loop_first marker data n i :
  (findJpegMarker_loop n data marker (Z.of_nat i) = (-1)%Z
   /\ forall k, (i <= k < i + n)%nat -> Spec.startsWith marker (drop k data) = false)
  \/ (exists r, findJpegMarker_loop n data marker (Z.of_nat i) = Z.of_nat r
                /\ (i <= r < i + n)%nat
                /\ Spec.startsWith marker (drop r data) = true
                /\ forall k, (i <= k < r)%nat -> Spec.startsWith marker (drop k data) = false).
Proof.
  revert i; induction n as [|n IH]; intros i.
  - left. split; [done|]. intros k Hk. lia.
  - cbn [findJpegMarker_loop]. rewrite markerFound_at.
    destruct (Spec.startsWith marker (drop i data)) eqn:E.
    + right. exists i. repeat split; [lia | lia | done |]. intros k Hk. lia.
    + replace (Z.of_nat i + 1)%Z with (Z.of_nat (S i)) by lia.
      destruct (IH (S i)) as [[E1 H1]|(r & E1 & Hr & Hat & H1)].
      * left. split; [done|]. intros k Hk.
        destruct (decide (k = i)) as [->|]; [done|]. apply H1. lia.
      * right. exists r. repeat split; [done | lia | lia | done |].
        intros k Hk. destruct (decide (k = i)) as [->|]; [done|]. apply H1. lia.
Qed.

(** [findJpegMarker] for a marker of two bytes and a start within the
    buffer: the first offset from the start on at which the marker is. *)
Lemma findJpegMarker_first marker data i :
  length marker = 2%nat -> (i <= length data)%nat ->
  (findJpegMarker data marker (Z.of_nat i) = (-1)%Z
   /\ forall k, (i <= k)%nat -> Spec.startsWith marker (drop k data) = false)
  \/ (exists r, findJpegMarker data marker (Z.of_nat i) = Z.of_nat r
                /\ (i <= r)%nat /\ (r + 2 <= length data)%nat
                /\ Spec.startsWith marker (drop r data) = true
                /\ forall k, (i <= k < r)%nat -> Spec.startsWith marker (drop k data) = false).
Proof.
  intros Hm Hi. unfold findJpegMarker, len. rewrite Hm.
  set (n := Z.to_nat (Z.of_nat (length data) - Z.of_nat 2 - Z.of_nat i + 1)).
  assert (Hshort : forall k, (length data < k + 2)%nat ->
                     Spec.startsWith marker (drop k data) = false).
  { intros k Hk. apply startsWith_short. rewrite length_drop. lia. }
  destruct (findJpegMarker_loop_first marker data n i) as [[E H]|(r & E & Hr & Hat & H)].
  - left. split; [done|]. intros k Hk.
    destruct (decide (k < i + n)%nat); [apply H; lia|]. apply Hshort. lia.
  - right. exists r. repeat split; [done | lia | | done | done].
    destruct (decide (r + 2 <= length data)%nat); [done|].
    rewrite Hshort in Hat by lia. done.
Qed.

(** *** The spans, offset by offset *)

Lemma startsWith_two (m1 m2 : byte) (l : list byte) :
  Spec.startsWith [m1; m2] l = true -> exists rest, l = m1 :: m2 :: rest.
Proof.
  destruct l as [|x [|y rest]]; simpl; try done.
  - by rewrite andb_false_r.
  - intros [H1 [H2 _]%andb_true_iff]%andb_true_iff.
    apply byte_dec_bl in H1, H2. subst. by exists rest.
Qed.

Lemma tails_drop data i :
  (i < length data)%nat ->
  Spec.tails (drop i data) = drop i data :: Spec.tails (drop (S i) data).
Proof.
  intros Hi. destruct (lookup_lt_is_Some_2 data i Hi) as [x Hx].
  by rewrite (drop_lookup_cons _ _ _ Hx).
Qed.

Lemma spans_end data i :
  (length data <= i)%nat -> omap Spec.spanAt (Spec.tails (drop i data)) = [].
Proof. intros Hi. by rewrite drop_ge. Qed.

Lemma spans_skip data i r :
  (i <= r)%nat -> (r <= length data)%nat ->
  (forall k, (i <= k < r)%nat -> Spec.startsWith SOI (drop k data) = false) ->
  omap Spec.spanAt (Spec.tails (drop i data))
  = omap Spec.spanAt (Spec.tails (drop r data)).
Proof.
  intros Hir Hr Hno. induction Hir as [|r Hir IH]; [done|].
  rewrite IH by (try lia; intros k Hk; apply Hno; lia).
  rewrite (tails_drop data r) by lia. cbn [omap list_omap].
  unfold Spec.spanAt at 1. by rewrite Hno by lia.
Qed.

Lemma spans_none data i :
  (forall k, (i <= k)%nat -> Spec.startsWith SOI (drop k data) = false) ->
  omap Spec.spanAt (Spec.tails (drop i data)) = [].
Proof.
  intros Hno. destruct (decide (i <= length data)%nat) as [Hi|Hi].
  - rewrite (spans_skip data i (length data)) by (try lia; intros; apply Hno; lia).
    by apply spans_end.
  - apply spans_end. lia.
Qed.

Lemma spans_start data r :
  Spec.startsWith SOI (drop r data) = true ->
  omap Spec.spanAt (Spec.tails (drop r data))
  = option_list (app SOI <$> Spec.upToEnd (drop (r + 2) data))
    ++ omap Spec.spanAt (Spec.tails (drop (r + 2) data)).
Proof.
  intros Hat. destruct (startsWith_two _ _ _ Hat) as [rest Hrest].
  assert (Hrest' : drop (r + 2) data = rest).
  { rewrite <- drop_drop, Hrest. done. }
  rewrite Hrest', Hrest. cbn [Spec.tails omap list_omap].
  change (Spec.spanAt (xd8 :: rest)) with (@None (list byte)).
  change (Spec.spanAt (xff :: xd8 :: rest)) with (app SOI <$> Spec.upToEnd rest).
  by destruct (Spec.upToEnd rest).
Qed.

Lemma startsWith_length marker l :
  Spec.startsWith marker l = true -> (length marker <= length l)%nat.
Proof.
  intros H. destruct (decide (length marker <= length l)%nat); [done|].
  rewrite startsWith_short in H by lia. done.
Qed.

Lemma upToEnd_cons (x : byte) (l : list byte) :
  Spec.upToEnd (x :: l)
  = if Spec.startsWith EOI (x :: l) then Some EOI else cons x <$> Spec.upToEnd l.
Proof. reflexivity. Qed.

Lemma upToEnd_found data n j :
  Spec.startsWith EOI (drop (j + n) data) = true ->
  (forall k, (j <= k < j + n)%nat -> Spec.startsWith EOI (drop k data) = false) ->
  Spec.upToEnd (drop j data) = Some (take (n + 2) (drop j data)).
Proof.
  revert j; induction n as [|n IH]; intros j Hat Hno.
  - rewrite Nat.add_0_r in Hat. destruct (startsWith_two _ _ _ Hat) as [rest Hrest].
    rewrite Hrest in *. rewrite upToEnd_cons, Hat. done.
  - assert (Hj : (j < length data)%nat).
    { apply startsWith_length in Hat. rewrite length_drop in Hat. simpl in Hat. lia. }
    destruct (lookup_lt_is_Some_2 data j Hj) as [x Hx].
    assert (Hnj : Spec.startsWith EOI (drop j data) = false) by (apply Hno; lia).
    rewrite (drop_lookup_cons _ _ _ Hx) in *.
    rewrite upToEnd_cons, Hnj.
    rewrite (IH (S j)).
    + done.
    + by replace (S j + n)%nat with (j + S n)%nat by lia.
    + intros k Hk. apply Hno. lia.
Qed.

Lemma upToEnd_none data j :
  (forall k, (j <= k)%nat -> Spec.startsWith EOI (drop k data) = false) ->
  Spec.upToEnd (drop j data) = None.
Proof.
  intros Hno. remember (length data - j)%nat as n eqn:Hn.
  revert j Hno Hn; induction n as [|n IH]; intros j Hno Hn.
  - rewrite drop_ge by lia. done.
  - assert (Hj : (j < length data)%nat) by lia.
    destruct (lookup_lt_is_Some_2 data j Hj) as [x Hx].
    assert (Hnj : Spec.startsWith EOI (drop j data) = false) by (apply Hno; lia).
    rewrite (drop_lookup_cons _ _ _ Hx) in *.
    rewrite upToEnd_cons, Hnj.
    rewrite (IH (S j)); [done | | lia]. intros k Hk. apply Hno. lia.
Qed.

Lemma slice_span data r e :
  Spec.startsWith SOI (drop r data) = true -> (r + 2 <= e)%nat ->
  slice data (Z.of_nat r) (Z.of_nat e + 2)
  = SOI ++ take (e - (r + 2) + 2) (drop (r + 2) data).
Proof.
  intros Hat He. unfold slice. rewrite Nat2Z.id.
  replace (Z.to_nat (Z.of_nat e + 2 - Z.of_nat r)) with (S (S (e - (r + 2) + 2))) by lia.
  destruct (startsWith_two _ _ _ Hat) as [rest Hrest].
  rewrite <- drop_drop, Hrest. done.
Qed.

Lemma len_nat data : len data = Z.of_nat (length data).
Proof. reflexivity. Qed.

(** The loop ends within its fuel and collects the candidates in order. *)
Lemma collectPreviews_candidates data fuel i (previews : list (list byte)) :
  (i <= length data)%nat -> (length data - i < fuel)%nat ->
  collectPreviews fuel data (Z.of_nat i) previews
  = Some (previews
          ++ filter (fun s => (1024 < length s)%nat)
               (omap Spec.spanAt (Spec.tails (drop i data)))).
Proof.
  revert i previews; induction fuel as [|fuel IH]; intros i previews Hi Hfuel; [lia|].
  cbn [collectPreviews]. rewrite len_nat.
  destruct (Z.of_nat i <? Z.of_nat (length data))%Z eqn:Hlt.
  2:{ apply Z.ltb_ge in Hlt. rewrite spans_end by lia. by rewrite app_nil_r. }
  apply Z.ltb_lt in Hlt.
  destruct (findJpegMarker_first SOI data i eq_refl Hi)
    as [[E Hno]|(r & E & Hr & Hr2 & Hat & Hno)]; rewrite E.
  { cbn [Z.ltb Z.compare]. rewrite spans_none by done. by rewrite app_nil_r. }
  destruct (Z.of_nat r <? 0)%Z eqn:Hneg; [apply Z.ltb_lt in Hneg; lia|].
  rewrite (spans_skip data i r) by (done || lia).
  rewrite spans_start by done.
  replace (Z.of_nat r + 2)%Z with (Z.of_nat (r + 2)) by lia.
  rewrite filter_app, app_assoc.
  destruct (findJpegMarker_first EOI data (r + 2) eq_refl Hr2)
    as [[E' Hno']|(e & E' & He & He2 & Hat' & Hno')]; rewrite E'.
  - cbn [Z.leb Z.compare andb]. rewrite upToEnd_none by done.
    change (option_list (app SOI <$> None)) with (@nil (list byte)).
    rewrite filter_nil, app_nil_r. apply IH; lia.
  - destruct (0 <=? Z.of_nat e)%Z eqn:Hpos; [|apply Z.leb_gt in Hpos; lia].
    destruct (Z.of_nat r <? Z.of_nat e)%Z eqn:Hre; [|apply Z.ltb_ge in Hre; lia].
    cbn [andb]. rewrite slice_span by done.
    rewrite (upToEnd_found data (e - (r + 2)) (r + 2)).
    2:{ by replace (r + 2 + (e - (r + 2)))%nat with e by lia. }
    2:{ intros k Hk. apply Hno'. lia. }
    change (option_list (app SOI <$> Some ?x)) with [SOI ++ x].
    rewrite filter_cons, filter_nil. rewrite len_nat.
    destruct (1024 <? Z.of_nat (length _))%Z eqn:Hbig.
    + apply Z.ltb_lt in Hbig. rewrite decide_True by lia. apply IH; lia.
    + apply Z.ltb_ge in Hbig. rewrite decide_False by lia. rewrite app_nil_r.
      apply IH; lia.
Qed.

Lemma reduceLargest_max (first : list byte) (others : list (list byte)) :
  reduceLargest first others ∈ first :: others
  /\ forall c, c ∈ first :: others -> (length c <= length (reduceLargest first others))%nat.
Proof.
  unfold reduceLargest. revert first; induction others as [|c others IH]; intros first.
  - simpl. split; [by left|]. intros c [->|Hc%elem_of_nil]%elem_of_cons; done.
  - cbn [fold_left]. rewrite !len_nat.
    destruct (Z.of_nat (length first) <? Z.of_nat (length c))%Z eqn:E.
    + apply Z.ltb_lt in E. destruct (IH c) as [Hin Hmax]. split.
      * right. exact Hin.
      * intros c' [->|Hc']%elem_of_cons; [|by apply Hmax].
        specialize (Hmax c (ltac:(by left))). lia.
    + apply Z.ltb_ge in E. destruct (IH first) as [Hin Hmax]. split.
      * apply elem_of_cons in Hin as [Hin|Hin]; [rewrite Hin; by left|].
        right. by right.
      * intros c' [->|[->|Hc']%elem_of_cons]%elem_of_cons.
        -- apply Hmax. by left.
        -- specialize (Hmax first (ltac:(by left))). lia.
        -- apply Hmax. by right.
Qed.

Lemma findBestJpegPreview_candidates data :
  findBestJpegPreview data
  = Some match Spec.candidates data with
         | [] => None
         | first :: others => Some (reduceLargest first others)
         end.
Proof.
  unfold findBestJpegPreview.
  pose proof (collectPreviews_candidates data (S (length data)) 0 []) as H.
  change (Z.of_nat 0) with 0%Z in H. rewrite drop_0 in H. rewrite H by lia.
  rewrite app_nil_l.
  unfold Spec.candidates, Spec.markerSpans. by destruct (filter _ _).
Qed.

(** C5: the scan ends; every span from a start marker to the nearest end
    marker after it that is longer than 1 KiB is a candidate; the result
    is [null] when there is no candidate and otherwise a candidate that no
    candidate exceeds in length. In particular, when the spans of the
    buffer are one of 4 KiB and one of 40 KiB, the result is the span of
    40 KiB. *)
Theorem findBestJpegPreview_largest (data : list byte) :
  exists result,
    findBestJpegPreview data = Some result
    /\ (Spec.candidates data = [] -> result = None)
    /\ (Spec.candidates data <> [] ->
        exists s, result = Some s
                  /\ s ∈ Spec.candidates data
                  /\ forall c, c ∈ Spec.candidates data -> (length c <= length s)%nat)
    /\ (map len (Spec.markerSpans data) = [4096; 40960]%Z
        \/ map len (Spec.markerSpans data) = [40960; 4096]%Z ->
        exists s, result = Some s /\ len s = 40960%Z /\ s ∈ Spec.markerSpans data).
Proof.
  eexists. split; [apply findBestJpegPreview_candidates|].
  split; [by intros ->|]. split.
  - destruct (Spec.candidates data) as [|first others]; [done|]. intros _.
    exists (reduceLargest first others). split; [done|]. apply reduceLargest_max.
  - unfold Spec.candidates.
    destruct (Spec.markerSpans data) as [|a [|b [|c rest]]]; cbn [map];
      intros [H|H]; try discriminate H; injection H as Ha Hb.
    + rewrite !filter_cons, filter_nil. unfold len in Ha, Hb.
      rewrite !decide_True by lia.
      exists b. unfold reduceLargest, len. cbn [fold_left].
      destruct (Z.of_nat (length a) <? Z.of_nat (length b))%Z eqn:E;
        [|apply Z.ltb_ge in E; lia].
      split; [done|]. split; [unfold len; lia|]. set_solver.
    + rewrite !filter_cons, filter_nil. unfold len in Ha, Hb.
      rewrite !decide_True by lia.
      exists a. unfold reduceLargest, len. cbn [fold_left].
      destruct (Z.of_nat (length a) <? Z.of_nat (length b))%Z eqn:E;
        [apply Z.ltb_lt in E; lia|].
      split; [done|]. split; [unfold len; lia|]. set_solver.
Qed.

Lemma findBestJpegPreview_largest_witness :
  map len (Spec.markerSpans Spec.twoPreviews) = [4096; 40960]%Z
  /\ exists s, findBestJpegPreview Spec.twoPreviews = Some (Some s)
               /\ len s = 40960%Z.
Proof.
  assert (H : map len (Spec.markerSpans Spec.twoPreviews) = [4096; 40960]%Z).
  { vm_compute. reflexivity. }
  split; [exact H|].
  destruct (findBestJpegPreview_largest Spec.twoPreviews) as (result & E & _ & _ & Hbig).
  destruct (Hbig (or_introl H)) as (s & Hr & Hs & _).
  exists s. split; [|exact Hs]. rewrite <- Hr. exact E.
Defined.

End PreviewScanner.

(** ** The sharpness score *)

Section Sharpness.

Import Number QualityAnalysis.

Lemma sub_diag (g : number) : isFinite g = true -> sub g g = zero.
Proof.
  destruct g as [[]|[]| |s m e]; try done. intros _.
  unfold sub, SFsub. by rewrite Z.sub_diag.
Qed.

Lemma zero_over_positive (count : number) :
  ltb zero count = true -> sqrt (div zero count) = zero.
Proof. by destruct count as [[]|[]| |[] m e]. Qed.

Lemma range_loop_bounds (n : nat) (v stop step x : Z) :
  (0 <= step)%Z -> x ∈ range_loop n v stop step -> (v <= x < stop)%Z.
Proof.
  intros Hstep. revert v; induction n as [|n IH]; intros v Hx.
  - by apply elem_of_nil in Hx.
  - cbn [range_loop] in Hx. destruct (v <? stop)%Z eqn:E; [|by apply elem_of_nil in Hx].
    apply Z.ltb_lt in E. apply elem_of_cons in Hx as [->|Hx]; [lia|].
    apply IH in Hx. lia.
Qed.

Lemma range_bounds (start stop step x : Z) :
  (0 <= step)%Z -> x ∈ range start stop step -> (start <= x < stop)%Z.
Proof. apply range_loop_bounds. Qed.

(** The loop takes every value from [start] in steps of [step] below
    [stop]: the turns given to it suffice. *)
Lemma range_loop_complete (n : nat) (v stop step : Z) (k : nat) :
  (0 < step)%Z -> (stop - v <= Z.of_nat n)%Z -> (v + Z.of_nat k * step < stop)%Z ->
  (v + Z.of_nat k * step)%Z ∈ range_loop n v stop step.
Proof.
  intros Hstep. revert v k; induction n as [|n IH]; intros v k Hn Hk; [nia|].
  cbn [range_loop]. destruct (v <? stop)%Z eqn:E; [|apply Z.ltb_ge in E; nia].
  destruct k as [|k].
  { replace (v + Z.of_nat 0 * step)%Z with v by lia. by left. }
  right.
  replace (v + Z.of_nat (S k) * step)%Z with (v + step + Z.of_nat k * step)%Z by lia.
  apply IH; lia.
Qed.

Section Flat.

Variables (data : list byte) (width height : Z) (g : number).
Hypothesis Hg : isFinite g = true.
Hypothesis Hflat : Spec.sameGray data width height g.

Lemma sample_flat (x y : Z) (count : number) :
  (stepX <= x < width - stepX)%Z -> (stepY <= y < height - stepY)%Z ->
  sample data width y (zero, count) x = (zero, add count one).
Proof.
  intros Hx Hy. change stepX with 4%Z in *. change stepY with 4%Z in *.
  unfold sample. change stepX with 4%Z. change stepY with 4%Z.
  rewrite !Hflat by lia.
  rewrite sub_diag by done. reflexivity.
Qed.

Lemma sampleRow_flat (y : Z) (count : number) :
  (stepY <= y < height - stepY)%Z ->
  exists count', sampleRow data width (zero, count) y = (zero, count').
Proof.
  intros Hy. unfold sampleRow.
  assert (Hxs : forall x, x ∈ range stepX (width - stepX) stepX ->
                  (stepX <= x < width - stepX)%Z).
  { intros x Hx. by apply range_bounds in Hx. }
  revert count Hxs. induction (range stepX (width - stepX) stepX) as [|x xs IH];
    intros count Hxs.
  - by exists count.
  - cbn [fold_left]. rewrite sample_flat by (done || apply Hxs; by left).
    apply IH. intros x' Hx'. apply Hxs. by right.
Qed.

Lemma rows_flat :
  exists count,
    fold_left (sampleRow data width) (range stepY (height - stepY) stepY) (zero, zero)
    = (zero, count).
Proof.
  assert (Hys : forall y, y ∈ range stepY (height - stepY) stepY ->
                  (stepY <= y < height - stepY)%Z).
  { intros y Hy. by apply range_bounds in Hy. }
  assert (Hall : forall ys count,
             (forall y, y ∈ ys -> (stepY <= y < height - stepY)%Z) ->
             exists count', fold_left (sampleRow data width) ys (zero, count)
                            = (zero, count')).
  { induction ys as [|y ys IH]; intros count Hin.
    - by exists count.
    - cbn [fold_left].
      destruct (sampleRow_flat y count) as [count' ->]; [apply Hin; by left|].
      apply IH. intros y' Hy'. apply Hin. by right. }
  by apply Hall.
Qed.

End Flat.

Lemma sameNumber_eq (a b : number) : Spec.sameNumber a b = true -> a = b.
Proof.
  destruct a as [s|s| |s m e], b as [s'|s'| |s' m' e']; simpl; try done.
  - by intros ->%eqb_prop.
  - by intros ->%eqb_prop.
  - intros [[->%eqb_prop ->%Pos.eqb_eq]%andb_true_iff ->%Z.eqb_eq]%andb_true_iff. done.
Qed.

Lemma isSameGray_sameGray (data : list byte) (width height : nat) (g : number) :
  Spec.isSameGray data width height g = true ->
  Spec.sameGray data (Z.of_nat width) (Z.of_nat height) g.
Proof.
  unfold Spec.isSameGray. intros H x y Hx Hy.
  rewrite forallb_forall in H.
  assert (Hy' : In (Z.to_nat y) (seq 0 height)) by (apply in_seq; lia).
  assert (Hx' : In (Z.to_nat x) (seq 0 width)) by (apply in_seq; lia).
  specialize (H _ Hy'). rewrite forallb_forall in H. specialize (H _ Hx').
  apply sameNumber_eq in H. by rewrite !Z2Nat.id in H by lia.
Qed.

Lemma isFlat_flat (data : list byte) (width height : nat) (l : Q) :
  Spec.isFlat data width height l = true ->
  Spec.flat data (Z.of_nat width) (Z.of_nat height) l.
Proof.
  unfold Spec.isFlat. intros H x y Hx Hy.
  rewrite forallb_forall in H.
  assert (Hy' : In (Z.to_nat y) (seq 0 height)) by (apply in_seq; lia).
  assert (Hx' : In (Z.to_nat x) (seq 0 width)) by (apply in_seq; lia).
  specialize (H _ Hy'). rewrite forallb_forall in H. specialize (H _ Hx').
  rewrite !Z2Nat.id in H by lia.
  destruct (Spec.pixelAt data (Z.of_nat width) x y) as [rgb|]; [|done].
  exists rgb. split; [done|]. by apply Qeq_bool_iff.
Qed.

(** The gray value of a colour is a number: the sum of the three
    products does not overflow. *)
Lemma gray_isFinite (r g b : byte) :
  isFinite
    (add (add (mul (literal 299 1000) (ofByte (Some r)))
              (mul (literal 587 1000) (ofByte (Some g))))
         (mul (literal 114 1000) (ofByte (Some b)))) = true.
Proof. exact (below_isFinite _ _ _ (proj1 (gray_near r g b))). Qed.

(** In an image of one colour every pixel has the gray value of that
    colour. *)
Lemma uniform_sameGray (data : list byte) (width height : Z) (r g b : byte) :
  Spec.uniform data width height (r, g, b) ->
  Spec.sameGray data width height
    (add (add (mul (literal 299 1000) (ofByte (Some r)))
              (mul (literal 587 1000) (ofByte (Some g))))
         (mul (literal 114 1000) (ofByte (Some b)))).
Proof.
  intros H x y Hx Hy. specialize (H x y Hx Hy). unfold Spec.pixelAt in H.
  assert (Hidx : (0 <= (y * width + x) * 4)%Z) by nia.
  unfold grayOf, at_.
  rewrite !(proj2 (Z.ltb_ge _ 0)) by lia.
  rewrite !Z2Nat.inj_add by lia. change (Z.to_nat 1) with 1%nat.
  change (Z.to_nat 2) with 2%nat.
  destruct (data !! Z.to_nat ((y * width + x) * 4)) as [r'|]; [|done].
  destruct (data !! (Z.to_nat ((y * width + x) * 4) + 1)%nat) as [g'|]; [|done].
  destruct (data !! (Z.to_nat ((y * width + x) * 4) + 2)%nat) as [b'|]; [|done].
  by injection H as -> -> ->.
Qed.

Lemma isUniform_uniform (data : list byte) (width height : nat)
    (rgb : byte * byte * byte) :
  Spec.isUniform data width height rgb = true ->
  Spec.uniform data (Z.of_nat width) (Z.of_nat height) rgb.
Proof.
  unfold Spec.isUniform. intros H x y Hx Hy.
  rewrite forallb_forall in H.
  assert (Hy' : In (Z.to_nat y) (seq 0 height)) by (apply in_seq; lia).
  assert (Hx' : In (Z.to_nat x) (seq 0 width)) by (apply in_seq; lia).
  specialize (H _ Hy'). rewrite forallb_forall in H. specialize (H _ Hx').
  rewrite !Z2Nat.id in H by lia.
  destruct (Spec.pixelAt data (Z.of_nat width) x y) as [[[r g] b]|]; [|done].
  destruct rgb as [[r0 g0] b0]. cbn [fst snd] in H.
  apply andb_prop in H as [[Hr%Byte.byte_dec_bl Hg%Byte.byte_dec_bl]%andb_prop
                             Hb%Byte.byte_dec_bl].
  by subst.
Qed.

(** The score of an image whose pixels all have one gray value. *)
Lemma score_sameGray (data : list byte) (width height : Z) (g : number) :
  width <> 0%Z -> height <> 0%Z ->
  isFinite g = true ->
  Spec.sameGray data width height g ->
  calculateBlurScore data width height = Returned zero.
Proof.
  intros Hw Hh Hg Hflat. unfold calculateBlurScore, getImageData.
  apply Z.eqb_neq in Hw, Hh. rewrite Hw, Hh. cbn [orb].
  destruct (rows_flat data width height g Hg Hflat) as [count ->].
  destruct (ltb zero count) eqn:E; [|done]. by rewrite zero_over_positive.
Qed.




End Sharpness.

(** ** The exclusive scan *)

Section ExclusiveScan.

Import Scanner.

Lemma nextFile_flag (this this' : DirectoryScanner) (directoryPath : string)
    (files : list string) (photos : list Photo) (r : Frame + Settled) :
  nextFile this directoryPath files photos = (this', r) ->
  match r with
  | inl _ => isScanning this' = isScanning this
  | inr _ => isScanning this' = false
  end.
Proof. destruct files; intros [= <- <-]; done. Qed.

(** An activation that goes on leaves the flag as it is; one that settles,
    by a result or by an error, lowers it. *)
Lemma resume_flag (this this' : DirectoryScanner) (frame : Frame) (reply : Reply)
    (r : Frame + Settled) :
  resume this frame reply = (this', r) ->
  match r with
  | inl _ => isScanning this' = isScanning this
  | inr _ => isScanning this' = false
  end.
Proof.
  destruct frame; cbn [resume].
  - destruct reply; intros [= <- <-]; done.
  - destruct reply; intros [= <- <-]; done.
  - destruct reply; try (intros [= <- <-]; done).
    intros H. by apply nextFile_flag in H.
  - intros H. by apply nextFile_flag in H.
Qed.

Lemma scanDirectory_busy (this : DirectoryScanner) (directoryPath : string) :
  isScanning this = true ->
  scanDirectory this directoryPath = (this, inr (Rejected "Scan already in progress")).
Proof. intros H. unfold scanDirectory. by rewrite H. Qed.

Lemma scanDirectory_idle (this : DirectoryScanner) (directoryPath : string) :
  isScanning this = false ->
  exists this',
    scanDirectory this directoryPath = (this', inl (AwaitAccess directoryPath))
    /\ isScanning this' = true.
Proof. intros H. unfold scanDirectory. rewrite H. by eexists. Qed.

Lemma step_idleOrScanning (w : World) (e : Event) :
  Spec.idleOrScanning w -> Spec.idleOrScanning (step w e).
Proof.
  intros [[Hin Hflag]|(call & frame & Hin & Hflag)]; destruct e as [directoryPath|c reply];
    cbn [step].
  - destruct (scanDirectory_idle (scanner w) directoryPath Hflag) as (this' & -> & Hflag').
    right. exists (calls w), (AwaitAccess directoryPath). cbn. by rewrite Hin.
  - rewrite Hin. cbn [frameOf]. by left.
  - rewrite scanDirectory_busy by done. right. exists call, frame. by cbn.
  - rewrite Hin. cbn [frameOf]. destruct (call =? c)%nat eqn:E; [|right; by exists call, frame].
    apply Nat.eqb_eq in E as ->.
    assert (Hwo : without c [(c, frame)] = []).
    { unfold without. rewrite filter_cons_False by (cbn; auto). done. }
    rewrite Hwo.
    destruct (resume (scanner w) frame reply) as [this' [frame'|s]] eqn:Hr;
      apply resume_flag in Hr.
    + right. exists c, frame'. cbn. split; [done|]. congruence.
    + left. by cbn.
Qed.

Lemma run_idleOrScanning (events : list Event) : Spec.idleOrScanning (run events).
Proof.
  unfold run. induction events as [|e events IH] using rev_ind.
  - by left.
  - rewrite fold_left_app. cbn [fold_left]. by apply step_idleOrScanning.
Qed.

(** The loop over the files, fed one reply for each file that is left:
    every reply counts as a processed file, only a photo is kept. *)
Lemma feed_files (later : list string) :
  forall this directoryPath filePath photos replies,
    length replies = S (length later) ->
    exists this',
      Spec.feed this (AwaitProcessFile directoryPath filePath later photos) replies
      = (this', inr (Resolved (photos ++ omap Spec.photoOf replies)))
      /\ isScanning this' = false
      /\ thumbnailsDir this' = thumbnailsDir this
      /\ progress this'
         = {| totalFiles := totalFiles (progress this);
              processedFiles := processedFiles (progress this) + length replies;
              currentFile :=
                match later with
                | [] => currentFile (progress this)
                | _ :: _ => Path.basename (List.last later "")
                end;
              phase := "complete" |}.
Proof.
  induction later as [|next later IH];
    intros this directoryPath filePath photos [|reply replies] Hlen;
    try discriminate Hlen; injection Hlen as Hlen.
  - destruct replies; [|discriminate Hlen].
    cbn [Spec.feed resume nextFile finally].
    assert (E : match reply with Processed (Some photo) => photos ++ [photo] | _ => photos end
                = photos ++ omap Spec.photoOf [reply]).
    { destruct reply as [| |[?|]|]; cbn; by rewrite ?app_nil_r. }
    rewrite E. eexists. split; [reflexivity|]. split; [done|]. split; [done|].
    cbn [progress setProgress setScanning totalFiles processedFiles currentFile phase length].
    f_equal. lia.
  - cbn [Spec.feed resume nextFile].
    destruct (IH (setProgress
                    (setProgress this
                       {| totalFiles := totalFiles (progress this);
                          processedFiles := S (processedFiles (progress this));
                          currentFile := currentFile (progress this);
                          phase := phase (progress this) |})
                    {| totalFiles := totalFiles (progress this);
                       processedFiles := S (processedFiles (progress this));
                       currentFile := Path.basename next;
                       phase := phase (progress this) |})
                directoryPath next
                (match reply with Processed (Some photo) => photos ++ [photo] | _ => photos end)
                replies Hlen)
      as (this' & Hrun & Hflag & Hdir & Hprogress).
    exists this'. cbn [progress setProgress totalFiles processedFiles currentFile phase] in *.
    assert (E : match reply with Processed (Some photo) => photos ++ [photo] | _ => photos end
                  ++ omap Spec.photoOf replies
                = photos ++ omap Spec.photoOf (reply :: replies)).
    { destruct reply as [| |[?|]|]; cbn; by rewrite <- ?app_assoc. }
    rewrite Hrun, E. split; [done|]. split; [done|]. split; [done|].
    rewrite Hprogress. cbn [length]. f_equal; [lia|].
    destruct later; [done|]. done.
Qed.

(** A scan from its call to its end, when the thumbnails directory is
    there or can be made and every file gets a reply. *)
Lemma scan_completes (this : DirectoryScanner) (directoryPath : string)
    (setup : list Reply) (files : list string) (replies : list Reply) :
  isScanning this = false ->
  Spec.directoryReady setup ->
  length replies = length files ->
  exists this',
    Spec.runScan this directoryPath (setup ++ FoundFiles files :: replies)
    = (this', inr (Resolved (omap Spec.photoOf replies)))
    /\ isScanning this' = false
    /\ thumbnailsDir this' = Some (Path.join directoryPath "_thumbnails")
    /\ progress this'
       = {| totalFiles := length files;
            processedFiles := length files;
            currentFile := match files with
                           | [] => ""
                           | _ :: _ => Path.basename (List.last files "")
                           end;
            phase := "complete" |}.
Proof.
  intros Hidle Hready Hlen. unfold Spec.runScan, scanDirectory. rewrite Hidle.
  assert (Hsetup :
            forall this0,
              Spec.feed this0 (AwaitAccess directoryPath)
                (setup ++ FoundFiles files :: replies)
              = Spec.feed this0 (AwaitFindImageFiles directoryPath)
                  (FoundFiles files :: replies)).
  { intros this0. by destruct Hready as [-> | [message ->]]. }
  rewrite Hsetup. cbn [Spec.feed resume].
  destruct files as [|filePath later].
  - destruct replies; [|discriminate Hlen]. cbn [nextFile finally]. eexists.
    by repeat split.
  - cbn [nextFile].
    match goal with
    | |- context [Spec.feed ?t (AwaitProcessFile _ _ _ _) _] =>
        destruct (feed_files later t directoryPath filePath [] replies Hlen)
          as (this' & Hrun & Hflag & Hdir & Hprogress)
    end.
    exists this'. rewrite Hrun. split; [done|]. split; [done|]. split; [done|].
    rewrite Hprogress.
    cbn [progress setProgress setScanning setThumbnailsDir freshProgress totalFiles
         processedFiles currentFile phase length].
    rewrite Hlen. f_equal. destruct later; [done|]. done.
Qed.

(** A scan that cannot make its thumbnails directory, or cannot list the
    directory, is rejected with the error, and the flag is down. *)
Lemma scan_fails (this : DirectoryScanner) (directoryPath : string)
    (replies : list Reply) (message : string) :
  isScanning this = false ->
  (exists first, replies = [Failed first; Failed message])
  \/ (exists setup, Spec.directoryReady setup /\ replies = setup ++ [Failed message]) ->
  exists this',
    Spec.runScan this directoryPath replies = (this', inr (Rejected message))
    /\ isScanning this' = false.
Proof.
  intros Hidle Hreplies. unfold Spec.runScan, scanDirectory. rewrite Hidle.
  destruct Hreplies as [[first ->]|(setup & [-> | [first ->]] & ->)];
    cbn [app Spec.feed resume finally]; eexists; by split.
Qed.

(** A settlement changes nothing when no scan is in flight. *)
Lemma settle_idle (call : nat) (replies : list Reply) (w : World) :
  inflight w = [] -> fold_left step (map (Settle call) replies) w = w.
Proof.
  intros Hin. induction replies as [|reply replies IH]; [done|].
  cbn [map fold_left step]. rewrite Hin. cbn [frameOf]. exact IH.
Qed.

(** The settlements of the scan in flight, one after the other, do to
    the world what [feed] does to the scanner and the activation. *)
Lemma settle_feed (replies : list Reply) :
  forall (w : World) (call : nat) (frame : Frame),
    inflight w = [(call, frame)] ->
    fold_left step (map (Settle call) replies) w
    = match Spec.feed (scanner w) frame replies with
      | (this', inl frame') =>
          {| scanner := this'; inflight := [(call, frame')];
             settled := settled w; calls := calls w |}
      | (this', inr s) =>
          {| scanner := this'; inflight := [];
             settled := settled w ++ [(call, s)]; calls := calls w |}
      end.
Proof.
  induction replies as [|reply replies IH]; intros w call frame Hin.
  - cbn. destruct w. cbn in *. by rewrite Hin.
  - cbn [map fold_left Spec.feed].
    assert (Hwo : without call [(call, frame)] = []).
    { unfold without. rewrite filter_cons_False by (cbn; auto). done. }
    cbn [step]. rewrite Hin. cbn [frameOf]. rewrite Nat.eqb_refl, Hwo.
    destruct (resume (scanner w) frame reply) as [this' [frame'|s]].
    + rewrite (IH _ call frame') by done. cbn [scanner settled calls]. done.
    + cbn [app]. by rewrite settle_idle.
Qed.

(** C9: after any sequence of calls and settlements on one scanner, at
    most one scan is in flight, and the flag is up exactly then; a call
    made while a scan is in flight is rejected at once with 'Scan already
    in progress' and changes neither the scanner nor the scan in flight,
    nor is it kept for later; when the scan in flight settles, with a
    result or with an error, the flag is down, so that the next call
    starts a scan. A call made while no scan is in flight does start one
    and raises the flag; that scan settles with its photos when its
    thumbnails directory is ready and every file it found has a reply,
    and with the error when the directory cannot be made or listed, and
    either way the flag is down again. *)
Theorem scanDirectory_exclusive (events : list Event) :
  let w := run events in
  (length (inflight w) <= 1)%nat
  /\ (isScanning (scanner w) = true <-> length (inflight w) = 1%nat)
  /\ (forall directoryPath,
        inflight w <> [] ->
        step w (Call directoryPath)
        = {| scanner := scanner w; inflight := inflight w;
             settled := settled w ++ [(calls w, Rejected "Scan already in progress")];
             calls := S (calls w) |})
  /\ (forall call reply outcome,
        settled (step w (Settle call reply)) = settled w ++ [(call, outcome)] ->
        let w' := step w (Settle call reply) in
        isScanning (scanner w') = false
        /\ inflight w' = []
        /\ forall directoryPath,
             inflight (step w' (Call directoryPath))
             = [(calls w', AwaitAccess directoryPath)])
  /\ (forall directoryPath,
        inflight w = [] ->
        let w' := step w (Call directoryPath) in
        inflight w' = [(calls w, AwaitAccess directoryPath)]
        /\ isScanning (scanner w') = true
        /\ settled w' = settled w)
  /\ (forall directoryPath setup files replies,
        inflight w = [] ->
        Spec.directoryReady setup ->
        length replies = length files ->
        let w' :=
          run (events ++ Spec.scanOf (calls w) directoryPath
                           (setup ++ FoundFiles files :: replies)) in
        inflight w' = []
        /\ isScanning (scanner w') = false
        /\ settled w'
           = settled w ++ [(calls w, Resolved (omap Spec.photoOf replies))])
  /\ (forall directoryPath replies message,
        inflight w = [] ->
        (exists first, replies = [Failed first; Failed message])
        \/ (exists setup,
              Spec.directoryReady setup /\ replies = setup ++ [Failed message]) ->
        let w' := run (events ++ Spec.scanOf (calls w) directoryPath replies) in
        inflight w' = []
        /\ isScanning (scanner w') = false
        /\ settled w' = settled w ++ [(calls w, Rejected message)]).
Proof.
  intros w. pose proof (run_idleOrScanning events) as Hw. fold w in Hw.
  assert (Hidle : inflight w = [] -> isScanning (scanner w) = false).
  { intros Hin. destruct Hw as [[_ Hf]|(c & f & Hin' & _)]; [done|congruence]. }
  assert (Hscan : forall directoryPath replies,
            inflight w = [] ->
            run (events ++ Spec.scanOf (calls w) directoryPath replies)
            = match Spec.runScan (scanner w) directoryPath replies with
              | (this', inl frame') =>
                  {| scanner := this'; inflight := [(calls w, frame')];
                     settled := settled w; calls := S (calls w) |}
              | (this', inr s) =>
                  {| scanner := this'; inflight := [];
                     settled := settled w ++ [(calls w, s)]; calls := S (calls w) |}
              end).
  { intros directoryPath replies Hin. unfold run, Spec.scanOf.
    rewrite fold_left_app. fold (run events). fold w. cbn [fold_left step].
    unfold Spec.runScan.
    destruct (scanDirectory_idle (scanner w) directoryPath (Hidle Hin))
      as (this1 & -> & _).
    rewrite Hin. cbn [app].
    by rewrite (settle_feed replies _ (calls w) (AwaitAccess directoryPath)). }
  split; [|split; [|split; [|split; [|split; [|split]]]]].
  - destruct Hw as [[-> _]|(c & f & -> & _)]; simpl; lia.
  - destruct Hw as [[-> Hf]|(c & f & -> & Hf)]; rewrite Hf; simpl; split; done.
  - intros directoryPath Hne.
    destruct Hw as [[Hin _]|(c & f & Hin & Hf)]; [done|].
    cbn [step]. by rewrite scanDirectory_busy.
  - intros call reply outcome Hs w'.
    pose proof (step_idleOrScanning w (Settle call reply) Hw) as Hw'. fold w' in Hw'.
    assert (Hdown : isScanning (scanner w') = false).
    { subst w'. cbn [step] in *.
      destruct (frameOf call (inflight w)) as [frame|].
      2:{ exfalso. apply (f_equal length) in Hs. rewrite length_app in Hs.
          simpl in Hs. lia. }
      destruct (resume (scanner w) frame reply) as [this' [frame'|s]] eqn:Hr.
      - exfalso. cbn [settled] in Hs. apply (f_equal length) in Hs.
        rewrite length_app in Hs. simpl in Hs. lia.
      - apply resume_flag in Hr. done. }
    destruct Hw' as [[Hin _]|(c & f & _ & Hup)]; [|congruence].
    split; [done|]. split; [done|]. intros directoryPath. cbn [step].
    destruct (scanDirectory_idle (scanner w') directoryPath Hdown) as (this' & -> & _).
    cbn [inflight]. by rewrite Hin.
  - intros directoryPath Hin w'. subst w'. cbn [step].
    destruct (scanDirectory_idle (scanner w) directoryPath (Hidle Hin))
      as (this1 & -> & Hup).
    cbn [inflight scanner settled]. by rewrite Hin.
  - intros directoryPath setup files replies Hin Hready Hlen w'. subst w'.
    rewrite Hscan by done.
    destruct (scan_completes (scanner w) directoryPath setup files replies
                (Hidle Hin) Hready Hlen) as (this' & -> & Hflag & _).
    by cbn [inflight scanner settled].
  - intros directoryPath replies message Hin Hreplies w'. subst w'.
    rewrite Hscan by done.
    destruct (scan_fails (scanner w) directoryPath replies message (Hidle Hin) Hreplies)
      as (this' & -> & Hflag).
    by cbn [inflight scanner settled].
Qed.

(** One history: a scan is started, a second call is rejected while the
    first scan runs, the first scan ends with its photo, and a third call
    starts a scan. *)
Lemma scanDirectory_exclusive_witness :
  let busy := run [Call "/photos"] in
  let done := run (Spec.scanOf 0 "/photos"
                     [Done; FoundFiles ["/photos/a.jpg"];
                      Processed (Some {| id := "1"; path := "/photos/a.jpg" |})]) in
  inflight busy = [(0, AwaitAccess "/photos")]
  /\ isScanning (scanner busy) = true
  /\ step busy (Call "/other")
     = {| scanner := scanner busy; inflight := inflight busy;
          settled := [(1, Rejected "Scan already in progress")]; calls := 2 |}
  /\ inflight done = []
  /\ isScanning (scanner done) = false
  /\ settled done = [(0, Resolved [{| id := "1"; path := "/photos/a.jpg" |}])]
  /\ inflight (step done (Call "/other")) = [(1, AwaitAccess "/other")].
Proof.
  intros busy done.
  destruct (scanDirectory_exclusive []) as (_ & _ & _ & _ & Hstart & Hends & _).
  destruct (Hstart "/photos" eq_refl) as (Hin & Hup & _).
  destruct (scanDirectory_exclusive [Call "/photos"]) as (_ & _ & Hbusy & _).
  destruct (Hends "/photos" [Done] ["/photos/a.jpg"]
              [Processed (Some {| id := "1"; path := "/photos/a.jpg" |})]
              eq_refl (or_introl eq_refl) eq_refl) as (Hin' & Hdown & Hsettled).
  destruct (scanDirectory_exclusive
              (Spec.scanOf 0 "/photos"
                 [Done; FoundFiles ["/photos/a.jpg"];
                  Processed (Some {| id := "1"; path := "/photos/a.jpg" |})]))
    as (_ & _ & _ & _ & Hnext & _).
  split; [exact Hin|]. split; [exact Hup|].
  split; [exact (Hbusy "/other" ltac:(discriminate))|].
  split; [exact Hin'|]. split; [exact Hdown|]. split; [exact Hsettled|].
  exact (proj1 (Hnext "/other" Hin')).
Defined.

End ExclusiveScan.

(** ** The trash handlers *)

Section Trash.

Import Backend.

(** A [try] whose [catch] only writes to the console ends normally. *)
Lemma tryCatch_console (body : M unit) (line : string -> string) (st : State) :
  exists st', tryCatch body (fun error => consoleLine (line error)) st = (st', Normal tt).
Proof.
  unfold tryCatch. destruct (body st) as [st1 [[]|error]]; [by eexists|].
  unfold consoleLine. by eexists.
Qed.

Lemma moveOne_normal (photo : Photo) (st : State) :
  exists st', moveOne photo st = (st', Normal tt).
Proof.
  unfold moveOne, tryCatch.
  match goal with |- context [match ?body st with _ => _ end] =>
    destruct (body st) as [st1 [[]|error]] end; by eexists.
Qed.

Lemma emptyOne_normal (metadata : Metadata) (st : State) :
  exists st', emptyOne metadata st = (st', Normal tt).
Proof. apply tryCatch_console. Qed.

Lemma forOf_normal {A} (body : A -> M unit) (l : list A) (st : State) :
  (forall x st, exists st', body x st = (st', Normal tt)) ->
  exists st', forOf l body st = (st', Normal tt).
Proof.
  intros Hbody. revert st; induction l as [|x l IH]; intros st; [by eexists|].
  cbn [forOf]. unfold mbind, M_bind. destruct (Hbody x st) as [st1 ->]. apply IH.
Qed.

Lemma prefix_append (p t : string) : String.prefix p (p +:+ t) = true.
Proof.
  induction p as [|c p IH]; [by destruct t|].
  change (String c p +:+ t) with (String c (p +:+ t)). cbn [String.prefix].
  by destruct (ascii_dec c c).
Qed.

Lemma prefix_self (p : string) : String.prefix p p = true.
Proof. induction p as [|c p IH]; [done|]. cbn. by destruct (ascii_dec c c). Qed.

(** *** Names and paths in the trash *)

Lemma chars_app (a b : string) : Spec.chars (a +:+ b) = Spec.chars a ++ Spec.chars b.
Proof.
  induction a as [|c a IH]; [by rewrite append_nil_l|].
  rewrite append_cons. cbn [Spec.chars list_ascii_of_string app]. f_equal. exact IH.
Qed.

Lemma substring_full (b : string) : String.substring 0 (String.length b) b = b.
Proof. induction b as [|c b IH]; [done|]. cbn. by rewrite IH. Qed.

Lemma substring_append_r (a b : string) :
  String.substring (String.length a) (String.length b) (a +:+ b) = b.
Proof.
  induction a as [|c a IH]; [rewrite append_nil_l; apply substring_full|].
  rewrite append_cons. exact IH.
Qed.

Lemma endsWith_append (a suf : string) : Path.endsWith (a +:+ suf) suf = true.
Proof.
  unfold Path.endsWith. rewrite length_append.
  replace (String.length a + String.length suf - String.length suf)%nat
    with (String.length a) by lia.
  rewrite substring_append_r, String.eqb_refl, andb_true_r. apply Nat.leb_le. lia.
Qed.

Lemma endsWith_split (x suf : string) :
  Path.endsWith x suf = true -> exists w, x = w +:+ suf.
Proof.
  unfold Path.endsWith. intros [Hlen Heq]%andb_prop.
  apply Nat.leb_le in Hlen. apply String.eqb_eq in Heq.
  induction x as [|c x IH].
  - cbn in Hlen. destruct suf; [by exists ""|cbn in Hlen; lia].
  - destruct (decide (String.length suf = String.length (String c x))) as [E|E].
    + exists "". rewrite append_nil_l. rewrite <- Heq, E, Nat.sub_diag.
      by rewrite substring_full.
    + cbn [String.length] in *.
      replace (S (String.length x) - String.length suf)%nat
        with (S (String.length x - String.length suf)) in Heq by lia.
      cbn [String.substring] in Heq. destruct IH as [w ->]; [lia|done|].
      exists (String c w). by rewrite append_cons.
Qed.

Lemma prefix_weaken (a b k : string) :
  String.prefix (a +:+ b) k = true -> String.prefix a k = true.
Proof.
  revert k; induction a as [|c a IH]; intros k; [by destruct k|].
  rewrite append_cons. destruct k as [|c' k]; [done|]. cbn [String.prefix].
  destruct (ascii_dec c c'); [apply IH|done].
Qed.

Lemma lastSegment_plain (n acc : string) :
  Spec.plain n = true -> Path.lastSegment n acc = acc +:+ n.
Proof.
  unfold Spec.plain. revert acc; induction n as [|c n IH]; intros acc.
  - by rewrite append_nil_r.
  - cbn [Spec.chars list_ascii_of_string forallb Path.lastSegment].
    intros [Hc Hn]%andb_prop. apply negb_true_iff in Hc. rewrite Hc.
    rewrite IH by done. by rewrite append_assoc.
Qed.

Lemma lastSegment_append (a b acc : string) :
  Path.lastSegment (a +:+ b) acc = Path.lastSegment b (Path.lastSegment a acc).
Proof.
  revert acc; induction a as [|c a IH]; intros acc; [by rewrite append_nil_l|].
  rewrite append_cons. cbn [Path.lastSegment]. destruct (Ascii.eqb c "/"); apply IH.
Qed.

Lemma basename_join (d n : string) :
  Spec.plain n = true -> Path.basename (Path.join d n) = n.
Proof.
  intros Hn. unfold Path.basename, Path.join.
  rewrite lastSegment_append, append_cons, append_nil_l. cbn [Path.lastSegment Ascii.eqb].
  change (Ascii.eqb "/" "/") with true. cbn iota.
  by rewrite lastSegment_plain, append_nil_l.
Qed.

Lemma join_not_empty (d n : string) : String.eqb (Path.join d n) "" = false.
Proof. unfold Path.join. destruct d; by rewrite ?append_nil_l, ?append_cons. Qed.

Lemma entryName_join (d n : string) :
  Spec.plain n = true -> n <> "" -> entryName d (Path.join d n) = Some n.
Proof.
  intros Hn Hne. unfold entryName, Path.join. cbv zeta.
  rewrite <- append_assoc. set (pre := d +:+ "/").
  rewrite prefix_append, (length_append pre n).
  replace (String.length pre + String.length n - String.length pre)%nat
    with (String.length n) by lia.
  rewrite substring_append_r. unfold Path.basename.
  rewrite lastSegment_plain, append_nil_l, String.eqb_refl by done.
  destruct (String.eqb_spec n ""); done.
Qed.

Lemma entryName_outside (d k : string) :
  String.prefix d k = false -> entryName d k = None.
Proof.
  intros Hk. unfold entryName.
  destruct (String.prefix (d +:+ "/") k) eqn:E; [|done].
  apply prefix_weaken in E. congruence.
Qed.

Lemma plain_app (a b : string) :
  Spec.plain (a +:+ b) = Spec.plain a && Spec.plain b.
Proof. unfold Spec.plain. by rewrite chars_app, forallb_app. Qed.

(** The digits of a number hold no separator and no dot. *)
Lemma pretty_N_go_chars (x : N) (s : string) :
  Forall (fun c => c <> "/"%char /\ c <> "."%char) (Spec.chars s) ->
  Forall (fun c => c <> "/"%char /\ c <> "."%char) (Spec.chars (pretty_N_go x s)).
Proof.
  revert s. induction (N.lt_wf_0 x) as [x _ IH]; intros s Hs.
  assert (x = 0 \/ 0 < x)%N as [->|?] by lia.
  - by rewrite pretty_N_go_0.
  - rewrite pretty_N_go_step by done. apply IH; [by apply N.div_lt|].
    cbn [Spec.chars list_ascii_of_string]. constructor; [|done].
    unfold pretty_N_char. by repeat case_match.
Qed.

Lemma pretty_Z_chars (z : Z) :
  Forall (fun c => c <> "/"%char /\ c <> "."%char) (Spec.chars (pretty z)).
Proof.
  assert (HN : forall n : N,
             Forall (fun c => c <> "/"%char /\ c <> "."%char) (Spec.chars (pretty n))).
  { intros n. unfold pretty, pretty_N. case_decide.
    - by repeat constructor.
    - apply pretty_N_go_chars. constructor. }
  destruct z as [|p|p]; unfold pretty, pretty_Z.
  - by repeat constructor.
  - apply HN.
  - rewrite chars_app. apply Forall_app. split; [by repeat constructor|apply HN].
Qed.

Lemma plain_Forall (s : string) :
  Forall (fun c => c <> "/"%char /\ c <> "."%char) (Spec.chars s) -> Spec.plain s = true.
Proof.
  unfold Spec.plain. induction 1 as [|c l [Hc _] _ IH]; [done|].
  cbn [forallb]. rewrite IH, andb_true_r. apply negb_true_iff.
  by destruct (Ascii.eqb_spec c "/").
Qed.

Lemma chars_inj (a b : string) : Spec.chars a = Spec.chars b -> a = b.
Proof.
  intros H. rewrite <- (string_of_list_ascii_of_string a), <- (string_of_list_ascii_of_string b).
  unfold Spec.chars in H. by rewrite H.
Qed.

Lemma replaceParenthesized_plain (name : string) :
  forall skip, Spec.plain name = true -> Spec.plain (replaceParenthesized name skip) = true.
Proof.
  unfold Spec.plain. induction name as [|c name IH]; intros skip; [done|].
  cbn [Spec.chars list_ascii_of_string forallb replaceParenthesized].
  intros [Hc Hn]%andb_prop. destruct skip as [|k]; [|by apply IH].
  destruct (matchLength (String c name)) as [[|n]|]; try by apply IH.
  all: cbn [Spec.chars list_ascii_of_string forallb]; rewrite Hc; by apply IH.
Qed.

(** The name a file gets in the trash: no separator in it, and it is not
    taken for a sidecar. *)
Lemma trashFilename_facts (timestamp : Z) (originalFilename : string) :
  Spec.plain originalFilename = true ->
  Path.endsWith originalFilename ".metadata.json" = false ->
  let trashFilename := pretty timestamp +:+ "_" +:+ originalFilename in
  Spec.plain trashFilename = true
  /\ trashFilename <> ""
  /\ Path.endsWith trashFilename ".metadata.json" = false
  /\ Spec.plain (trashFilename +:+ ".metadata.json") = true
  /\ trashFilename +:+ ".metadata.json" <> "".
Proof.
  intros Hplain Hend trashFilename.
  assert (Hp : Spec.plain trashFilename = true).
  { unfold trashFilename. rewrite !plain_app, Hplain.
    rewrite (plain_Forall _ (pretty_Z_chars timestamp)). done. }
  assert (Hne : forall t, pretty timestamp +:+ "_" +:+ t <> "").
  { intros t H. apply (f_equal String.length) in H. rewrite !length_append in H.
    cbn in H. lia. }
  split; [done|]. split; [apply Hne|]. split; [|split].
  - destruct (Path.endsWith trashFilename ".metadata.json") eqn:E; [|done]. exfalso.
    apply endsWith_split in E as [w E]. apply (f_equal Spec.chars) in E.
    unfold trashFilename in E. rewrite !chars_app in E.
    rewrite app_assoc in E. apply app_eq_inv in E as [(k & Hk & E)|(k & Hk & E)].
    + destruct k as [|c k].
      * cbn [app] in E. apply chars_inj in E. subst originalFilename. discriminate Hend.
      * injection E as <- E.
        assert (Hin : "."%char ∈ Spec.chars (pretty timestamp) ++ Spec.chars "_").
        { rewrite Hk. apply elem_of_app. right. by left. }
        apply elem_of_app in Hin as [Hin|Hin].
        -- pose proof (pretty_Z_chars timestamp) as Hall.
           rewrite Forall_forall in Hall. by destruct (Hall _ Hin).
        -- cbn in Hin. apply list_elem_of_singleton in Hin. discriminate Hin.
    + assert (E' : originalFilename = string_of_list_ascii k +:+ ".metadata.json").
      { apply chars_inj. rewrite chars_app. unfold Spec.chars at 2.
        by rewrite list_ascii_of_string_of_list_ascii. }
      rewrite E', endsWith_append in Hend. discriminate Hend.
  - by rewrite plain_app, Hp.
  - unfold trashFilename. rewrite !append_assoc. apply Hne.
Qed.

Lemma substring_append_l (a b : string) :
  String.substring 0 (String.length a) (a +:+ b) = a.
Proof.
  induction a as [|c a IH]; [by destruct b|]. rewrite append_cons. cbn. by rewrite IH.
Qed.

(** The directory of a path made by [join] with a name that holds no
    separator. *)
Lemma parentOf_join (d n : string) :
  Spec.plain n = true -> parentOf (Path.join d n) = d.
Proof.
  intros Hn. unfold parentOf. rewrite basename_join by done. unfold Path.join.
  rewrite !length_append. cbn [String.length].
  replace (String.length d + (1 + String.length n) - String.length n - 1)%nat
    with (String.length d) by lia.
  apply substring_append_l.
Qed.

(** *** Moving to the trash *)

(** What one turn of the loop of [move-to-trash] does to the result list:
    nothing, or one entry more, for a record at whose path something was,
    whose rename was not refused and went to a directory that is there.
    The files change only in the second case. *)
Lemma moveOne_deleted (photo : Photo) (st st' : State) (r : Completion unit) :
  moveOne photo st = (st', r) ->
  cwd st' = cwd st
  /\ currentScanDirectory st' = currentScanDirectory st
  /\ locked (fs st') = locked (fs st)
  /\ ((deletedFiles st' = deletedFiles st /\ files (fs st') = files (fs st))
      \/ exists md p base name,
           deletedFiles st' = deletedFiles st ++ [md]
           /\ id md = photoId photo
           /\ Spec.absolutePathOf st photo = Some p
           /\ originalPath md = p
           /\ exists_ (fs st) p = true
           /\ (p ∉ locked (fs st))
           /\ currentScanDirectory st = Some base
           /\ photoFilename photo = Some name
           /\ (Path.join (Spec.trashOf base) (Spec.trashFilenameOf st name)
               ∉ locked (fs st))
           /\ (parentOf (Path.join (Spec.trashOf base) (Spec.trashFilenameOf st name))
               ∈ ({[Spec.trashOf base]} ∪ dirs (fs st) : gset string))).
Proof.
  unfold Spec.absolutePathOf, Spec.trashOf, Spec.trashFilenameOf.
  run_m. proj. cases; intros [= <- <-]; proj;
    (split; [done|]); (split; [done|]); (split; [done|]);
    try (left; done);
    right; eexists _, _, _, _; cbn [id originalPath]; repeat split; try done.
  all: try match goal with
           | H : _ || _ = false |- _ ∉ _ =>
               apply orb_false_elim in H as [H1 H2];
               apply bool_decide_eq_false_1 in H1, H2; done
           end.
  all: try match goal with
           | H : bool_decide (_ ∈ _) = true |- _ =>
               apply bool_decide_eq_true_1 in H; set_solver
           end.
  all: match goal with
       | H : negb (bool_decide (_ ∈ _)) = false |- _ =>
           apply negb_false_iff, bool_decide_eq_true_1 in H; set_solver
       end.
Qed.

Lemma moveOne_cannot (photo : Photo) (st : State) :
  Spec.cannotMove st photo ->
  exists st',
    moveOne photo st = (st', Normal tt)
    /\ deletedFiles st' = deletedFiles st
    /\ files (fs st') = files (fs st).
Proof.
  intros Hcannot. destruct (moveOne_normal photo st) as [st' Hrun].
  exists st'. split; [done|].
  destruct (moveOne_deleted _ _ _ _ Hrun)
    as (_ & _ & _ & [[? ?]|(md & p & base & name & _ & _ & Hp & _ & Hex & Hl & Hbase
                            & Hname & Hdst & Hparent)]);
    [done|].
  exfalso. unfold Spec.cannotMove in Hcannot. rewrite Hp in Hcannot.
  destruct Hcannot as [H|[H|[H|[H|(base' & name' & Hbase' & Hname' & H)]]]];
    [congruence..|].
  assert (base' = base) as -> by congruence.
  assert (name' = name) as -> by congruence.
  cbv zeta in H. destruct H as [H|[H1 H2]]; [done|].
  apply elem_of_union in Hparent as [Hparent%elem_of_singleton|Hparent]; done.
Qed.

Lemma forOf_moveOne (photos : list Photo) (st : State) :
  exists st',
    forOf photos moveOne st = (st', Normal tt)
    /\ exists added,
         deletedFiles st' = deletedFiles st ++ added
         /\ (length added <= length photos)%nat
         /\ Forall (fun md => exists photo,
                       photo ∈ photos /\ id md = photoId photo
                       /\ is_Some (truthy (photoPath photo))) added.
Proof.
  revert st; induction photos as [|photo photos IH]; intros st.
  - exists st. split; [done|]. exists []. by rewrite app_nil_r.
  - cbn [forOf]. unfold mbind, M_bind.
    destruct (moveOne_normal photo st) as [st1 Hrun]. rewrite Hrun.
    destruct (IH st1) as (st' & -> & added & E & Hlen & Hall).
    exists st'. split; [done|].
    assert (Hweak : Forall (fun md => exists photo0,
                       photo0 ∈ photo :: photos /\ id md = photoId photo0
                       /\ is_Some (truthy (photoPath photo0))) added).
    { eapply Forall_impl; [exact Hall|]. intros md (p & Hp & ?). exists p.
      split; [by right | done]. }
    destruct (moveOne_deleted _ _ _ _ Hrun)
      as (_ & _ & _ & [[E1 _]|(md & p & base & name & E1 & Hid & Hp & _)]).
    + exists added. rewrite E, E1. split; [done|]. split; [simpl; lia | done].
    + exists (md :: added). rewrite E, E1, <- app_assoc. split; [done|].
      split; [simpl; lia|]. constructor; [|done].
      exists photo. split; [by left|]. split; [done|].
      unfold Spec.absolutePathOf in Hp. by destruct (truthy (photoPath photo)).
Qed.

Lemma moveToTrash_run (photos : list Photo) (st : State) :
  exists st',
    forOf photos moveOne (setDeletedFiles [] st).1 = (st', Normal tt)
    /\ moveToTrash photos st
       = (st', Normal (MovedToTrash (deletedFiles st')
                         ("Moved " +:+ pretty (length (deletedFiles st'))
                          +:+ " files to trash"))).
Proof.
  destruct (forOf_moveOne photos (setDeletedFiles [] st).1) as (st' & Hrun & _).
  exists st'. split; [done|].
  unfold moveToTrash, tryCatch, mbind, M_bind, setDeletedFiles in *. cbn [fst] in *.
  by rewrite Hrun.
Qed.

Lemma trashFilename_plain (timestamp : Z) (originalFilename : string) :
  Spec.plain originalFilename = true ->
  Spec.plain (pretty timestamp +:+ "_" +:+ originalFilename) = true.
Proof.
  intros H. by rewrite !plain_app, H, (plain_Forall _ (pretty_Z_chars timestamp)).
Qed.

Lemma exists_false (f : Fs) (p : string) :
  exists_ f p = false -> files f !! p = None.
Proof.
  unfold exists_. intros [H _]%orb_false_elim. apply bool_decide_eq_false_1 in H.
  destruct (files f !! p); [|done]. exfalso. apply H. eauto.
Qed.

(** A record whose file is there and whose name holds no separator is
    moved, when the trash directory is there or can be made and the
    rename is not refused: the entry is listed and the file is in the
    trash, whether its sidecar can be written or not; when it cannot,
    there is a line on the console and no sidecar. *)
Lemma moveOne_renamed (photo : Photo) (st : State) (base a name : string) (c : Content) :
  currentScanDirectory st = Some base ->
  Spec.absolutePathOf st photo = Some a ->
  files (fs st) !! a = Some c ->
  photoFilename photo = Some name ->
  Spec.plain name = true ->
  files (fs st) !! Spec.trashOf base = None ->
  Spec.trashOf base ∉ locked (fs st) ->
  a ∉ locked (fs st) ->
  let trashPath := Path.join (Spec.trashOf base) (Spec.trashFilenameOf st name) in
  let metadataPath :=
    Path.join (Spec.trashOf base) (Spec.trashFilenameOf st name +:+ ".metadata.json") in
  trashPath ∉ locked (fs st) ->
  exists st',
    moveOne photo st = (st', Normal tt)
    /\ deletedFiles st' = deletedFiles st ++ [Spec.movedEntry st photo base a name]
    /\ cwd st' = cwd st
    /\ currentScanDirectory st' = Some base
    /\ locked (fs st') = locked (fs st)
    /\ dirs (fs st') = {[parentOf a]} ∪ ({[Spec.trashOf base]} ∪ dirs (fs st))
    /\ (if bool_decide (metadataPath ∈ locked (fs st))
        then files (fs st') = <[trashPath := c]> (delete a (files (fs st)))
             /\ console st'
                = console st
                  ++ ["Moving " +:+ a +:+ " to " +:+ trashPath;
                      "Failed to move " +:+ name +:+ " to trash: "
                      +:+ ("EACCES: " +:+ metadataPath);
                      "Photo data: " +:+ photoJson photo]
        else files (fs st')
             = <[metadataPath := Json (Spec.movedEntry st photo base a name)]>
                 (<[trashPath := c]> (delete a (files (fs st))))
             /\ console st' = console st ++ ["Moving " +:+ a +:+ " to " +:+ trashPath]).
Proof.
  intros Hbase Ha Hc Hname Hplain Hnofile Htrash Hsrc trashPath metadataPath Hdst.
  assert (Hex : exists_ (fs st) a = true).
  { unfold exists_. rewrite Hc. rewrite bool_decide_eq_true_2 by eauto. done. }
  assert (Hparent : parentOf trashPath = Spec.trashOf base).
  { apply parentOf_join, trashFilename_plain. by apply replaceParenthesized_plain. }
  unfold Spec.absolutePathOf in Ha.
  destruct (truthy (photoPath photo)) as [path|] eqn:Hpath; [|done].
  injection Ha as Ha.
  unfold trashPath, metadataPath, Spec.trashOf, Spec.trashFilenameOf, Spec.movedEntry in *.
  run_m. proj. rewrite Hpath, Ha. proj. rewrite Hex. proj. rewrite Hbase. proj.
  destruct (exists_ (fs st) (Path.join base ".trash")) eqn:Hthere; proj.
  - assert (Hdir : Path.join base ".trash" ∈ dirs (fs st)).
    { unfold exists_ in Hthere. rewrite Hnofile in Hthere.
      apply orb_true_iff in Hthere as [H|H]; apply bool_decide_eq_true_1 in H;
        [by destruct H|done]. }
    rewrite Hname. proj. rewrite Hex. proj. rewrite Hparent.
    rewrite (bool_decide_eq_false_2 (a ∈ _)) by done.
    rewrite (bool_decide_eq_false_2 (Path.join (Path.join base ".trash") _ ∈ _)) by done.
    proj. rewrite (bool_decide_eq_true_2 _ Hdir), Hc. proj.
    destruct (bool_decide (_ ∈ locked (fs st))) eqn:Hside; proj;
      (eexists; split; [reflexivity|]); proj; repeat split; try done;
      try (clear -Hdir; set_solver); by rewrite <- !app_assoc.
  - rewrite (bool_decide_eq_false_2 (Path.join base ".trash" ∈ locked _)) by done.
    proj. rewrite Hname. proj.
    assert (Hex' : forall d l,
              exists_ {| files := files (fs st); dirs := d; locked := l |} a = true).
    { intros d l. unfold exists_. cbn [files]. rewrite Hc.
      by rewrite bool_decide_eq_true_2 by eauto. }
    rewrite Hex'. proj. rewrite Hparent.
    rewrite (bool_decide_eq_false_2 (a ∈ _)) by done.
    rewrite (bool_decide_eq_false_2 (Path.join (Path.join base ".trash") _ ∈ _)) by done.
    proj.
    rewrite (bool_decide_eq_true_2 (Path.join base ".trash" ∈ _)) by (clear; set_solver).
    rewrite Hc. proj.
    destruct (bool_decide (_ ∈ locked (fs st))) eqn:Hside; proj;
      (eexists; split; [reflexivity|]); proj; repeat split; try done;
      by rewrite <- !app_assoc.
Qed.

Lemma moveToTrash_single (photo : Photo) (st st' : State) (md : Metadata) :
  moveOne photo (setDeletedFiles [] st).1 = (st', Normal tt) ->
  deletedFiles st' = [md] ->
  moveToTrash [photo] st = (st', Normal (MovedToTrash [md] "Moved 1 files to trash")).
Proof.
  intros Hrun Hd.
  unfold moveToTrash, tryCatch, mbind, M_bind, setDeletedFiles in *. cbn [fst forOf] in *.
  unfold mbind, M_bind. rewrite Hrun. unfold mret, M_ret, getState. by rewrite Hd.
Qed.

Lemma join_longer (d n suffix : string) :
  suffix <> "" -> Path.join d (n +:+ suffix) <> Path.join d n /\ Path.join d (n +:+ suffix) <> d.
Proof.
  intros Hs. assert (0 < String.length suffix)%nat by (destruct suffix; [done|cbn; lia]).
  split; intros H0; apply (f_equal String.length) in H0; unfold Path.join in H0;
    rewrite !length_append in H0; cbn in H0; lia.
Qed.

(** A record whose file was moved but whose sidecar the system refuses
    to write: the failure is caught and shown on the console, and the
    record is in the list all the same. *)
Lemma moveToTrash_sidecar (st : State) (photo : Photo) (base a name : string)
    (c : Content) :
  currentScanDirectory st = Some base ->
  Spec.absolutePathOf st photo = Some a ->
  files (fs st) !! a = Some c ->
  photoFilename photo = Some name ->
  Spec.plain name = true ->
  files (fs st) !! Spec.trashOf base = None ->
  let trashPath := Path.join (Spec.trashOf base) (Spec.trashFilenameOf st name) in
  let metadataPath :=
    Path.join (Spec.trashOf base) (Spec.trashFilenameOf st name +:+ ".metadata.json") in
  locked (fs st) = {[metadataPath]} ->
  a <> metadataPath ->
  exists st',
    moveToTrash [photo] st
    = (st', Normal (MovedToTrash [Spec.movedEntry st photo base a name]
                      "Moved 1 files to trash"))
    /\ files (fs st') = <[trashPath := c]> (delete a (files (fs st)))
    /\ console st'
       = console st
         ++ ["Moving " +:+ a +:+ " to " +:+ trashPath;
             "Failed to move " +:+ name +:+ " to trash: "
             +:+ ("EACCES: " +:+ metadataPath);
             "Photo data: " +:+ photoJson photo].
Proof.
  intros Hbase Ha Hc Hname Hplain Hnofile trashPath metadataPath Hlocked Hmeta.
  destruct (join_longer (Spec.trashOf base) (Spec.trashFilenameOf st name)
              ".metadata.json") as [H1 H2]; [done|].
  assert (H3 : Spec.trashOf base <> metadataPath).
  { intros H0. apply (f_equal String.length) in H0.
    unfold metadataPath, Path.join in H0. rewrite !length_append in H0. cbn in H0. lia. }
  assert (Hfree : forall q, q <> metadataPath -> q ∉ locked (fs (setDeletedFiles [] st).1)).
  { intros q Hq. cbn [setDeletedFiles fst fs]. rewrite Hlocked.
    by intros ?%elem_of_singleton. }
  destruct (moveOne_renamed photo (setDeletedFiles [] st).1 base a name c
              Hbase Ha Hc Hname Hplain Hnofile (Hfree _ H3) (Hfree _ Hmeta)
              (Hfree _ (fun E => H1 (eq_sym E))))
    as (st' & Hrun & Hd & _ & _ & _ & _ & Hfiles).
  cbn [setDeletedFiles fst fs console] in Hfiles.
  change (Spec.trashFilenameOf (setDeletedFiles [] st).1 name)
    with (Spec.trashFilenameOf st name) in Hfiles.
  fold trashPath metadataPath in Hfiles.
  rewrite Hlocked, bool_decide_eq_true_2 in Hfiles by by apply elem_of_singleton.
  destruct Hfiles as [Hfiles Hconsole].
  exists st'. split; [|done]. by apply moveToTrash_single.
Qed.

(** The batch of one record that can be moved and one whose path names
    nothing, in either order. *)
Lemma moveToTrash_pair (st : State) (p1 p2 : Photo) (base a b name : string) (c : Content) :
  currentScanDirectory st = Some base ->
  locked (fs st) = ∅ ->
  Spec.absolutePathOf st p1 = Some a ->
  files (fs st) !! a = Some c ->
  parentOf a ∈ dirs (fs st) ->
  photoFilename p1 = Some name ->
  Spec.plain name = true ->
  files (fs st) !! Spec.trashOf base = None ->
  Spec.absolutePathOf st p2 = Some b ->
  exists_ (fs st) b = false ->
  Path.startsWith b (Spec.trashOf base) = false ->
  (exists st' md,
     moveToTrash [p1; p2] st = (st', Normal (MovedToTrash [md] "Moved 1 files to trash"))
     /\ id md = photoId p1 /\ originalPath md = a)
  /\ (exists st' md,
        moveToTrash [p2; p1] st = (st', Normal (MovedToTrash [md] "Moved 1 files to trash"))
        /\ id md = photoId p1 /\ originalPath md = a).
Proof.
  intros Hbase Hlocked Ha Hc Hparent Hname Hplain Hnofile Hb Hmissing Houtside.
  assert (Hab : b <> a).
  { intros ->. apply exists_false in Hmissing. congruence. }
  assert (Hout : forall x, b <> Path.join (Spec.trashOf base) x /\ b <> Spec.trashOf base).
  { intros x. split; intros ->; unfold Path.startsWith, Path.join in Houtside.
    - by rewrite prefix_append in Houtside.
    - by rewrite prefix_self in Houtside. }
  assert (Hbdir : b ∉ dirs (fs st)).
  { unfold exists_ in Hmissing. apply orb_false_elim in Hmissing as [_ H].
    by apply bool_decide_eq_false_1 in H. }
  set (st0 := (setDeletedFiles [] st).1).
  assert (H0 : deletedFiles st0 = []) by done.
  split.
  - destruct (moveToTrash_run [p1; p2] st) as (st' & Hrun & ->). fold st0 in Hrun.
    cbn [forOf] in Hrun. unfold mbind, M_bind in Hrun.
    destruct (moveOne_renamed p1 st0 base a name c)
      as (st1 & Hrun1 & Hd1 & Hcwd & _ & _ & Hdirs & Hfiles); try done.
    1-3: cbn [st0 setDeletedFiles fst fs]; rewrite Hlocked; set_solver.
    rewrite Hrun1 in Hrun.
    cbn [st0 setDeletedFiles fst fs] in Hfiles, Hdirs.
    rewrite Hlocked, bool_decide_eq_false_2 in Hfiles by set_solver.
    destruct Hfiles as [Hfiles _].
    destruct (moveOne_cannot p2 st1) as (st2 & Hrun2 & Hd2 & _).
    { unfold Spec.cannotMove, Spec.absolutePathOf in *. rewrite Hcwd.
      change (cwd st0) with (cwd st). rewrite Hb. left.
      unfold exists_. rewrite Hfiles, Hdirs.
      rewrite !lookup_insert_ne by (intros E; symmetry in E; by apply Hout in E).
      rewrite lookup_delete_ne by done. rewrite (exists_false _ _ Hmissing).
      rewrite bool_decide_eq_false_2 by (by intros [? ?]).
      rewrite bool_decide_eq_false_2; [done|].
      intros [->%elem_of_singleton|[H%elem_of_singleton|H]%elem_of_union]%elem_of_union;
        [done| |done].
      by apply (Hout "") in H. }
    rewrite Hrun2 in Hrun. injection Hrun as <-.
    eexists st2, _. rewrite Hd2, Hd1, H0. done.
  - destruct (moveToTrash_run [p2; p1] st) as (st' & Hrun & ->). fold st0 in Hrun.
    cbn [forOf] in Hrun. unfold mbind, M_bind in Hrun.
    destruct (moveOne_cannot p2 st0) as (st1 & Hrun1 & Hd1 & Hf1).
    { unfold Spec.cannotMove. change (Spec.absolutePathOf st0 p2) with (Spec.absolutePathOf st p2).
      rewrite Hb. by left. }
    rewrite Hrun1 in Hrun.
    destruct (moveOne_deleted _ _ _ _ Hrun1) as (Hcwd & Hdir & Hlock & _).
    destruct (moveOne_renamed p1 st1 base a name c)
      as (st2 & Hrun2 & Hd2 & _); try done.
    + by rewrite Hdir.
    + unfold Spec.absolutePathOf in *. by rewrite Hcwd.
    + by rewrite Hf1.
    + by rewrite Hf1.
    + rewrite Hlock. cbn [st0 setDeletedFiles fst fs]. rewrite Hlocked. set_solver.
    + rewrite Hlock. cbn [st0 setDeletedFiles fst fs]. rewrite Hlocked. set_solver.
    + rewrite Hlock. cbn [st0 setDeletedFiles fst fs]. rewrite Hlocked. set_solver.
    + rewrite Hrun2 in Hrun. injection Hrun as <-.
      eexists st2, _. rewrite Hd2, Hd1, H0. done.
Qed.




(** *** Emptying the trash *)

(** What one turn of the loop of [empty-trash] does: it ends normally,
    deletes nothing but the paths of its entry, creates nothing, and
    counts the entry when its file was there to delete; when the file was
    not, it deletes nothing at all and writes a line to the console. *)
Lemma emptyOne_step (m : Metadata) (st : State) :
  exists st',
    emptyOne m st = (st', Normal tt)
    /\ locked (fs st') = locked (fs st)
    /\ (forall p, p ∉ Spec.entryPaths m -> files (fs st') !! p = files (fs st) !! p)
    /\ (forall p, files (fs st) !! p = None -> files (fs st') !! p = None)
    /\ (forall l, l ∈ console st -> l ∈ console st')
    /\ (if Spec.backed (fs st) m
        then deletedCount st' = S (deletedCount st)
             /\ (forall p, truthy (tempPath m) = Some p -> files (fs st') !! p = None)
        else deletedCount st' = deletedCount st
             /\ (forall p, truthy (tempPath m) = Some p ->
                   files (fs st') = files (fs st)
                   /\ exists error,
                        "Failed to delete " +:+ filename m +:+ ": " +:+ error ∈ console st')).
Proof.
  unfold Spec.backed, Spec.entryPaths, Spec.sidecarOf.
  run_m. proj. cases.
  all: eexists; split; [reflexivity|]; proj; cbn [option_list app].
  all: split; [reflexivity|].
  all: split;
    [intros p Hp; rewrite ?lookup_delete_ne; [reflexivity|set_solver..]|].
  all: split;
    [intros p Hp; rewrite ?lookup_delete_None; auto|].
  all: split; [intros l Hl; set_solver|].
  all: split; [reflexivity|].
  all: intros p [= <-].
  all: try (rewrite ?lookup_delete_None; by auto).
  all: split; [reflexivity|]; eexists; apply elem_of_app; right; apply list_elem_of_singleton;
    reflexivity.
Qed.

Lemma backed_agree (f f' : Fs) (m : Metadata) :
  locked f' = locked f ->
  (forall p, truthy (tempPath m) = Some p -> files f' !! p = files f !! p) ->
  Spec.backed f' m = Spec.backed f m.
Proof.
  intros Hl Hf. unfold Spec.backed. destruct (truthy (tempPath m)) as [p|]; [|done].
  by rewrite Hl, (Hf p).
Qed.

Lemma elem_of_entryPaths (m : Metadata) (ms : list Metadata) (p : string) :
  m ∈ ms -> p ∈ Spec.entryPaths m -> p ∈ concat (map Spec.entryPaths ms).
Proof.
  intros Hm Hp. apply list_elem_of_In, in_concat. exists (Spec.entryPaths m).
  split; [apply in_map|]; by apply list_elem_of_In.
Qed.

Lemma tempPath_entryPaths (m : Metadata) (p : string) :
  truthy (tempPath m) = Some p -> p ∈ Spec.entryPaths m.
Proof. intros H. unfold Spec.entryPaths. rewrite H. apply elem_of_app. left. by left. Qed.

(** The loop of [empty-trash] over entries that share no path: it counts
    the entries whose file was there to delete, whatever their place in
    the list, deletes the file of each, and for each entry whose file
    was not there leaves the paths of that entry alone and writes a
    line. *)
Lemma forOf_emptyOne (ms : list Metadata) (st : State) :
  NoDup (concat (map Spec.entryPaths ms)) ->
  exists st',
    forOf ms emptyOne st = (st', Normal tt)
    /\ locked (fs st') = locked (fs st)
    /\ (forall p, p ∉ concat (map Spec.entryPaths ms) ->
                  files (fs st') !! p = files (fs st) !! p)
    /\ (forall p, files (fs st) !! p = None -> files (fs st') !! p = None)
    /\ (forall l, l ∈ console st -> l ∈ console st')
    /\ deletedCount st'
       = (deletedCount st + length (List.filter (Spec.backed (fs st)) ms))%nat
    /\ (forall m p,
          m ∈ ms -> truthy (tempPath m) = Some p ->
          if Spec.backed (fs st) m
          then files (fs st') !! p = None
          else (forall q, q ∈ Spec.entryPaths m ->
                          files (fs st') !! q = files (fs st) !! q)
               /\ exists error,
                    "Failed to delete " +:+ filename m +:+ ": " +:+ error ∈ console st').
Proof.
  revert st; induction ms as [|m ms IH]; intros st Hnd.
  - exists st. repeat split; try done.
    by intros m p ?%elem_of_nil.
  - cbn [map concat] in Hnd. apply NoDup_app in Hnd as (Hm & Hdisj & Hrest).
    destruct (emptyOne_step m st) as (st1 & Hrun1 & Hl1 & Hout1 & Hnone1 & Hcon1 & Hb1).
    destruct (IH st1 Hrest) as (st' & Hrun & Hl & Hout & Hnone & Hcon & Hcount & Hall).
    assert (Hsame : forall m', m' ∈ ms -> Spec.backed (fs st1) m' = Spec.backed (fs st) m').
    { intros m' Hin. apply backed_agree; [done|]. intros p Hp. apply Hout1.
      intros Hpm. apply (Hdisj p Hpm).
      eapply elem_of_entryPaths; [done|]. by apply tempPath_entryPaths. }
    exists st'. split; [|split; [|split; [|split; [|split; [|split]]]]].
    + cbn [forOf]. unfold mbind, M_bind. by rewrite Hrun1.
    + congruence.
    + intros p Hp. cbn [map concat] in Hp. apply not_elem_of_app in Hp as [Hp1 Hp2].
      by rewrite Hout, Hout1.
    + auto.
    + auto.
    + rewrite Hcount. cbn [List.filter].
      rewrite (filter_ext_in (Spec.backed (fs st1)) (Spec.backed (fs st)) ms)
        by (intros m' Hin; by apply Hsame, list_elem_of_In).
      destruct (Spec.backed (fs st) m); destruct Hb1 as [-> _]; cbn [length]; lia.
    + intros m' p [->|Hin]%elem_of_cons Hp.
      * destruct (Spec.backed (fs st) m).
        -- destruct Hb1 as [_ Hgone]. apply Hnone, (Hgone p Hp).
        -- destruct Hb1 as [_ Hleft]. destruct (Hleft p Hp) as (Hfiles & error & Hline).
           split; [|exists error; by apply Hcon].
           intros q Hq. rewrite Hout, Hfiles; [done|]. by apply Hdisj.
      * specialize (Hall m' p Hin Hp). rewrite (Hsame m' Hin) in Hall.
        destruct (Spec.backed (fs st) m'); [done|].
        destruct Hall as (Hkeep & error & Hline). split; [|by exists error].
        intros q Hq. rewrite (Hkeep q Hq). apply Hout1.
        intros Hqm. apply (Hdisj q Hqm). by eapply elem_of_entryPaths.
Qed.

Lemma forOf_frame {A} (R : State -> State -> Prop) (body : A -> M unit) (l : list A) :
  (forall st, R st st) ->
  (forall a b c, R a b -> R b c -> R a c) ->
  (forall x st st' r, body x st = (st', r) -> R st st') ->
  forall st st' r, forOf l body st = (st', r) -> R st st'.
Proof.
  intros Hrefl Htrans Hbody. induction l as [|x l IH]; intros st st' r Hrun.
  - injection Hrun as <- _. apply Hrefl.
  - cbn [forOf] in Hrun. unfold mbind, M_bind in Hrun.
    destruct (body x st) as [st1 [[]|error]] eqn:E.
    + eapply Htrans; [by eapply Hbody|by eapply IH].
    + injection Hrun as <- _. by eapply Hbody.
Qed.

(** Listing the trash ends normally and leaves the files where they
    are. *)
Lemma getAllTrashFiles_run (st : State) :
  exists st1 trashFiles,
    getAllTrashFiles st = (st1, Normal trashFiles)
    /\ files (fs st1) = files (fs st)
    /\ locked (fs st1) = locked (fs st)
    /\ (forall l, l ∈ console st -> l ∈ console st1).
Proof.
  unfold getAllTrashFiles, readdir. run_m. proj. cases.
  all: eexists _, _; split; [reflexivity|]; proj.
  all: try match goal with
           | H : forOf _ _ _ = _ |- _ =>
               apply (forOf_frame
                        (fun a b => files (fs b) = files (fs a)
                                    /\ locked (fs b) = locked (fs a)
                                    /\ forall l, l ∈ console a -> l ∈ console b)) in H;
               [ proj; destruct H as (? & ? & ?)
               | done
               | intros ? ? ? (? & ? & ?) (? & ? & ?);
                 split; [congruence|split; [congruence|auto]]
               | intros ? ? ? ? ?; cases; done ]
           end.
  all: split; [done|]; split; [done|].
  all: intros l Hl'; rewrite ?elem_of_app; auto.
Qed.

Lemma emptyTrash_run (st st1 st' : State) (trashFiles : list Metadata) :
  getAllTrashFiles st = (st1, Normal trashFiles) ->
  forOf trashFiles emptyOne (setDeletedCount 0 st1).1 = (st', Normal tt) ->
  emptyTrash st
  = (st', Normal (TrashEmptied (deletedCount st')
                    ("Permanently deleted " +:+ pretty (deletedCount st') +:+ " files"))).
Proof.
  intros Hlist Hrun.
  unfold emptyTrash, tryCatch, mbind, M_bind, setDeletedCount in *. cbn [fst] in *.
  by rewrite Hlist, Hrun.
Qed.

(** C6, as the code has it: emptying the trash never raises and answers
    with a count; when the listed entries share no path, the count is the
    number of entries whose backing file was there to delete, wherever
    the others stand in the list: 3, not 2, for three entries with their
    file and one sidecar without. The file of each counted entry is
    gone; for an entry whose file was not there, one line is written to
    the console and the paths of the entry, its sidecar among them, are
    left as they were. *)
Theorem emptyTrash_counts_deleted_files :
  (forall st,
     exists st' n,
       emptyTrash st
       = (st', Normal (TrashEmptied n ("Permanently deleted " +:+ pretty n +:+ " files"))))
  /\ (forall st trashFiles,
        (getAllTrashFiles st).2 = Normal trashFiles ->
        NoDup (concat (map Spec.entryPaths trashFiles)) ->
        exists st',
          emptyTrash st
          = (st', Normal (TrashEmptied
                            (length (List.filter (Spec.backed (fs st)) trashFiles))
                            ("Permanently deleted "
                             +:+ pretty (length (List.filter (Spec.backed (fs st)) trashFiles))
                             +:+ " files")))
          /\ forall m p,
               m ∈ trashFiles -> truthy (tempPath m) = Some p ->
               if Spec.backed (fs st) m
               then files (fs st') !! p = None
               else (forall q, q ∈ Spec.entryPaths m ->
                               files (fs st') !! q = files (fs st) !! q)
                    /\ exists error,
                         "Failed to delete " +:+ filename m +:+ ": " +:+ error
                         ∈ console st').
Proof.
  split.
  - intros st. destruct (getAllTrashFiles_run st) as (st1 & trashFiles & Hlist & _).
    destruct (forOf_normal emptyOne trashFiles (setDeletedCount 0 st1).1 emptyOne_normal)
      as [st' Hrun].
    exists st', (deletedCount st'). by apply (emptyTrash_run st st1 st' trashFiles).
  - intros st trashFiles Hlisted Hnd.
    destruct (getAllTrashFiles_run st) as (st1 & l & Hlist & Hfiles & Hlocked & _).
    rewrite Hlist in Hlisted. injection Hlisted as ->.
    destruct (forOf_emptyOne trashFiles (setDeletedCount 0 st1).1 Hnd)
      as (st' & Hrun & _ & _ & _ & _ & Hcount & Hall).
    assert (Hsame : forall m, Spec.backed (fs (setDeletedCount 0 st1).1) m
                              = Spec.backed (fs st) m).
    { intros m. apply backed_agree; [done|]. intros p _. cbn. by rewrite Hfiles. }
    exists st'. split.
    + rewrite (emptyTrash_run st st1 st' trashFiles Hlist Hrun), Hcount.
      rewrite (filter_ext _ _ Hsame). done.
    + intros m p Hm Hp. specialize (Hall m p Hm Hp). rewrite Hsame in Hall.
      destruct (Spec.backed (fs st) m); [done|].
      destruct Hall as [Hkeep Hline]. split; [|done].
      intros q Hq. rewrite (Hkeep q Hq). cbn. by rewrite Hfiles.
Qed.

Lemma emptyTrash_counts_deleted_files_witness :
  exists st',
    emptyTrash (Spec.serverState Spec.trashOfFour)
    = (st', Normal (TrashEmptied 3 "Permanently deleted 3 files"))
    /\ forall m p,
         m ∈ Spec.listedOfFour -> truthy (tempPath m) = Some p ->
         if Spec.backed Spec.trashOfFour m
         then files (fs st') !! p = None
         else (forall q, q ∈ Spec.entryPaths m ->
                         files (fs st') !! q = files Spec.trashOfFour !! q)
              /\ exists error,
                   "Failed to delete " +:+ filename m +:+ ": " +:+ error ∈ console st'.
Proof.
  assert (Hlisted : (getAllTrashFiles (Spec.serverState Spec.trashOfFour)).2
                    = Normal Spec.listedOfFour) by (vm_compute; reflexivity).
  assert (Hnd : NoDup (concat (map Spec.entryPaths Spec.listedOfFour))).
  { apply (bool_decide_unpack (NoDup (concat (map Spec.entryPaths Spec.listedOfFour)))).
    vm_compute. exact I. }
  exact (proj2 emptyTrash_counts_deleted_files
           (Spec.serverState Spec.trashOfFour) Spec.listedOfFour Hlisted Hnd).
Defined.

(** C6 fails as stated: with three entries that have their file and one
    sidecar without, the answer counts 3 deletions, not 2; the one line on
    the console is for the orphan, whose sidecar stays in the trash. *)
Lemma emptyTrash_reports_three :
  (getAllTrashFiles (Spec.serverState Spec.trashOfFour)).2 = Normal Spec.listedOfFour
  /\ map (Spec.backed Spec.trashOfFour) Spec.listedOfFour = [true; true; true; false]
  /\ (emptyTrash (Spec.serverState Spec.trashOfFour)).2
     = Normal (TrashEmptied 3 "Permanently deleted 3 files")
  /\ (forall message,
        (emptyTrash (Spec.serverState Spec.trashOfFour)).2
        <> Normal (TrashEmptied 2 message))
  /\ console (emptyTrash (Spec.serverState Spec.trashOfFour)).1
     = ["Failed to delete d.jpg: ENOENT: /photos/.trash/1700000000000_d.jpg"]
  /\ files (fs (emptyTrash (Spec.serverState Spec.trashOfFour)).1)
       !! "/photos/.trash/1700000000000_d.jpg.metadata.json"
     = Some (Json (Spec.sidecar "d.jpg")).
Proof.
  split; [vm_compute; reflexivity|]. split; [vm_compute; reflexivity|].
  split; [vm_compute; reflexivity|].
  split; [intros message H; vm_compute in H; discriminate H|].
  split; vm_compute; reflexivity.
Qed.

End Trash.

(* ===================================================================== *)
(** * Part IV: further properties of the code                             *)
(* ===================================================================== *)

(** ** Hashes as strings: the two conversions and the distance *)

Section HashStrings.

Import DuplicateDetection.

Lemma hexOfBits_hexBits (h : string) :
  Spec.isCanonical h = true -> Spec.hexOfBits (Spec.hexBits h) = h.
Proof.
  unfold Spec.isCanonical, Spec.hexBits. induction h as [|c h IH]; [done|].
  cbn [Spec.chars list_ascii_of_string forallb flat_map].
  intros [Hc Hh]%andb_prop. fold (Spec.chars h) in *.
  destruct (lowerHexDigit_char c Hc) as [_ E].
  unfold Spec.bitsOfDigit in *. cbn [app Spec.hexOfBits].
  rewrite <- E. f_equal. by apply IH.
Qed.

Lemma bitsOfDigit_value (b3 b2 b1 b0 : bool) :
  Spec.bitsOfDigit (Spec.bitsValueFrom 0 [b3; b2; b1; b0]) = [b3; b2; b1; b0].
Proof. by destruct b3, b2, b1, b0. Qed.

Lemma hexBits_hexOfBits (n : nat) (bs : list bool) :
  length bs = (4 * n)%nat -> Spec.hexBits (Spec.hexOfBits bs) = bs.
Proof.
  revert bs; induction n as [|n IH]; intros bs Hlen.
  - by destruct bs.
  - destruct bs as [|b3 [|b2 [|b1 [|b0 r]]]]; try (cbn in Hlen; lia).
    cbn [Spec.hexOfBits]. unfold Spec.hexBits.
    cbn [Spec.chars list_ascii_of_string flat_map].
    destruct (nibble_char b3 b2 b1 b0) as [_ ->]. cbn [default Datatypes.id].
    rewrite bitsOfDigit_value. cbn [app]. do 4 f_equal.
    apply IH. cbn in Hlen. lia.
Qed.

(** X1: decoding a hash and encoding it again gives the hash back, for the
    lower-case hexadecimal strings the encoder itself writes. *)
Theorem binaryToHex_hexToBinary (h : string) :
  Spec.isCanonical h = true -> binaryToHex (hexToBinary h) = h.
Proof.
  intros Hc. rewrite hexToBinary_bits by by apply canonical_hex.
  rewrite (binaryToHex_bits _ (String.length h)) by apply length_hexBits.
  by apply hexOfBits_hexBits.
Qed.

Lemma binaryToHex_hexToBinary_witness :
  binaryToHex (hexToBinary "aa55aa55aa55aa55") = "aa55aa55aa55aa55".
Proof. apply binaryToHex_hexToBinary. reflexivity. Defined.

(** X2: encoding a string of bits whose length is a multiple of four and
    decoding it again gives the bits back. *)
Theorem hexToBinary_binaryToHex (bs : list bool) (n : nat) :
  length bs = (4 * n)%nat ->
  hexToBinary (binaryToHex (Spec.bitString bs)) = Spec.bitString bs.
Proof.
  intros Hlen. rewrite (binaryToHex_bits bs n Hlen).
  destruct (hexOfBits_facts n bs 0 Hlen) as (_ & Hc & _).
  rewrite hexToBinary_bits by by apply canonical_hex.
  by rewrite (hexBits_hexOfBits n).
Qed.

Lemma hexToBinary_binaryToHex_witness :
  hexToBinary (binaryToHex "10100101") = "10100101".
Proof.
  apply (hexToBinary_binaryToHex [true; false; true; false; false; true; false; true] 2).
  reflexivity.
Defined.

(** The four characters [hexToBinary] writes for one character of the
    hash, whatever that character is. *)
Lemma chunk_length (c : ascii) :
  String.length (Js.padStart (Js.toString (Js.parseInt (String c "") 16) 2) 4 "0") = 4%nat.
Proof. destruct c as [[] [] [] [] [] [] [] []]; reflexivity. Qed.

Lemma chunk_not_hex (c : ascii) :
  Spec.isHexDigit c = false ->
  Js.padStart (Js.toString (Js.parseInt (String c "") 16) 2) 4 "0" = "0NaN".
Proof. destruct c as [[] [] [] [] [] [] [] []]; (reflexivity || discriminate). Qed.

Lemma length_hexToBinary_loop (h acc : string) :
  String.length (hexToBinary_loop h acc)
  = (String.length acc + 4 * String.length h)%nat.
Proof.
  revert acc; induction h as [|c h IH]; intros acc; cbn [hexToBinary_loop String.length].
  - lia.
  - rewrite IH, length_append, chunk_length. lia.
Qed.

Lemma length_hexToBinary (h : string) :
  String.length (hexToBinary h) = (4 * String.length h)%nat.
Proof. unfold hexToBinary. by rewrite length_hexToBinary_loop. Qed.

Lemma hexToBinary_loop_not_hex (h1 h2 acc : string) :
  String.length h1 = String.length h2 ->
  forallb (fun c => negb (Spec.isHexDigit c)) (Spec.chars h1) = true ->
  forallb (fun c => negb (Spec.isHexDigit c)) (Spec.chars h2) = true ->
  hexToBinary_loop h1 acc = hexToBinary_loop h2 acc.
Proof.
  revert h2 acc; induction h1 as [|c1 h1 IH]; intros [|c2 h2] acc Hlen H1 H2;
    try discriminate Hlen; [done|].
  cbn [Spec.chars list_ascii_of_string forallb] in H1, H2.
  apply andb_prop in H1 as [Hc1 H1]. apply andb_prop in H2 as [Hc2 H2].
  apply negb_true_iff in Hc1, Hc2.
  cbn [hexToBinary_loop]. rewrite (chunk_not_hex c1 Hc1), (chunk_not_hex c2 Hc2).
  apply IH; [by injection Hlen|done..].
Qed.

(** The counting loop counts the positions that differ. *)
Lemma countDifferences_differing (r1 r2 pre : string) (d : nat) :
  String.length r1 = String.length r2 ->
  countDifferences r1 (String.length pre) (pre +:+ r2) d = (d + Spec.differing r1 r2)%nat.
Proof.
  revert r2 pre d; induction r1 as [|c1 r1 IH]; intros [|c2 r2] pre d Hlen;
    try discriminate Hlen.
  - cbn. lia.
  - cbn [countDifferences Spec.differing].
    assert (Hget : Js.charAt (pre +:+ String c2 r2) (String.length pre) = Some c2).
    { unfold Js.charAt. rewrite <- (Nat.add_0_r (String.length pre)).
      by rewrite get_append_r. }
    rewrite Hget.
    assert (Hpre : pre +:+ String c2 r2 = (pre +:+ String c2 "") +:+ r2).
    { by rewrite append_assoc. }
    assert (Hlen' : S (String.length pre) = String.length (pre +:+ String c2 "")).
    { rewrite length_append. simpl. lia. }
    rewrite Hpre, Hlen'. injection Hlen as Hlen.
    destruct (Ascii.eqb_spec c1 c2) as [->|Hne].
    + rewrite decide_True by done. rewrite IH by done. lia.
    + rewrite decide_False by congruence. rewrite IH by done. lia.
Qed.

Lemma differing_diag (s : string) : Spec.differing s s = 0%nat.
Proof. induction s as [|c s IH]; [done|]. cbn. by rewrite Ascii.eqb_refl. Qed.

Lemma differing_comm (s1 s2 : string) : Spec.differing s1 s2 = Spec.differing s2 s1.
Proof.
  revert s2; induction s1 as [|c1 s1 IH]; intros [|c2 s2]; try done.
  cbn. by rewrite IH, Ascii.eqb_sym.
Qed.

Lemma differing_le (s1 s2 : string) : (Spec.differing s1 s2 <= String.length s1)%nat.
Proof.
  revert s2; induction s1 as [|c1 s1 IH]; intros [|c2 s2]; cbn; try lia.
  specialize (IH s2). destruct (Ascii.eqb c1 c2); lia.
Qed.

(** The distance of two strings of one length, hexadecimal or not: the
    number of characters in which their binary forms differ. *)
Lemma calculateHammingDistance_differing (h1 h2 : string) :
  String.length h1 = String.length h2 ->
  calculateHammingDistance h1 h2
  = Finite (Spec.differing (hexToBinary h1) (hexToBinary h2)).
Proof.
  intros Hlen. unfold calculateHammingDistance.
  rewrite Hlen, Nat.eqb_refl. cbn [negb]. f_equal.
  apply (countDifferences_differing (hexToBinary h1) (hexToBinary h2) "" 0).
  by rewrite !length_hexToBinary, Hlen.
Qed.

Lemma similarity_at_zero :
  (max0 ((maxDistance - inject_Z (Z.of_nat 0)) / maxDistance * 100) == 100)%Q.
Proof. reflexivity. Qed.

Lemma similarity_le_100 (d : nat) :
  ((maxDistance - inject_Z (Z.of_nat d)) / maxDistance * 100 <= 100)%Q.
Proof.
  unfold maxDistance, Qle, Qdiv, Qmult, Qminus, Qplus, Qopp, Qinv, inject_Z. cbn. lia.
Qed.

Lemma calculateSimilarity_le_100 (hash1 hash2 : string) :
  (calculateSimilarity hash1 hash2 <= 100)%Q.
Proof.
  unfold calculateSimilarity.
  destruct (calculateHammingDistance hash1 hash2) as [d|]; [|discriminate].
  unfold max0. destruct (Qle_bool _ 0); [discriminate|]. apply similarity_le_100.
Qed.

(** X3: every similarity is a percentage: between 0 and 100, whatever the two
    strings are. *)
Theorem calculateSimilarity_range (hash1 hash2 : string) :
  (0 <= calculateSimilarity hash1 hash2 <= 100)%Q.
Proof.
  split; [|apply calculateSimilarity_le_100].
  unfold calculateSimilarity.
  destruct (calculateHammingDistance hash1 hash2) as [d|]; [|discriminate].
  unfold max0.
  destruct (Qle_bool _ 0) eqn:E; [discriminate|].
  apply Qlt_le_weak, Qnot_le_lt. intros H%Qle_bool_iff. congruence.
Qed.

Lemma calculateHammingDistance_diag (h : string) :
  calculateHammingDistance h h = Finite 0.
Proof. rewrite calculateHammingDistance_differing by done. by rewrite differing_diag. Qed.

(** X4: every string is at distance 0 from itself and 100 percent similar to
    itself, a hash or not. *)
Theorem calculateSimilarity_self (h : string) :
  calculateHammingDistance h h = Finite 0
  /\ (calculateSimilarity h h == 100)%Q.
Proof.
  pose proof (calculateHammingDistance_diag h) as E.
  split; [exact E|]. unfold calculateSimilarity. rewrite E. apply similarity_at_zero.
Qed.

(** X5: distance and similarity do not depend on the order of the two
    strings, whatever they are. *)
Theorem calculateSimilarity_symmetric (hash1 hash2 : string) :
  calculateHammingDistance hash1 hash2 = calculateHammingDistance hash2 hash1
  /\ calculateSimilarity hash1 hash2 = calculateSimilarity hash2 hash1.
Proof.
  assert (E : calculateHammingDistance hash1 hash2 = calculateHammingDistance hash2 hash1).
  { destruct (decide (String.length hash1 = String.length hash2)) as [Hlen|Hlen].
    - rewrite !calculateHammingDistance_differing by done. by rewrite differing_comm.
    - rewrite !calculateHammingDistance_lengths by done. done. }
  split; [done|]. unfold calculateSimilarity. by rewrite E.
Qed.

(** X6: characters that are no hexadecimal digits all read as the same four
    characters: two strings of one length without any hexadecimal digit
    are at distance 0 and 100 percent similar. Two empty hashes are. *)
Theorem calculateSimilarity_not_hex (hash1 hash2 : string) :
  String.length hash1 = String.length hash2 ->
  forallb (fun c => negb (Spec.isHexDigit c)) (Spec.chars hash1) = true ->
  forallb (fun c => negb (Spec.isHexDigit c)) (Spec.chars hash2) = true ->
  calculateHammingDistance hash1 hash2 = Finite 0
  /\ (calculateSimilarity hash1 hash2 == 100)%Q.
Proof.
  intros Hlen H1 H2.
  assert (E : calculateHammingDistance hash1 hash2 = Finite 0).
  { rewrite calculateHammingDistance_differing by done. unfold hexToBinary.
    rewrite (hexToBinary_loop_not_hex hash1 hash2 "" Hlen H1 H2). by rewrite differing_diag. }
  split; [done|]. unfold calculateSimilarity. rewrite E. apply similarity_at_zero.
Qed.

Lemma calculateSimilarity_not_hex_witness :
  calculateHammingDistance "photo-xyz" "IMG_ZZZZ." = Finite 0
  /\ (calculateSimilarity "photo-xyz" "IMG_ZZZZ." == 100)%Q.
Proof. apply calculateSimilarity_not_hex; reflexivity. Defined.

End HashStrings.

(** ** The clusterer: what its groups never do *)

Section Groups.

Import DuplicateDetection.

Lemma findDuplicateGroups_cluster (imageHashes : list (string * ImageHash)) (t : Q) :
  NoDup (keys imageHashes) ->
  findDuplicateGroups imageHashes t = Spec.cluster t imageHashes [] 0.
Proof.
  intros Hnd. unfold findDuplicateGroups.
  rewrite (findGroups_cluster imageHashes t imageHashes [] ∅ []); [done | done | | ].
  - intros [k v] He. by apply get_entry.
  - intros k _. set_solver.
Qed.

Lemma get_elem_of (m : list (string * ImageHash)) (k : string) (v : ImageHash) :
  get m k = Some v -> (k, v) ∈ m.
Proof.
  induction m as [|[k' v'] m IH]; [done|]. cbn [get].
  destruct (String.eqb_spec k' k) as [->|Hne].
  - intros [= ->]. by left.
  - intros H. right. by apply IH.
Qed.

Lemma joiners_keys (t : Q) (h : ImageHash) (assigned : list string)
    (later : list (string * ImageHash)) (x : string) :
  x ∈ map fst (filter (fun e => Spec.joins t h assigned e = true) later) ->
  x ∈ keys later /\ x ∉ assigned.
Proof.
  intros ([k v] & -> & [Hj Hin]%list_elem_of_filter)%list_elem_of_fmap.
  split; [apply list_elem_of_fmap; by exists (k, v)|].
  unfold Spec.joins in Hj. apply andb_prop in Hj as [Hj _].
  by apply bool_decide_eq_true_1 in Hj.
Qed.

Lemma joiners_NoDup (t : Q) (h : ImageHash) (assigned : list string)
    (later : list (string * ImageHash)) :
  NoDup (keys later) ->
  NoDup (map fst (filter (fun e => Spec.joins t h assigned e = true) later)).
Proof.
  induction later as [|[k v] later IH]; [constructor|].
  intros [Hk Hnd]%NoDup_cons. rewrite filter_cons. case_decide; [|by apply IH].
  cbn [map fst]. apply NoDup_cons. split; [|by apply IH].
  intros Hin%joiners_keys. by destruct Hin.
Qed.

(** What the greedy clustering emits: ids of the entries, none of them
    assigned before, and none twice. *)
Lemma cluster_members (t : Q) (entries : list (string * ImageHash))
    (assigned : list string) (n : nat) :
  NoDup (keys entries) ->
  NoDup (concat (map photos (Spec.cluster t entries assigned n)))
  /\ forall x, x ∈ concat (map photos (Spec.cluster t entries assigned n)) ->
               x ∈ keys entries /\ x ∉ assigned.
Proof.
  revert assigned n; induction entries as [|[s h] later IH]; intros assigned n Hnd.
  - split; [constructor|]. by intros x ?%elem_of_nil.
  - apply NoDup_cons in Hnd as [Hs Hnd]. cbn [Spec.cluster].
    case_bool_decide as Hin.
    { destruct (IH assigned n Hnd) as [H1 H2]. split; [done|].
      intros x Hx. destruct (H2 x Hx). split; [by right|done]. }
    destruct (filter _ later) as [|j joiners] eqn:Hj.
    { destruct (IH assigned n Hnd) as [H1 H2]. split; [done|].
      intros x Hx. destruct (H2 x Hx). split; [by right|done]. }
    rewrite <- Hj in *. clear Hj j joiners.
    set (joiners := filter (fun e => Spec.joins t h assigned e = true) later) in *.
    destruct (IH (assigned ++ map fst joiners) (S n) Hnd) as [H1 H2].
    cbn [map concat photos]. split.
    + rewrite <- app_comm_cons. apply NoDup_cons. split.
      * intros [Hx|Hx]%elem_of_app.
        -- apply joiners_keys in Hx as [Hx _]. done.
        -- apply H2 in Hx as [Hx _]. done.
      * apply NoDup_app. split; [by apply joiners_NoDup|]. split; [|done].
        intros x Hx Hx'. apply H2 in Hx' as [_ Hx']. apply Hx'.
        apply elem_of_app. by right.
    + intros x. rewrite <- app_comm_cons.
      intros [->|[Hx|Hx]%elem_of_app]%elem_of_cons.
      * split; [by left|done].
      * apply joiners_keys in Hx as [Hx Hx']. split; [by right|done].
      * apply H2 in Hx as [Hx Hx']. split; [by right|].
        intros Ha. apply Hx'. apply elem_of_app. by left.
Qed.

(** X7: no photo is in two groups, nor twice in one, and the groups hold ids
    of the map only. *)
Theorem findDuplicateGroups_disjoint (imageHashes : Map) (similarityThreshold : Q) :
  NoDup (keys imageHashes) ->
  NoDup (concat (map photos (findDuplicateGroups imageHashes similarityThreshold)))
  /\ forall g photoId,
       g ∈ findDuplicateGroups imageHashes similarityThreshold ->
       photoId ∈ photos g ->
       photoId ∈ keys imageHashes.
Proof.
  intros Hnd. rewrite findDuplicateGroups_cluster by done.
  destruct (cluster_members similarityThreshold imageHashes [] 0 Hnd) as [H1 H2].
  split; [done|]. intros g x Hg Hx. apply (H2 x).
  apply list_elem_of_In, in_concat. exists (photos g).
  split; [apply in_map|]; by apply list_elem_of_In.
Qed.

Lemma findDuplicateGroups_disjoint_witness :
  NoDup (concat (map photos (findDuplicateGroups Spec.fourPhotos 90))).
Proof.
  apply (findDuplicateGroups_disjoint Spec.fourPhotos 90).
  apply (bool_decide_unpack (NoDup (keys Spec.fourPhotos))). vm_compute. exact I.
Defined.

Lemma meets_same_hash (t : Q) (seed h1 h2 : ImageHash) :
  hash h1 = hash h2 -> Spec.meets t seed h1 = Spec.meets t seed h2.
Proof. unfold Spec.meets. by intros ->. Qed.

Lemma meets_self (t : Q) (h1 h2 : ImageHash) :
  (t <= 100)%Q -> hash h1 = hash h2 -> Spec.meets t h1 h2 = true.
Proof.
  intros Ht E. unfold Spec.meets. rewrite E. apply Qle_bool_iff.
  unfold calculateSimilarity. rewrite calculateHammingDistance_diag.
  by rewrite similarity_at_zero.
Qed.

Lemma entry_unique (entries : list (string * ImageHash)) (k : string) (v v' : ImageHash) :
  NoDup (keys entries) -> (k, v) ∈ entries -> (k, v') ∈ entries -> v = v'.
Proof.
  intros Hnd H1 H2. apply (get_entry _ _ _ Hnd) in H1, H2. congruence.
Qed.

(** Two entries with one hash, neither assigned yet, end in one group of
    the greedy clustering. *)
Lemma cluster_same_hash (t : Q) (entries : list (string * ImageHash))
    (assigned : list string) (n : nat) (x y : string) (hx hy : ImageHash) :
  (t <= 100)%Q ->
  NoDup (keys entries) ->
  (x, hx) ∈ entries -> (y, hy) ∈ entries -> x <> y ->
  hash hx = hash hy ->
  x ∉ assigned -> y ∉ assigned ->
  exists g, g ∈ Spec.cluster t entries assigned n /\ x ∈ photos g /\ y ∈ photos g.
Proof.
  intros Ht. revert assigned n.
  induction entries as [|[s h] later IH]; intros assigned n Hnd Hx Hy Hxy E Hax Hay.
  { by apply elem_of_nil in Hx. }
  pose proof Hnd as Hnd'. apply NoDup_cons in Hnd as [Hs Hnd]. cbn [Spec.cluster].
  assert (Hkey : forall k v, (k, v) ∈ later -> k <> s).
  { intros k v Hin ->. apply Hs. apply list_elem_of_fmap. by exists (s, v). }
  case_bool_decide as Hin.
  { apply elem_of_cons in Hx as [[= -> ->]|Hx]; [done|].
    apply elem_of_cons in Hy as [[= -> ->]|Hy]; [done|].
    destruct (IH assigned n Hnd Hx Hy Hxy E Hax Hay) as (g & Hg & ?). by exists g. }
  set (joiners := filter (fun e => Spec.joins t h assigned e = true) later).
  assert (Hjoin : forall k v, (k, v) ∈ later -> k ∉ assigned ->
                              hash v = hash h -> (k, v) ∈ joiners).
  { intros k v Hk Ha Ev. apply list_elem_of_filter. split; [|done].
    unfold Spec.joins. cbn [fst snd]. rewrite bool_decide_eq_true_2 by done.
    cbn [andb]. by apply meets_self. }
  apply elem_of_cons in Hx as [[= -> ->]|Hx].
  { apply elem_of_cons in Hy as [[= ? ?]|Hy]; [congruence|].
    pose proof (Hjoin y hy Hy Hay (eq_sym E)) as Hkj.
    destruct joiners as [|j js] eqn:Ej; [by apply elem_of_nil in Hkj|].
    eexists. split; [by left|]. cbn [photos]. split; [by left|]. right.
    apply list_elem_of_fmap. by exists (y, hy). }
  apply elem_of_cons in Hy as [[= -> ->]|Hy].
  { pose proof (Hjoin x hx Hx Hax E) as Hkj.
    destruct joiners as [|j js] eqn:Ej; [by apply elem_of_nil in Hkj|].
    eexists. split; [by left|]. cbn [photos]. split; [|by left]. right.
    apply list_elem_of_fmap. by exists (x, hx). }
  assert (Hmeets : forall k v, (k, v) ∈ later -> k ∉ assigned ->
                               ((k, v) ∈ joiners <-> Spec.meets t h v = true)).
  { intros k v Hk Ha. unfold joiners. rewrite list_elem_of_filter.
    unfold Spec.joins. cbn [fst snd]. rewrite bool_decide_eq_true_2 by done.
    cbn [andb]. tauto. }
  destruct (Spec.meets t h hx) eqn:Hm.
  - assert (Hxj : (x, hx) ∈ joiners) by by apply Hmeets.
    assert (Hyj : (y, hy) ∈ joiners).
    { apply Hmeets; [done..|]. by rewrite <- (meets_same_hash t h hx hy E). }
    destruct joiners as [|j js] eqn:Ej; [by apply elem_of_nil in Hxj|].
    eexists. split; [by left|]. cbn [photos].
    split; right; apply list_elem_of_fmap; [by exists (x, hx)|by exists (y, hy)].
  - assert (Hxj : (x, hx) ∉ joiners).
    { intros H%Hmeets; [congruence|done..]. }
    assert (Hyj : (y, hy) ∉ joiners).
    { intros H%Hmeets; [|done..]. rewrite <- (meets_same_hash t h hx hy E) in H.
      congruence. }
    assert (Hout : forall k v, (k, v) ∈ later -> (k, v) ∉ joiners -> k ∉ map fst joiners).
    { intros k v Hk Hkj ([k' v'] & Ek & Hin')%list_elem_of_fmap. cbn in Ek. subst k'.
      apply Hkj. replace v with v'; [done|].
      apply list_elem_of_filter in Hin' as [_ Hin'].
      exact (entry_unique later k v' v Hnd Hin' Hk). }
    destruct joiners as [|j js] eqn:Ej.
    + destruct (IH assigned n Hnd Hx Hy Hxy E Hax Hay) as (g & Hg & ?). by exists g.
    + destruct (IH (assigned ++ map fst (j :: js)) (S n) Hnd Hx Hy Hxy E) as (g & Hg & ?).
      * intros [?|?]%elem_of_app; [done|]. by eapply (Hout x hx).
      * intros [?|?]%elem_of_app; [done|]. by eapply (Hout y hy).
      * exists g. split; [by right|done].
Qed.

(** X8: two photos with one hash are never split: at a threshold of at most
    100 they are in one group. *)
Theorem findDuplicateGroups_same_hash (imageHashes : Map) (similarityThreshold : Q)
    (id1 id2 : string) (h1 h2 : ImageHash) :
  NoDup (keys imageHashes) ->
  (similarityThreshold <= 100)%Q ->
  get imageHashes id1 = Some h1 ->
  get imageHashes id2 = Some h2 ->
  id1 <> id2 ->
  hash h1 = hash h2 ->
  exists g,
    g ∈ findDuplicateGroups imageHashes similarityThreshold
    /\ id1 ∈ photos g /\ id2 ∈ photos g.
Proof.
  intros Hnd Ht H1%get_elem_of H2%get_elem_of Hne E.
  rewrite findDuplicateGroups_cluster by done.
  exact (cluster_same_hash similarityThreshold imageHashes [] 0 id1 id2 h1 h2
           Ht Hnd H1 H2 Hne E (not_elem_of_nil id1) (not_elem_of_nil id2)).
Qed.

Lemma findDuplicateGroups_same_hash_witness :
  exists g,
    g ∈ findDuplicateGroups Spec.fourPhotos 90 /\ "c" ∈ photos g /\ "d" ∈ photos g.
Proof.
  apply (findDuplicateGroups_same_hash Spec.fourPhotos 90 "c" "d"
           (Spec.sampleHash "ffff000000000000") (Spec.sampleHash "ffff000000000000")).
  - apply (bool_decide_unpack (NoDup (keys Spec.fourPhotos))). vm_compute. exact I.
  - vm_compute. discriminate.
  - reflexivity.
  - reflexivity.
  - discriminate.
  - reflexivity.
Defined.

Lemma findSimilar_above (t : Q) (imageHashes : list (string * ImageHash)) (h1 : ImageHash)
    (later sims : list string) (P : gset string) :
  (100 < t)%Q ->
  findSimilar imageHashes t h1 later sims P = (sims, P).
Proof.
  intros Ht. induction later as [|y later IH]; [done|]. cbn [findSimilar].
  destruct (decide (y ∈ P)); [done|].
  destruct (get imageHashes y) as [hy|]; [|done].
  destruct (Qle_bool t _) eqn:Hm; [|done].
  apply Qle_bool_iff in Hm.
  pose proof (calculateSimilarity_le_100 (hash h1) (hash hy)) as Hle.
  exfalso. apply (Qlt_irrefl 100). eapply Qlt_le_trans; [exact Ht|].
  by eapply Qle_trans.
Qed.

(** X9: above 100 the threshold finds nothing: no group, whatever the map. *)
Theorem findDuplicateGroups_above_100 (imageHashes : Map) (similarityThreshold : Q) :
  (100 < similarityThreshold)%Q ->
  findDuplicateGroups imageHashes similarityThreshold = [].
Proof.
  intros Ht. unfold findDuplicateGroups. generalize (∅ : gset string).
  induction (keys imageHashes) as [|x ids IH]; intros P; [done|]. cbn [findGroups].
  destruct (decide (x ∈ P)); [apply IH|].
  destruct (get imageHashes x) as [hx|]; [|apply IH].
  rewrite findSimilar_above by done. cbn [length Nat.ltb Nat.leb]. apply IH.
Qed.

Lemma findDuplicateGroups_above_100_witness :
  findDuplicateGroups Spec.fourPhotos 101 = [].
Proof. apply findDuplicateGroups_above_100. reflexivity. Defined.

End Groups.

(** ** The marker search and the extractors by format *)

Section Extractors.

Import RawThumbnailExtractor.

Implicit Types (data marker : list byte) (i j k n : nat).

Lemma startsWith_take marker (l : list byte) :
  Spec.startsWith marker l = true <-> take (length marker) l = marker.
Proof.
  revert l; induction marker as [|m marker IH]; intros l; [done|].
  destruct l as [|x l]; cbn [Spec.startsWith length take]; [done|].
  rewrite andb_true_iff, IH. split.
  - intros [Hx ->]. apply Byte.byte_dec_bl in Hx. by subst.
  - intros [= -> H]. split; [apply Byte.byte_dec_lb; done|done].
Qed.

(** X10: the search returns the first offset, from [startOffset] on, at which
    the whole marker stands in the data, and -1 when there is none. *)
Theorem findJpegMarker_first_occurrence data marker (startOffset : nat) :
  (findJpegMarker data marker (Z.of_nat startOffset) = (-1)%Z
   /\ forall k, (startOffset <= k)%nat -> (k + length marker <= length data)%nat ->
                take (length marker) (drop k data) <> marker)
  \/ (exists r,
        findJpegMarker data marker (Z.of_nat startOffset) = Z.of_nat r
        /\ (startOffset <= r)%nat /\ (r + length marker <= length data)%nat
        /\ take (length marker) (drop r data) = marker
        /\ forall k, (startOffset <= k < r)%nat ->
                     take (length marker) (drop k data) <> marker).
Proof.
  unfold findJpegMarker, len.
  set (n := Z.to_nat (Z.of_nat (length data) - Z.of_nat (length marker)
                      - Z.of_nat startOffset + 1)).
  destruct (findJpegMarker_loop_first marker data n startOffset)
    as [[-> Hnone]|(r & -> & Hr & Hfound & Hleast)].
  - left. split; [done|]. intros k Hk Hlen H%startsWith_take.
    rewrite Hnone in H; [done|]. lia.
  - right. exists r. split; [done|]. split; [lia|].
    apply startsWith_length in Hfound as Hlen. rewrite length_drop in Hlen.
    split; [|split].
    + destruct marker; cbn [length] in *; lia.
    + by apply startsWith_take.
    + intros k Hk H%startsWith_take. by rewrite Hleast in H.
Qed.

Lemma tails_suffix {A} (l t : list A) : t ∈ Spec.tails l -> exists before, l = before ++ t.
Proof.
  induction l as [|x l IH]; cbn [Spec.tails].
  - intros ->%list_elem_of_singleton. by exists [].
  - intros [->|Hin]%elem_of_cons; [by exists []|].
    destruct (IH Hin) as [before ->]. by exists (x :: before).
Qed.

Lemma upToEnd_shape (l u : list byte) :
  Spec.upToEnd l = Some u -> exists body after, u = body ++ EOI /\ l = u ++ after.
Proof.
  revert u; induction l as [|x l IH]; intros u.
  - cbn. discriminate.
  - rewrite upToEnd_cons. destruct (Spec.startsWith EOI (x :: l)) eqn:E.
    + intros [= <-]. apply startsWith_two in E as [rest ->]. by exists [], rest.
    + destruct (Spec.upToEnd l) as [u'|]; [|discriminate]. intros [= <-].
      destruct (IH u' eq_refl) as (body & after & -> & ->).
      by exists (x :: body), after.
Qed.

Lemma candidate_shape data (s : list byte) :
  s ∈ Spec.candidates data ->
  (exists body, s = SOI ++ body ++ EOI)
  /\ (1024 < length s)%nat
  /\ exists before after, data = before ++ s ++ after.
Proof.
  unfold Spec.candidates, Spec.markerSpans.
  intros [Hlen (t & Ht & Hspan)%list_elem_of_omap]%list_elem_of_filter.
  unfold Spec.spanAt in Hspan.
  destruct (Spec.startsWith SOI t) eqn:E; [|discriminate Hspan].
  apply startsWith_two in E as [rest ->]. cbn [drop] in Hspan.
  rewrite drop_0 in Hspan.
  destruct (Spec.upToEnd rest) as [u|] eqn:Hu; [|discriminate Hspan].
  injection Hspan as <-.
  destruct (upToEnd_shape rest u Hu) as (body & after & -> & ->).
  destruct (tails_suffix data _ Ht) as [before ->].
  split; [by exists body|]. split; [done|]. exists before, after.
  reflexivity.
Qed.

Lemma findBestJpegPreview_shape data :
  exists result,
    findBestJpegPreview data = Some result
    /\ forall s, result = Some s -> s ∈ Spec.candidates data.
Proof.
  rewrite findBestJpegPreview_candidates.
  destruct (Spec.candidates data) as [|first others] eqn:E.
  - exists None. split; [done|]. discriminate.
  - exists (Some (reduceLargest first others)). split; [done|].
    intros s [= <-]. apply reduceLargest_max.
Qed.

(** X11: whatever the format, the extraction ends, and what it extracts is a
    part of the file that starts with the marker FF D8, ends with the
    marker FF D9 and is longer than 1 KiB. For a DNG file without the
    byte order mark of TIFF, or shorter than 8 bytes, nothing is
    extracted. *)
Theorem extractedJpeg_delimited (format : string) data :
  (exists result, extractedJpeg format data = Some result)
  /\ (forall s,
        extractedJpeg format data = Some (Some s) ->
        (exists body, s = SOI ++ body ++ EOI)
        /\ (1024 < length s)%nat
        /\ exists before after, data = before ++ s ++ after)
  /\ (format = "DNG" ->
      (length data < 8)%nat
      \/ (take 2 data <> [x49; x49] /\ take 2 data <> [x4d; x4d]) ->
      extractedJpeg format data = Some None).
Proof.
  destruct (findBestJpegPreview_shape data) as (result & Hrun & Hresult).
  assert (Hcases : extractedJpeg format data = Some None
                   \/ extractedJpeg format data = findBestJpegPreview data).
  { unfold extractedJpeg, extractDngThumbnail, extractCanonThumbnail,
      extractNikonThumbnail, extractSonyThumbnail, extractGenericJpegThumbnail.
    repeat case_match; auto. }
  split; [|split].
  - destruct Hcases as [->| ->]; [by exists None|by exists result].
  - intros s Hs. apply candidate_shape, Hresult.
    destruct Hcases as [E|E]; rewrite E in Hs; [done|]. congruence.
  - intros -> Hbad. unfold extractedJpeg, extractDngThumbnail. cbn [String.eqb Ascii.eqb Bool.eqb].
    unfold len. destruct (Z.of_nat (length data) <? 8)%Z eqn:Hlen; [done|].
    apply Z.ltb_ge in Hlen. destruct Hbad as [?|[Hii Hmm]]; [lia|].
    change 0%Z with (Z.of_nat 0). change 1%Z with (Z.of_nat 1). rewrite !at_nat.
    destruct data as [|a [|b data]]; cbn [length] in Hlen; try lia.
    simpl in Hii, Hmm. cbn [lookup list_lookup sameByte].
    destruct (Byte.eqb a x49) eqn:Ea, (Byte.eqb b x49) eqn:Eb,
             (Byte.eqb a x4d) eqn:Ea', (Byte.eqb b x4d) eqn:Eb'; cbn [andb negb];
      try reflexivity.
    all: try apply Byte.byte_dec_bl in Ea; try apply Byte.byte_dec_bl in Eb;
      try apply Byte.byte_dec_bl in Ea'; try apply Byte.byte_dec_bl in Eb'; subst;
      done.
Qed.

Lemma extractedJpeg_delimited_witness :
  extractedJpeg "DNG" (Spec.spanOf 2000) = Some None.
Proof.
  apply (extractedJpeg_delimited "DNG" (Spec.spanOf 2000)); [reflexivity|].
  right. split; discriminate.
Defined.

End Extractors.

(** ** The quality analysis around the sharpness score *)

Section Quality.

Import Number QualityAnalysis.

Lemma range_empty (start stop step : Z) : (stop <= start)%Z -> range start stop step = [].
Proof.
  intros H. unfold range. replace (Z.to_nat (stop - start)) with 0%nat by lia. done.
Qed.

Lemma rows_unsampled (data : list byte) (width : Z) (ys : list Z) (acc : number * number) :
  (width <= 8)%Z -> fold_left (sampleRow data width) ys acc = acc.
Proof.
  intros Hw. revert acc; induction ys as [|y ys IH]; intros acc; [done|].
  cbn [fold_left]. rewrite IH. unfold sampleRow.
  rewrite range_empty; [done|]. change stepX with 4%Z. lia.
Qed.

Lemma calculateOverallQuality_zero (hasClosedEyes : bool) :
  calculateOverallQuality zero hasClosedEyes = zero.
Proof. by destruct hasClosedEyes. Qed.

(** X12: an image of at most 8 pixels in width or height is not sampled at
    all. When its width or height is 0 the canvas cannot be read: the
    scorer throws, and with blur detection on the analysis is rejected.
    Otherwise its sharpness score is 0 whatever it shows, so with blur
    detection on it is blurry at every positive threshold, the default
    one among them, and its quality score is 0. *)
Theorem calculateBlurScore_small (data : list byte) (width height : Z) :
  (0 <= width)%Z -> (0 <= height)%Z ->
  (width <= 8 \/ height <= 8)%Z ->
  (width = 0%Z \/ height = 0%Z ->
   calculateBlurScore data width height = Thrown "IndexSizeError"
   /\ forall settings faceAnalysis,
        enableBlurDetection settings = true ->
        analyzeImageQuality settings data width height faceAnalysis
        = Thrown "IndexSizeError")
  /\ ((0 < width)%Z -> (0 < height)%Z ->
      calculateBlurScore data width height = Returned zero
      /\ forall settings faceAnalysis,
           enableBlurDetection settings = true ->
           exists analysis,
             analyzeImageQuality settings data width height faceAnalysis
             = Returned analysis
             /\ blurScore analysis = zero
             /\ isBlurry analysis = ltb zero (blurThreshold settings)
             /\ qualityScore analysis = zero
             /\ (blurThreshold settings = blurThreshold DEFAULT_QUALITY_SETTINGS ->
                 isBlurry analysis = true)).
Proof.
  intros Hw0 Hh0 Hsmall. split.
  - intros Hzero.
    assert (E : calculateBlurScore data width height = Thrown "IndexSizeError").
    { unfold calculateBlurScore, getImageData.
      destruct Hzero as [-> | ->]; [done|]. by rewrite orb_true_r. }
    split; [exact E|]. intros settings faceAnalysis Hon. unfold analyzeImageQuality.
    by rewrite Hon, E.
  - intros Hw Hh.
    assert (E : calculateBlurScore data width height = Returned zero).
    { unfold calculateBlurScore, getImageData.
      rewrite (proj2 (Z.eqb_neq width 0)), (proj2 (Z.eqb_neq height 0)) by lia.
      cbn [orb]. destruct Hsmall as [Hw8|Hh8].
      - by rewrite rows_unsampled.
      - rewrite range_empty; [done|]. change stepY with 4%Z. lia. }
    split; [exact E|]. intros settings faceAnalysis Hon. unfold analyzeImageQuality.
    rewrite Hon, E. eexists. split; [reflexivity|].
    cbn [blurScore isBlurry qualityScore].
    rewrite calculateOverallQuality_zero. repeat split. by intros ->.
Qed.

Lemma calculateBlurScore_small_witness :
  calculateBlurScore Spec.oneColour 8 12 = Returned zero
  /\ calculateBlurScore [] 0 799 = Thrown "IndexSizeError".
Proof.
  split.
  - apply (calculateBlurScore_small Spec.oneColour 8 12); lia.
  - apply (calculateBlurScore_small [] 0 799); lia.
Defined.

(** X13: with blur detection off the analysis is never rejected: the
    sharpness score stays 0, no photo is blurry, and the quality score of
    every photo is 0, whatever the image and the faces. *)
Theorem analyzeImageQuality_blur_off (settings : QualitySettings)
    (data : list byte) (width height : Z) (faceAnalysis : bool * nat) :
  enableBlurDetection settings = false ->
  exists analysis,
    analyzeImageQuality settings data width height faceAnalysis = Returned analysis
    /\ blurScore analysis = zero
    /\ isBlurry analysis = false
    /\ qualityScore analysis = zero
    /\ shouldAutoSelect analysis settings
       = autoSelectClosedEyes settings && hasClosedEyes analysis.
Proof.
  intros Hoff. unfold analyzeImageQuality, shouldAutoSelect. rewrite Hoff.
  eexists. split; [reflexivity|].
  cbn [blurScore isBlurry qualityScore hasClosedEyes].
  rewrite calculateOverallQuality_zero, andb_false_r. repeat split.
  by destruct (autoSelectClosedEyes settings && _).
Qed.

Lemma analyzeImageQuality_blur_off_witness :
  exists analysis,
    analyzeImageQuality
      {| enableBlurDetection := false; enableClosedEyeDetection := true;
         blurThreshold := ofZ 100; autoSelectBlurry := true;
         autoSelectClosedEyes := true |}
      Spec.oneColour 12 12 (false, 1%nat)
    = Returned analysis
    /\ qualityScore analysis = zero.
Proof.
  destruct (analyzeImageQuality_blur_off
              {| enableBlurDetection := false; enableClosedEyeDetection := true;
                 blurThreshold := ofZ 100; autoSelectBlurry := true;
                 autoSelectClosedEyes := true |}
              Spec.oneColour 12 12 (false, 1%nat) eq_refl)
    as (analysis & Hrun & _ & _ & Hq & _).
  exists analysis. split; [exact Hrun|exact Hq].
Defined.

End Quality.

(** ** The scan of a directory tree *)

Section FindImageFiles.

Import Scanner.

Lemma elem_of_flat_map {A B} (f : A -> list B) (l : list A) (y : B) :
  y ∈ flat_map f l <-> exists x, y ∈ f x /\ x ∈ l.
Proof.
  rewrite list_elem_of_In, in_flat_map. split.
  - intros (x & Hx & Hy). exists x. by rewrite !list_elem_of_In.
  - intros (x & Hy & Hx). exists x. by rewrite <- !list_elem_of_In.
Qed.

(** Induction on an entry with, for a directory, the property of every
    entry below it. *)
Lemma Dirent_nested_ind (P : Dirent -> Prop) :
  (forall name, P (IsFile name)) ->
  (forall name entries, Forall P entries -> P (IsDirectory name entries)) ->
  (forall name message, P (Unreadable name message)) ->
  (forall name, P (Other name)) ->
  forall entry, P entry.
Proof.
  intros Hfile Hdir Hbad Hother. fix IH 1.
  intros [name|name entries|name message|name]; [apply Hfile| |apply Hbad|apply Hother].
  apply Hdir. induction entries as [|e entries IHentries]; constructor; [apply IH|done].
Qed.

Lemma scanEntry_files (entry : Dirent) :
  forall dir acc, (scanEntry dir acc entry).1 = acc.1 ++ Spec.imagesOf dir entry.
Proof.
  induction entry as [name|name entries IH|name message|name] using Dirent_nested_ind;
    intros dir acc; cbn [scanEntry Spec.imagesOf].
  - unfold Spec.supported. case_bool_decide; [done|]. by rewrite app_nil_r.
  - unfold Spec.skipped.
    destruct (Js.startsWith name "."); cbn [negb andb orb]; [by rewrite app_nil_r|].
    case_bool_decide; cbn [negb]; [by rewrite app_nil_r|].
    generalize (Path.join dir name). intros sub. revert acc.
    induction IH as [|e entries He _ IHentries]; intros acc; cbn [fold_left flat_map].
    + by rewrite app_nil_r.
    + rewrite IHentries, He. by rewrite <- app_assoc.
  - destruct (_ && _); cbn [fst]; by rewrite app_nil_r.
  - by rewrite app_nil_r.
Qed.

Lemma scanEntries_files (entries : list Dirent) (dir : string)
    (acc : list string * list string) :
  (fold_left (scanEntry dir) entries acc).1 = acc.1 ++ flat_map (Spec.imagesOf dir) entries.
Proof.
  revert acc; induction entries as [|e entries IH]; intros acc; cbn [fold_left flat_map].
  - by rewrite app_nil_r.
  - rewrite IH, scanEntry_files. by rewrite <- app_assoc.
Qed.

(** The images below [entries]: the files that lie there under
    directories the scan enters and that have a supported extension. *)
Lemma imagesOf_liesIn (entries : list Dirent) :
  forall dir p,
    p ∈ flat_map (Spec.imagesOf dir) entries
    <-> exists chain name,
          Spec.liesIn chain name entries
          /\ Forall (fun d => Spec.skipped d = false) chain
          /\ Spec.supported name = true
          /\ p = Path.join (fold_left Path.join chain dir) name.
Proof.
  assert (Hentry : forall entry dir p,
            p ∈ Spec.imagesOf dir entry
            <-> (exists name, entry = IsFile name /\ Spec.supported name = true
                              /\ p = Path.join dir name)
                \/ (exists d sub chain name,
                      entry = IsDirectory d sub /\ Spec.skipped d = false
                      /\ Spec.liesIn chain name sub
                      /\ Forall (fun d => Spec.skipped d = false) chain
                      /\ Spec.supported name = true
                      /\ p = Path.join (fold_left Path.join chain (Path.join dir d)) name)).
  { intros entry.
    induction entry as [name|d sub IH|name message|name] using Dirent_nested_ind;
      intros dir p; cbn [Spec.imagesOf].
    - destruct (Spec.supported name) eqn:E.
      + rewrite list_elem_of_singleton. split.
        * intros ->. left. by exists name.
        * intros [(name' & [= <-] & _ & ->)|(? & ? & ? & ? & ? & _)]; done.
      + split; [by intros ?%elem_of_nil|].
        intros [(name' & [= <-] & ? & _)|(? & ? & ? & ? & ? & _)]; congruence.
    - destruct (Spec.skipped d) eqn:E.
      + split; [by intros ?%elem_of_nil|].
        intros [(? & ? & _)|(d' & sub' & ? & ? & [= <- <-] & ? & _)]; congruence.
      + rewrite elem_of_flat_map. split.
        * intros (e & He & Hin). rewrite Forall_forall in IH.
          apply (IH e Hin) in He as [(name & -> & Hs & ->)|(d' & sub' & chain & name & -> & Hd & Hl & Hc & Hs & ->)].
          -- right. exists d, sub, [], name. by repeat split.
          -- right. exists d, sub, (d' :: chain), name. repeat split; try done.
             ++ by exists sub'.
             ++ by constructor.
        * intros [(? & ? & _)|(d' & sub' & chain & name & [= <- <-] & _ & Hl & Hc & Hs & ->)];
            [done|].
          rewrite Forall_forall in IH. destruct chain as [|d' chain].
          -- exists (IsFile name). split; [|done]. apply IH; [done|]. left. by exists name.
          -- destruct Hl as (sub' & Hin & Hl). apply Forall_cons in Hc as [Hd' Hc].
             exists (IsDirectory d' sub'). split; [|done]. apply IH; [done|]. right.
             by exists d', sub', chain, name.
    - split; [by intros ?%elem_of_nil|].
      intros [(? & ? & _)|(? & ? & ? & ? & ? & _)]; done.
    - split; [by intros ?%elem_of_nil|].
      intros [(? & ? & _)|(? & ? & ? & ? & ? & _)]; done. }
  intros dir p. rewrite elem_of_flat_map. split.
  - intros (e & He & Hin).
    apply Hentry in He as [(name & -> & Hs & ->)|(d & sub & chain & name & -> & Hd & Hl & Hc & Hs & ->)].
    + by exists [], name.
    + exists (d :: chain), name. repeat split; try done.
      * by exists sub.
      * by constructor.
  - intros (chain & name & Hl & Hc & Hs & ->). destruct chain as [|d chain].
    + exists (IsFile name). split; [|done]. apply Hentry. left. by exists name.
    + destruct Hl as (sub & Hin & Hl). apply Forall_cons in Hc as [Hd Hc].
      exists (IsDirectory d sub). split; [|done]. apply Hentry. right.
      by exists d, sub, chain, name.
Qed.

(** X14: the scan returns exactly the files with the extension of an image, in
    any letter case, that lie in the scanned directory or below it under
    readable directories it enters: it never returns a file from under a
    hidden directory (the trash [.trash] is one) nor from under
    [node_modules], [thumbs] or [_thumbnails], the thumbnails of an
    earlier scan. A root that cannot be read gives no file and one line on
    the console. *)
Theorem findImageFiles_visible (directoryPath : string) :
  (forall entries p,
     p ∈ (findImageFiles directoryPath (inl entries)).1
     <-> exists chain name,
           Spec.liesIn chain name entries
           /\ Forall (fun d => Spec.skipped d = false) chain
           /\ Spec.supported name = true
           /\ p = Path.join (fold_left Path.join chain directoryPath) name)
  /\ (forall message,
        findImageFiles directoryPath (inr message)
        = ([], ["Error scanning directory " +:+ directoryPath +:+ ": " +:+ message])).
Proof.
  split; [|done]. intros entries p. unfold findImageFiles, scanRecursive.
  rewrite scanEntries_files. cbn [fst app]. apply imagesOf_liesIn.
Qed.

End FindImageFiles.

(** ** The progress of one scan *)

Section Progress.

Import Scanner.

(** X15: a scan that is started on an idle scanner, whose thumbnails
    directory is there or can be made, that finds [files] and gets a
    reply for each of them ends with the photos of the replies that
    brought one, in order; every file counts as processed, failed or not,
    so that at the end the progress shows as many processed files as were
    found, the last file as the current one, and the phase [complete],
    and the flag is down. *)
Theorem scanDirectory_completes (this : DirectoryScanner) (directoryPath : string)
    (setup : list Reply) (files : list string) (replies : list Reply) :
  isScanning this = false ->
  Spec.directoryReady setup ->
  length replies = length files ->
  exists this',
    Spec.runScan this directoryPath (setup ++ FoundFiles files :: replies)
    = (this', inr (Resolved (omap Spec.photoOf replies)))
    /\ isScanning this' = false
    /\ thumbnailsDir this' = Some (Path.join directoryPath "_thumbnails")
    /\ progress this'
       = {| totalFiles := length files;
            processedFiles := length files;
            currentFile := match files with
                           | [] => ""
                           | _ :: _ => Path.basename (List.last files "")
                           end;
            phase := "complete" |}
    /\ (length (omap Spec.photoOf replies) <= length files)%nat.
Proof.
  intros Hidle Hready Hlen.
  destruct (scan_completes this directoryPath setup files replies Hidle Hready Hlen)
    as (this' & Hrun & Hflag & Hdir & Hprogress).
  exists this'. split; [exact Hrun|]. split; [exact Hflag|]. split; [exact Hdir|].
  split; [exact Hprogress|].
  rewrite <- Hlen. clear. induction replies as [|r replies IH]; [done|].
  simpl. unfold omap in IH. destruct (Spec.photoOf r); simpl; lia.
Qed.

Lemma scanDirectory_completes_witness :
  exists this',
    Spec.runScan constructor "/photos"
      [Failed "ENOENT"; Done; FoundFiles ["/photos/a.jpg"; "/photos/b.jpg"];
       Failed "EACCES"; Processed (Some {| id := "2"; path := "/photos/b.jpg" |})]
    = (this', inr (Resolved [{| id := "2"; path := "/photos/b.jpg" |}]))
    /\ progress this'
       = {| totalFiles := 2; processedFiles := 2; currentFile := "b.jpg";
            phase := "complete" |}.
Proof.
  destruct (scanDirectory_completes constructor "/photos"
              [Failed "ENOENT"; Done]
              ["/photos/a.jpg"; "/photos/b.jpg"]
              [Failed "EACCES"; Processed (Some {| id := "2"; path := "/photos/b.jpg" |})]
              eq_refl (or_intror (ex_intro _ "ENOENT" eq_refl)) eq_refl)
    as (this' & Hrun & _ & _ & Hprogress & _).
  exists this'. split; [exact Hrun|exact Hprogress].
Defined.

End Progress.

(** ** The trash: before a scan, restoring, and the status *)

Section TrashBeforeScan.

Import Backend.

Lemma moveOne_no_directory (photo : Photo) (st : State) :
  currentScanDirectory st = None ->
  exists st',
    moveOne photo st = (st', Normal tt)
    /\ fs st' = fs st
    /\ deletedFiles st' = deletedFiles st
    /\ currentScanDirectory st' = None.
Proof.
  intros Hdir. run_m. proj. cases; try congruence.
  all: eexists; (split; [reflexivity|]); proj; done.
Qed.

Lemma forOf_moveOne_no_directory (photos : list Photo) (st : State) :
  currentScanDirectory st = None ->
  exists st',
    forOf photos moveOne st = (st', Normal tt)
    /\ fs st' = fs st
    /\ deletedFiles st' = deletedFiles st.
Proof.
  revert st; induction photos as [|photo photos IH]; intros st Hdir; [by exists st|].
  cbn [forOf]. unfold mbind, M_bind.
  destruct (moveOne_no_directory photo st Hdir) as (st1 & -> & Hfs & Hdel & Hdir1).
  destruct (IH st1 Hdir1) as (st' & -> & Hfs' & Hdel').
  exists st'. split; [done|]. split; congruence.
Qed.

Lemma getAllTrashFiles_no_directory (st : State) :
  currentScanDirectory st = None ->
  exists st',
    getAllTrashFiles st = (st', Normal [])
    /\ fs st' = fs st
    /\ currentScanDirectory st' = None.
Proof.
  intros Hdir. unfold getAllTrashFiles. run_m. proj. rewrite Hdir.
  eexists. split; [reflexivity|]. done.
Qed.

(** X16: before the first scan there is no directory to hold a trash: moving
    to the trash moves nothing, whatever the records, and emptying,
    restoring and the status find an empty trash; none of the four
    raises or touches a file. *)
Theorem trash_before_scan (st : State) :
  currentScanDirectory st = None ->
  (forall photos,
     exists st',
       moveToTrash photos st = (st', Normal (MovedToTrash [] "Moved 0 files to trash"))
       /\ fs st' = fs st)
  /\ (exists st',
        emptyTrash st = (st', Normal (TrashEmptied 0 "Permanently deleted 0 files"))
        /\ fs st' = fs st)
  /\ (forall fileIds,
        exists st',
          restoreFromTrash fileIds st
          = (st', Normal (RestoredFromTrash [] "Restored 0 files"))
          /\ fs st' = fs st)
  /\ (exists st',
        trashStatus st = (st', Normal (TrashStatus 0 0 []))
        /\ fs st' = fs st).
Proof.
  intros Hdir. split; [|split; [|split]].
  - intros photos.
    destruct (forOf_moveOne_no_directory photos (setDeletedFiles [] st).1 Hdir)
      as (st' & Hrun & Hfs & Hdel).
    exists st'. split; [|done].
    unfold moveToTrash, tryCatch, mbind, M_bind, setDeletedFiles in *. cbn [fst] in *.
    rewrite Hrun. unfold getState, mret, M_ret. by rewrite Hdel.
  - destruct (getAllTrashFiles_no_directory st Hdir) as (st1 & Hlist & Hfs & _).
    unfold emptyTrash, tryCatch, mbind, M_bind. rewrite Hlist.
    cbn [forOf]. unfold setDeletedCount, getState, mret, M_ret. eexists.
    split; [reflexivity|]. done.
  - intros fileIds.
    destruct (getAllTrashFiles_no_directory st Hdir) as (st1 & Hlist & Hfs & _).
    unfold restoreFromTrash, tryCatch, mbind, M_bind. rewrite Hlist.
    assert (Hloop : forOfPush fileIds (restoreOne []) [] st1 = (st1, Normal [])).
    { clear. induction fileIds as [|fileId fileIds IH]; [done|].
      cbn [forOfPush restoreOne List.find]. unfold mbind, M_bind, mret, M_ret. exact IH. }
    rewrite Hloop. unfold mret, M_ret. eexists. split; [reflexivity|]. done.
  - destruct (getAllTrashFiles_no_directory st Hdir) as (st1 & Hlist & Hfs & _).
    unfold trashStatus, tryCatch, mbind, M_bind. rewrite Hlist.
    unfold mret, M_ret. eexists. split; [reflexivity|]. done.
Qed.

Lemma trash_before_scan_witness :
  exists st',
    moveToTrash [Spec.existingPhoto; Spec.missingPhoto]
      {| fs := Spec.trashOfFour; currentScanDirectory := None; cwd := "/srv/app";
         clock := fun n => Z.of_nat n; ticks := 0; console := []; allFiles := [];
         deletedFiles := []; deletedCount := 0 |}
    = (st', Normal (MovedToTrash [] "Moved 0 files to trash"))
    /\ fs st' = Spec.trashOfFour.
Proof.
  apply (trash_before_scan
           {| fs := Spec.trashOfFour; currentScanDirectory := None; cwd := "/srv/app";
              clock := fun n => Z.of_nat n; ticks := 0; console := []; allFiles := [];
              deletedFiles := []; deletedCount := 0 |} eq_refl).
Defined.

End TrashBeforeScan.

Section Restore.

Import Backend.

(** One turn of the loop of [restore-from-trash]: it ends normally, and
    it pushes at most the listed entry with the id asked for; an id that
    is not listed changes nothing. *)
Lemma restoreOne_step (trashFiles restored : list Metadata) (fileId : string) (st : State) :
  exists st' restored',
    restoreOne trashFiles restored fileId st = (st', Normal restored')
    /\ ((restored' = restored
         /\ (List.find (fun m => String.eqb (id m) fileId) trashFiles = None -> st' = st))
        \/ exists m,
             restored' = restored ++ [m]
             /\ m ∈ trashFiles /\ id m = fileId).
Proof.
  unfold restoreOne.
  destruct (List.find _ trashFiles) as [m|] eqn:Hfind.
  - apply find_some in Hfind as [Hin Hid]. apply list_elem_of_In in Hin.
    apply String.eqb_eq in Hid.
    run_m. proj. cases.
    all: eexists _, _; (split; [reflexivity|]).
    all: try (left; split; [reflexivity|discriminate]).
    all: right; by exists m.
  - exists st, restored. split; [done|]. by left.
Qed.

Lemma forOfPush_restoreOne (trashFiles : list Metadata) (fileIds : list string) :
  forall restored st,
    exists st' added,
      forOfPush fileIds (restoreOne trashFiles) restored st
      = (st', Normal (restored ++ added))
      /\ (length added <= length fileIds)%nat
      /\ Forall (fun m => m ∈ trashFiles /\ id m ∈ fileIds) added
      /\ ((forall fileId, fileId ∈ fileIds -> fileId ∉ map id trashFiles) ->
          added = [] /\ st' = st).
Proof.
  induction fileIds as [|fileId fileIds IH]; intros restored st.
  - exists st, []. rewrite app_nil_r. by repeat split.
  - cbn [forOfPush]. unfold mbind, M_bind.
    destruct (restoreOne_step trashFiles restored fileId st)
      as (st1 & restored1 & -> & Hstep).
    destruct (IH restored1 st1) as (st' & added & -> & Hlen & Hall & Hnone).
    assert (Hweak : Forall (fun m => m ∈ trashFiles /\ id m ∈ fileId :: fileIds) added).
    { eapply Forall_impl; [exact Hall|]. intros m [? ?]. split; [done|by right]. }
    destruct Hstep as [[-> Hsame]|(m & -> & Hin & Hid)].
    + exists st', added. split; [done|]. split; [cbn [length]; lia|]. split; [done|].
      intros Hout. destruct Hnone as [-> ->].
      { intros x Hx. apply Hout. by right. }
      split; [done|]. apply Hsame.
      destruct (List.find _ trashFiles) as [m|] eqn:Hfind; [|done].
      apply find_some in Hfind as [Hin Hid]. apply String.eqb_eq in Hid.
      exfalso. apply (Hout fileId); [by left|]. rewrite <- Hid.
      apply list_elem_of_In, in_map, Hin.
    + exists st', (m :: added). rewrite <- app_assoc. split; [done|].
      split; [cbn [length]; lia|]. split.
      * constructor; [|done]. split; [done|]. rewrite Hid. by left.
      * intros Hout. exfalso. apply (Hout fileId); [by left|]. rewrite <- Hid.
        apply list_elem_of_fmap. by exists m.
Qed.

(** X17: restoring never raises: it answers with the entries it restored,
    each of them a listed entry of the trash with one of the ids asked
    for, at most one for each id asked; an id that is not in the trash is
    passed over, and when none of the ids is there nothing changes at
    all. *)
Theorem restoreFromTrash_listed (fileIds : list string) (st : State) :
  exists st1 trashFiles st' restoredFiles,
    getAllTrashFiles st = (st1, Normal trashFiles)
    /\ restoreFromTrash fileIds st
       = (st', Normal (RestoredFromTrash restoredFiles
                         ("Restored " +:+ pretty (length restoredFiles) +:+ " files")))
    /\ (length restoredFiles <= length fileIds)%nat
    /\ Forall (fun m => m ∈ trashFiles /\ id m ∈ fileIds) restoredFiles
    /\ ((forall fileId, fileId ∈ fileIds -> fileId ∉ map id trashFiles) ->
        restoredFiles = [] /\ st' = st1).
Proof.
  destruct (getAllTrashFiles_run st) as (st1 & trashFiles & Hlist & _).
  destruct (forOfPush_restoreOne trashFiles fileIds [] st1)
    as (st' & restored & Hrun & Hlen & Hall & Hnone).
  exists st1, trashFiles, st', restored. split; [done|]. split; [|done].
  unfold restoreFromTrash, tryCatch, mbind, M_bind. rewrite Hlist, Hrun. done.
Qed.

End Restore.

(** *** Moving a photo to an empty trash, and what comes after *)

Section MoveAndBack.

Import Backend.

(** What moving one photo does, to the letter, when the trash holds
    nothing and nothing is refused. *)
Lemma moveOne_exact (photo : Photo) (st : State) (base a name : string) (c : Content) :
  currentScanDirectory st = Some base ->
  locked (fs st) = ∅ ->
  Spec.absolutePathOf st photo = Some a ->
  files (fs st) !! a = Some c ->
  photoFilename photo = Some name ->
  Spec.plain name = true ->
  Spec.trashIsEmpty (fs st) base ->
  let trashDir := Path.join base ".trash" in
  let trashFilename :=
    pretty (clock st (ticks st)) +:+ "_" +:+ replaceParenthesized name 0 in
  let md := {| id := photoId photo; originalPath := a;
               filename := replaceParenthesized name 0; size := photoSize photo;
               deletedAt := clock st (S (ticks st));
               tempPath := Some (Path.join trashDir trashFilename);
               trashDir := None |} in
  exists st',
    moveOne photo st = (st', Normal tt)
    /\ deletedFiles st' = deletedFiles st ++ [md]
    /\ files (fs st')
       = <[Path.join trashDir (trashFilename +:+ ".metadata.json") := Json md]>
           (<[Path.join trashDir trashFilename := c]> (delete a (files (fs st))))
    /\ trashDir ∈ dirs (fs st')
    /\ parentOf a ∈ dirs (fs st')
    /\ locked (fs st') = ∅
    /\ currentScanDirectory st' = Some base.
Proof.
  intros Hbase Hlocked Ha Hc Hname Hplain Hempty trashDir trashFilename md.
  assert (Hnodir : files (fs st) !! Spec.trashOf base = None).
  { apply Hempty. apply prefix_self. }
  destruct (moveOne_renamed photo st base a name c)
    as (st' & Hrun & Hd & _ & Hbase' & Hlocked' & Hdirs & Hfiles); try done.
  1-3: rewrite Hlocked; set_solver.
  rewrite Hlocked, bool_decide_eq_false_2 in Hfiles by set_solver.
  destruct Hfiles as [Hfiles _].
  exists st'. split; [exact Hrun|]. split; [exact Hd|]. split; [exact Hfiles|].
  rewrite Hdirs, Hlocked'. repeat split; try done; set_solver.
Qed.

(** The names [readdir] finds in a trash that holds one file and its
    sidecar: the two of them, in one order or the other. *)
Lemma readdir_one (trashDir n : string) (c : Content) (md : Metadata)
    (rest : gmap string Content) :
  (forall q, String.prefix trashDir q = true -> rest !! q = None) ->
  Spec.plain n = true -> n <> "" ->
  let names :=
    omap (entryName trashDir)
      (map fst (map_to_list
                  (<[Path.join trashDir (n +:+ ".metadata.json") := Json md]>
                     (<[Path.join trashDir n := c]> rest)))) in
  names = [n +:+ ".metadata.json"; n] \/ names = [n; n +:+ ".metadata.json"].
Proof.
  intros Hrest Hplain Hne names.
  assert (Hp2 : Spec.plain (n +:+ ".metadata.json") = true) by by rewrite plain_app, Hplain.
  assert (Hne2 : n +:+ ".metadata.json" <> "").
  { intros H. apply (f_equal String.length) in H. rewrite length_append in H.
    cbn in H. lia. }
  assert (Hin : forall x, String.prefix trashDir (Path.join trashDir x) = true).
  { intros x. apply prefix_append. }
  assert (Hdiff : Path.join trashDir n <> Path.join trashDir (n +:+ ".metadata.json")).
  { intros H. apply (f_equal String.length) in H. unfold Path.join in H.
    rewrite !length_append in H. cbn in H. lia. }
  assert (Hperm : names ≡ₚ [n +:+ ".metadata.json"; n]).
  { unfold names. rewrite map_to_list_insert.
    2: { rewrite lookup_insert_ne by done. by apply Hrest. }
    rewrite map_to_list_insert by by apply Hrest.
    cbn [map fst omap list_omap]. rewrite !entryName_join by done.
    assert (Hnone : omap (entryName trashDir) (map fst (map_to_list rest)) = []).
    { assert (Hall : forall k, k ∈ map fst (map_to_list rest) ->
                               entryName trashDir k = None).
      { intros k ([k' v] & -> & Hkv%elem_of_map_to_list)%list_elem_of_fmap.
        cbn [fst]. apply entryName_outside.
        destruct (String.prefix trashDir k') eqn:E; [|done].
        apply Hrest in E. congruence. }
      induction (map fst (map_to_list rest)) as [|k ks IH]; [done|].
      cbn [omap list_omap]. rewrite Hall by by left.
      apply IH. intros k' Hk'. apply Hall. by right. }
    by rewrite Hnone. }
  symmetry in Hperm. apply Permutation_length_2_inv in Hperm. exact Hperm.
Qed.

Lemma getAllTrashFiles_one (st : State) (base n : string) (c : Content)
    (md : Metadata) (rest : gmap string Content) :
  currentScanDirectory st = Some base ->
  let trashDir := Path.join base ".trash" in
  trashDir ∈ dirs (fs st) ->
  files (fs st)
  = <[Path.join trashDir (n +:+ ".metadata.json") := Json md]>
      (<[Path.join trashDir n := c]> rest) ->
  (forall q, String.prefix trashDir q = true -> rest !! q = None) ->
  Spec.plain n = true -> n <> "" ->
  Path.endsWith n ".metadata.json" = false ->
  exists st',
    getAllTrashFiles st = (st', Normal [withTrashDir md trashDir])
    /\ fs st' = fs st
    /\ currentScanDirectory st' = Some base.
Proof.
  intros Hbase trashDir Hdir Hfiles Hrest Hplain Hne Hend.
  pose proof (readdir_one trashDir n c md rest Hrest Hplain Hne) as Hnames.
  cbv zeta in Hnames. rewrite <- Hfiles in Hnames.
  unfold getAllTrashFiles, readdir. run_m. proj. rewrite Hbase. proj.
  fold trashDir.
  assert (Hex : exists_ (fs st) trashDir = true).
  { unfold exists_. rewrite (bool_decide_eq_true_2 (trashDir ∈ _)) by done.
    apply orb_true_r. }
  rewrite Hex. proj. rewrite (bool_decide_eq_true_2 (trashDir ∈ _)) by done.
  destruct Hnames as [-> | ->]; cbn [forOf]; unfold mbind, M_bind, mret, M_ret;
    rewrite Hend, endsWith_append; proj; rewrite Hfiles, lookup_insert_eq; proj;
    (eexists; split; [reflexivity|]); proj; done.
Qed.

Lemma rename_done (st : State) (src dst : string) (c : Content) :
  files (fs st) !! src = Some c ->
  locked (fs st) = ∅ ->
  parentOf dst ∈ dirs (fs st) ->
  exists st',
    rename src dst st = (st', Normal tt)
    /\ files (fs st') = <[dst := c]> (delete src (files (fs st)))
    /\ locked (fs st') = ∅
    /\ deletedCount st' = deletedCount st.
Proof.
  intros Hsrc Hlocked Hparent. run_m. proj. unfold exists_. rewrite Hsrc, Hlocked.
  rewrite (bool_decide_eq_true_2 (is_Some _)) by eauto.
  rewrite !(bool_decide_eq_false_2 (_ ∈ ∅)) by set_solver.
  rewrite (bool_decide_eq_true_2 _ Hparent). proj. by eexists.
Qed.

Lemma unlink_done (st : State) (p : string) (c : Content) :
  files (fs st) !! p = Some c ->
  locked (fs st) = ∅ ->
  exists st',
    unlink p st = (st', Normal tt)
    /\ files (fs st') = delete p (files (fs st))
    /\ locked (fs st') = ∅
    /\ deletedCount st' = deletedCount st.
Proof.
  intros Hp Hlocked. run_m. proj. rewrite Hp, Hlocked.
  rewrite !bool_decide_eq_false_2 by set_solver. proj. by eexists.
Qed.

Lemma truthy_join (d n : string) : truthy (Some (Path.join d n)) = Some (Path.join d n).
Proof. unfold truthy. by rewrite join_not_empty. Qed.

Section OnePhoto.

Variables (st : State) (photo : Photo) (base a name : string) (c : Content).

Hypothesis Hbase : currentScanDirectory st = Some base.
Hypothesis Hlocked : locked (fs st) = ∅.
Hypothesis Ha : Spec.absolutePathOf st photo = Some a.
Hypothesis Hc : files (fs st) !! a = Some c.
Hypothesis Hname : photoFilename photo = Some name.
Hypothesis Hplain : Spec.plain name = true.
Hypothesis Hend : Path.endsWith (replaceParenthesized name 0) ".metadata.json" = false.
Hypothesis Hempty : Spec.trashIsEmpty (fs st) base.

Lemma moved_paths :
  let trashPath := Path.join (Spec.trashOf base) (Spec.trashFilenameOf st name) in
  let metadataPath :=
    Path.join (Spec.trashOf base) (Spec.trashFilenameOf st name +:+ ".metadata.json") in
  files (fs st) !! trashPath = None
  /\ files (fs st) !! metadataPath = None
  /\ a <> trashPath /\ a <> metadataPath /\ trashPath <> metadataPath.
Proof.
  intros trashPath metadataPath.
  assert (H1 : files (fs st) !! trashPath = None) by (apply Hempty, prefix_append).
  assert (H2 : files (fs st) !! metadataPath = None) by (apply Hempty, prefix_append).
  split; [done|]. split; [done|]. split; [congruence|]. split; [congruence|].
  intros H. apply (f_equal String.length) in H. unfold trashPath, metadataPath, Path.join in H.
  rewrite !length_append in H. cbn in H. lia.
Qed.

Lemma moveToTrash_one :
  exists st1,
    moveToTrash [photo] st
    = (st1, Normal (MovedToTrash [Spec.movedEntry st photo base a name]
                      "Moved 1 files to trash"))
    /\ files (fs st1)
       = <[Path.join (Spec.trashOf base)
             (Spec.trashFilenameOf st name +:+ ".metadata.json")
           := Json (Spec.movedEntry st photo base a name)]>
           (<[Path.join (Spec.trashOf base) (Spec.trashFilenameOf st name) := c]>
              (delete a (files (fs st))))
    /\ Spec.trashOf base ∈ dirs (fs st1)
    /\ locked (fs st1) = ∅
    /\ currentScanDirectory st1 = Some base
    /\ parentOf a ∈ dirs (fs st1).
Proof.
  destruct (moveOne_exact photo (setDeletedFiles [] st).1 base a name c)
    as (st1 & Hrun & Hdel & Hfiles & Hdir & Hpar & Hlock & Hbase1); try done.
  exists st1. split; [|done].
  unfold moveToTrash, tryCatch, mbind, M_bind, setDeletedFiles in *. cbn [fst forOf] in *.
  unfold mbind, M_bind. rewrite Hrun. unfold mret, M_ret, getState.
  rewrite Hdel. done.
Qed.

Lemma listed_after_move (st1 : State) :
  files (fs st1)
  = <[Path.join (Spec.trashOf base) (Spec.trashFilenameOf st name +:+ ".metadata.json")
      := Json (Spec.movedEntry st photo base a name)]>
      (<[Path.join (Spec.trashOf base) (Spec.trashFilenameOf st name) := c]>
         (delete a (files (fs st)))) ->
  Spec.trashOf base ∈ dirs (fs st1) ->
  currentScanDirectory st1 = Some base ->
  exists st1',
    getAllTrashFiles st1
    = (st1', Normal [withTrashDir (Spec.movedEntry st photo base a name)
                       (Spec.trashOf base)])
    /\ fs st1' = fs st1.
Proof.
  intros Hfiles Hdir Hbase1.
  destruct (trashFilename_facts (clock st (ticks st)) (replaceParenthesized name 0))
    as (Hp & Hne & Hend' & _); [by apply replaceParenthesized_plain|done|].
  destruct (getAllTrashFiles_one st1 base (Spec.trashFilenameOf st name) c
              (Spec.movedEntry st photo base a name) (delete a (files (fs st))))
    as (st1' & Hrun & Hfs & _); try done.
  - intros q Hq. rewrite lookup_delete_None. right. by apply Hempty.
  - by exists st1'.
Qed.

Lemma move_then_restore :
  exists st1 st2,
    moveToTrash [photo] st
    = (st1, Normal (MovedToTrash [Spec.movedEntry st photo base a name]
                      "Moved 1 files to trash"))
    /\ files (fs st1) !! a = None
    /\ restoreFromTrash [photoId photo] st1
       = (st2, Normal (RestoredFromTrash
                         [withTrashDir (Spec.movedEntry st photo base a name)
                            (Spec.trashOf base)]
                         "Restored 1 files"))
    /\ files (fs st2) = files (fs st).
Proof.
  destruct moveToTrash_one as (st1 & Hmove & Hfiles & Hdir & Hlock & Hbase1 & Hpar).
  destruct (listed_after_move st1 Hfiles Hdir Hbase1) as (st1' & Hlist & Hfs).
  destruct moved_paths as (Hn1 & Hn2 & Hd1 & Hd2 & Hd3).
  exists st1. 
  assert (Hgone : files (fs st1) !! a = None).
  { rewrite Hfiles, !lookup_insert_ne by done. apply lookup_delete_eq. }
  destruct (rename_done st1' (Path.join (Spec.trashOf base) (Spec.trashFilenameOf st name))
              a c) as (st2 & Hren & Hf2 & Hl2 & _).
  { rewrite Hfs, Hfiles, lookup_insert_ne by done. apply lookup_insert_eq. }
  { by rewrite Hfs. }
  { by rewrite Hfs. }
  destruct (unlink_done st2
              (Path.join (Spec.trashOf base)
                 (Spec.trashFilenameOf st name +:+ ".metadata.json"))
              (Json (Spec.movedEntry st photo base a name)))
    as (st3 & Hun & Hf3 & _).
  { rewrite Hf2, lookup_insert_ne by done. rewrite lookup_delete_ne by done.
    rewrite Hfs, Hfiles. apply lookup_insert_eq. }
  { done. }
  exists st3. split; [exact Hmove|]. split; [exact Hgone|]. split.
  - unfold restoreFromTrash, tryCatch, mbind, M_bind. rewrite Hlist.
    cbn [forOfPush]. unfold mbind, M_bind, restoreOne.
    cbn [List.find id withTrashDir Spec.movedEntry]. rewrite String.eqb_refl.
    unfold tryCatch, mbind, M_bind.
    cbn [tempPath originalPath trashDir id withTrashDir Spec.movedEntry].
    unfold mret at 1, M_ret at 1. rewrite Hren.
    rewrite truthy_join. unfold join, mret at 1, M_ret at 1.
    destruct (trashFilename_facts (clock st (ticks st)) (replaceParenthesized name 0))
      as (Hp & _); [by apply replaceParenthesized_plain|done|].
    rewrite basename_join by exact Hp. rewrite Hun. reflexivity.
  - rewrite Hf3, Hf2, Hfs, Hfiles. apply map_eq. intros k.
    destruct (decide (k = Path.join (Spec.trashOf base)
                            (Spec.trashFilenameOf st name +:+ ".metadata.json")))
      as [->|Hk1]; [by rewrite lookup_delete_eq|].
    rewrite lookup_delete_ne by done.
    destruct (decide (k = a)) as [->|Hk2]; [by rewrite lookup_insert_eq|].
    rewrite lookup_insert_ne by done.
    destruct (decide (k = Path.join (Spec.trashOf base) (Spec.trashFilenameOf st name)))
      as [->|Hk3]; [by rewrite lookup_delete_eq|].
    rewrite lookup_delete_ne by done. rewrite !lookup_insert_ne by done.
    by rewrite lookup_delete_ne.
Qed.

Lemma move_then_status :
  exists st1 st2,
    moveToTrash [photo] st
    = (st1, Normal (MovedToTrash [Spec.movedEntry st photo base a name]
                      "Moved 1 files to trash"))
    /\ trashStatus st1
       = (st2, Normal (TrashStatus 1 (photoSize photo)
                         [withTrashDir (Spec.movedEntry st photo base a name)
                            (Spec.trashOf base)]))
    /\ fs st2 = fs st1.
Proof.
  destruct moveToTrash_one as (st1 & Hmove & Hfiles & Hdir & Hlock & Hbase1 & Hpar).
  destruct (listed_after_move st1 Hfiles Hdir Hbase1) as (st1' & Hlist & Hfs).
  exists st1, st1'. split; [exact Hmove|]. split; [|exact Hfs].
  unfold trashStatus, tryCatch, mbind, M_bind. rewrite Hlist. reflexivity.
Qed.

Lemma move_then_empty :
  exists st1 st2,
    moveToTrash [photo] st
    = (st1, Normal (MovedToTrash [Spec.movedEntry st photo base a name]
                      "Moved 1 files to trash"))
    /\ emptyTrash st1 = (st2, Normal (TrashEmptied 1 "Permanently deleted 1 files"))
    /\ files (fs st2) = delete a (files (fs st)).
Proof.
  destruct moveToTrash_one as (st1 & Hmove & Hfiles & Hdir & Hlock & Hbase1 & Hpar).
  destruct (listed_after_move st1 Hfiles Hdir Hbase1) as (st1' & Hlist & Hfs).
  destruct moved_paths as (Hn1 & Hn2 & Hd1 & Hd2 & Hd3).
  destruct (unlink_done (setDeletedCount 0 st1').1
              (Path.join (Spec.trashOf base) (Spec.trashFilenameOf st name)) c)
    as (st2 & Hun & Hf2 & Hl2 & Hcount2).
  { cbn [setDeletedCount fst fs]. rewrite Hfs, Hfiles, lookup_insert_ne by done.
    apply lookup_insert_eq. }
  { cbn [setDeletedCount fst fs]. by rewrite Hfs. }
  destruct (unlink_done (setDeletedCount (S (deletedCount st2)) st2).1
              (Path.join (Spec.trashOf base)
                 (Spec.trashFilenameOf st name +:+ ".metadata.json"))
              (Json (Spec.movedEntry st photo base a name)))
    as (st3 & Hun3 & Hf3 & _ & Hcount3).
  { cbn [setDeletedCount fst fs]. rewrite Hf2, lookup_delete_ne by done.
    cbn [setDeletedCount fst fs]. rewrite Hfs, Hfiles. apply lookup_insert_eq. }
  { done. }
  exists st1, st3. split; [exact Hmove|]. split.
  - unfold emptyTrash, tryCatch, mbind, M_bind. rewrite Hlist.
    unfold setDeletedCount at 1. cbn [forOf]. unfold mbind, M_bind, emptyOne.
    unfold tryCatch, mbind, M_bind.
    cbn [tempPath originalPath trashDir id withTrashDir Spec.movedEntry].
    rewrite truthy_join. unfold setDeletedCount in Hun. cbn [fst] in Hun. rewrite Hun.
    unfold getState. unfold setDeletedCount in Hun3 |- *. cbn [fst] in Hun3.
    unfold join, mret, M_ret.
    destruct (trashFilename_facts (clock st (ticks st)) (replaceParenthesized name 0))
      as (Hp & _); [by apply replaceParenthesized_plain|done|].
    rewrite basename_join by exact Hp. rewrite Hun3.
    cbn [setDeletedCount fst deletedCount] in Hcount2, Hcount3.
    rewrite Hcount3, Hcount2. reflexivity.
  - rewrite Hf3. cbn [setDeletedCount fst fs]. rewrite Hf2. cbn [setDeletedCount fst fs].
    rewrite Hfs, Hfiles. apply map_eq. intros k.
    destruct (decide (k = Path.join (Spec.trashOf base)
                            (Spec.trashFilenameOf st name +:+ ".metadata.json")))
      as [->|Hk1].
    { rewrite lookup_delete_eq, lookup_delete_ne by done. done. }
    rewrite lookup_delete_ne by done.
    destruct (decide (k = Path.join (Spec.trashOf base) (Spec.trashFilenameOf st name)))
      as [->|Hk3].
    { rewrite lookup_delete_eq, lookup_delete_ne by done. done. }
    rewrite lookup_delete_ne by done. by rewrite !lookup_insert_ne.
Qed.

End OnePhoto.




Lemma twoPhotos_trashIsEmpty :
  Spec.trashIsEmpty (fs (Spec.serverState Spec.twoPhotos)) "/photos".
Proof.
  intros q Hq. destruct (files _ !! q) as [c|] eqn:E; [|done]. exfalso.
  apply elem_of_list_to_map_2 in E.
  repeat (apply elem_of_cons in E as [[= -> _]|E]; [discriminate Hq|]).
  by apply elem_of_nil in E.
Qed.




End MoveAndBack.
